(** * happy-server standalone entry point: migration runner and dispatcher

    A shallow embedding of [packages/happy-server/sources/standalone.ts]
    (functions [migrate], [serve] and the command switch) together with the
    properties of the migration engine that the design document states.

    The program talks to three things it does not define: Node's [fs] and
    [path] modules, the PGlite SQL engine, and the server module [./main].
    - The file system is a record of what the synchronous [fs] calls return
      while the process runs; the engine itself writes nothing below the
      migrations root.
    - The database is a record holding the [_prisma_migrations] table, whose
      DDL, SELECT and INSERT are in the source and are modelled row by row,
      and an opaque rest on which migration scripts act through the host's
      [run_script].
    - A JavaScript string is kept as the bytes of its UTF-8 form
      ([String.string]), the form names have on disk; the default [sort]
      compares the UTF-16 code units of these strings, which [utf16]
      recovers from the bytes. *)

From Stdlib Require Import ZArith NArith Ascii.
From stdpp Require Import base option list sorting strings pretty gmap lexico.

Local Open Scope Z_scope.
Local Open Scope stdpp_scope.

(** ** Data model *)

(** One row of [_prisma_migrations], column by column (source lines 35-42). *)
Record Row := mkRow {
  row_id : string;                (* "id" TEXT PRIMARY KEY *)
  migration_name : string;        (* TEXT NOT NULL UNIQUE *)
  finished_at : option nat;       (* TIMESTAMPTZ, nullable *)
  started_at : nat;               (* TIMESTAMPTZ NOT NULL DEFAULT now() *)
  applied_steps_count : Z;        (* INTEGER NOT NULL DEFAULT 0 *)
  logs : option string            (* TEXT, nullable *)
}.

(** The database kept in the PGlite directory: the tracking table ([None]
    while the table does not exist) and everything else. *)
Record Store (U : Type) := mkStore {
  tracking : option (list Row);
  userdb : U
}.
Arguments mkStore {U} _ _.
Arguments tracking {U} _.
Arguments userdb {U} _.

(** Result of a call that may throw. *)
Inductive Try (A : Type) :=
| Returns (a : A)
| Throws (msg : string).
Arguments Returns {A} _.
Arguments Throws {A} _.

(** What the [fs] calls of the program return. *)
Record FileSys := mkFileSys {
  fs_mkdir : string -> option string;      (* mkdirSync(p, {recursive: true}): the error, if any *)
  fs_exists : string -> bool;              (* the path names an existing entry *)
  fs_readdir : string -> Try (list string);(* readdirSync(p), in listing order *)
  fs_isdir : string -> Try bool;           (* statSync(p).isDirectory() *)
  fs_readfile : string -> Try string       (* readFileSync(p, "utf-8") *)
}.

#[global] Instance Try_eq_dec {A} `{EqDecision A} : EqDecision (Try A).
Proof. solve_decision. Defined.

(** Console messages, kept structured; [render] gives the printed text. *)
Inductive Msg :=
| MsgMigrating (dir : string)
| MsgNoRoot
| MsgApplying (dir : string)
| MsgFailed (dir cause : string)
| MsgNoNew
| MsgApplied (n : nat)
| MsgUsage
| MsgUncaught (e : string).

Definition usage_text : string :=
"happy-server - portable distribution

Usage:
  happy-server migrate    Apply database migrations
  happy-server serve      Start the server

Environment variables:
  DATA_DIR          Base data directory (default: ./data)
  PGLITE_DIR        PGlite database directory (default: DATA_DIR/pglite)
  DATABASE_URL      PostgreSQL URL (if set, uses external Postgres instead of PGlite)
  REDIS_URL         Redis URL (optional, not required for standalone)
  PORT              Server port (default: 3005)
  HANDY_MASTER_SECRET  Required: master secret for auth/encryption
".

Definition render (m : Msg) : string :=
  match m with
  | MsgMigrating dir => "Migrating database in " +:+ dir +:+ "..."
  | MsgNoRoot => "Could not find prisma/migrations directory"
  | MsgApplying dir => "  Applying " +:+ dir +:+ "..."
  | MsgFailed dir cause => "  Failed to apply " +:+ dir +:+ ": " +:+ cause
  | MsgNoNew => "No new migrations to apply."
  | MsgApplied n => "Applied " +:+ pretty n +:+ " migration(s)."
  | MsgUsage => usage_text
  | MsgUncaught e => e
  end.

#[global] Instance Msg_eq_dec : EqDecision Msg.
Proof. solve_decision. Defined.

(** Observable actions of the process, in the order they happen.  The migration
    name carried by [ExecScript] is a label: [pg.exec] receives the text. *)
Inductive Event :=
| ConsoleLog (m : Msg)
| ConsoleError (m : Msg)
| OpenStore (dir : string)
| EnsureTable
| SelectApplied
| ExecScript (name sql : string) (err : option string)
| InsertRecord (id name : string) (err : option string)
| CloseStore.

#[global] Instance Event_eq_dec : EqDecision Event.
Proof. solve_decision. Defined.

(** How a computation ends: normally, by a thrown error (a rejected promise),
    or by [process.exit]. *)
Inductive Res (A : Type) :=
| Ok (a : A)
| Throw (e : string)
| Exit (code : Z).
Arguments Ok {A} _.
Arguments Throw {A} _.
Arguments Exit {A} _.

(** The process and its surroundings. *)
Record State (U : Type) := mkState {
  st_argv : list string;             (* process.argv *)
  st_cwd : string;                   (* process.cwd() *)
  st_execPath : string;              (* process.execPath *)
  st_env : gmap string string;       (* process.env *)
  st_fs : FileSys;
  st_pg : Store U;                   (* the database stored in the PGlite directory *)
  st_uuid : nat;                     (* calls to crypto.randomUUID so far *)
  st_trace : list Event
}.
Arguments mkState {U} _ _ _ _ _ _ _ _.
Arguments st_argv {U} _.
Arguments st_cwd {U} _.
Arguments st_execPath {U} _.
Arguments st_env {U} _.
Arguments st_fs {U} _.
Arguments st_pg {U} _.
Arguments st_uuid {U} _.
Arguments st_trace {U} _.

(** What the program imports and does not define. *)
Class Host := {
  udb : Type;
  (** [pg.exec(sql)] on a migration script: the database afterwards (with
      whatever the script did before failing) and the error, if any. *)
  run_script : string -> Store udb -> Store udb * option string;
  (** SQL [now()]. *)
  pg_now : Store udb -> nat;
  (** [path.join(...)] and [path.dirname(p)]. *)
  path_join : list string -> string;
  path_dirname : string -> string;
  (** The n-th value returned by [crypto.randomUUID()]. *)
  random_uuid : nat -> string;
  (** The module [./main], run by the dynamic import in [serve]. *)
  server_main : State udb -> State udb * Res unit
}.

Section Program.
Context `{Host}.

Definition M (A : Type) : Type := State udb -> State udb * Res A.

#[global] Instance M_ret : MRet M := fun A a s => (s, Ok a).
#[global] Instance M_bind : MBind M := fun A B f m s =>
  match m s with
  | (s', Ok a) => f a s'
  | (s', Throw e) => (s', Throw e)
  | (s', Exit c) => (s', Exit c)
  end.

Definition throw {A} (e : string) : M A := fun s => (s, Throw e).
Definition process_exit {A} (code : Z) : M A := fun s => (s, Exit code).

(** [try { body } catch (e) { handler(e.message) }] *)
Definition try_catch {A} (body : M A) (handler : string -> M A) : M A := fun s =>
  match body s with
  | (s', Throw e) => handler e s'
  | other => other
  end.

Definition lift_try {A} (t : Try A) : M A :=
  match t with Returns a => mret a | Throws e => throw e end.

Definition with_trace (s : State udb) (tr : list Event) : State udb :=
  mkState (st_argv s) (st_cwd s) (st_execPath s) (st_env s) (st_fs s) (st_pg s) (st_uuid s) tr.
Definition with_pg (s : State udb) (pg : Store udb) : State udb :=
  mkState (st_argv s) (st_cwd s) (st_execPath s) (st_env s) (st_fs s) pg (st_uuid s) (st_trace s).
Definition with_env (s : State udb) (env : gmap string string) : State udb :=
  mkState (st_argv s) (st_cwd s) (st_execPath s) env (st_fs s) (st_pg s) (st_uuid s) (st_trace s).
Definition with_uuid (s : State udb) (n : nat) : State udb :=
  mkState (st_argv s) (st_cwd s) (st_execPath s) (st_env s) (st_fs s) (st_pg s) n (st_trace s).

Definition gets {A} (f : State udb -> A) : M A := fun s => (s, Ok (f s)).

(** [process.env[key] = value] *)
Definition set_env (key value : string) : M unit := fun s =>
  (with_env s (<[key := value]> (st_env s)), Ok tt).

(** [await import("./main")] *)
Definition import_main : M unit := server_main.

Definition emit (e : Event) : M unit := fun s => (with_trace s (st_trace s ++ [e]), Ok tt).
Definition console_log (m : Msg) : M unit := emit (ConsoleLog m).
Definition console_error (m : Msg) : M unit := emit (ConsoleError m).

(** *** JavaScript values *)

(** [a || b] on a possibly undefined string: the empty string is falsy. *)
Definition js_or (a : option string) (b : string) : string :=
  match a with
  | Some x => if decide (x = "") then b else x
  | None => b
  end.

(** [!a] on a possibly undefined string. *)
Definition js_not (a : option string) : bool :=
  match a with
  | Some x => bool_decide (x = "")
  | None => true
  end.

(** The bytes of a string. *)
Fixpoint bytes (s : string) : list N :=
  match s with
  | EmptyString => []
  | String c s' => N_of_ascii c :: bytes s'
  end.

(** A continuation byte, 80 to BF. *)
Definition is_cont (b : N) : bool := ((128 <=? b) && (b <=? 191))%N.

(** The code points of a UTF-8 byte sequence: one byte below 80; two bytes
    led by C2-DF; three led by E0-EF, giving 800-FFFF without the surrogate
    range; four led by F0-F4, giving 10000-10FFFF.  A byte that starts no
    well-formed sequence reads as U+FFFD, as Node's decoder has it. *)
Fixpoint utf8_decode (bs : list N) : list N :=
  match bs with
  | [] => []
  | b0 :: r0 =>
      let bad := 65533%N :: utf8_decode r0 in
      if (b0 <? 128)%N then b0 :: utf8_decode r0 else
      match r0 with
      | [] => bad
      | b1 :: r1 =>
          if ((194 <=? b0) && (b0 <=? 223))%N && is_cont b1
          then ((b0 - 192) * 64 + (b1 - 128))%N :: utf8_decode r1 else
          match r1 with
          | [] => bad
          | b2 :: r2 =>
              let p3 := ((b0 - 224) * 4096 + (b1 - 128) * 64 + (b2 - 128))%N in
              if ((224 <=? b0) && (b0 <=? 239))%N && is_cont b1 && is_cont b2 &&
                 (2048 <=? p3)%N && negb ((55296 <=? p3) && (p3 <=? 57343))%N
              then p3 :: utf8_decode r2 else
              match r2 with
              | [] => bad
              | b3 :: r3 =>
                  let p4 := ((b0 - 240) * 262144 + (b1 - 128) * 4096 +
                             (b2 - 128) * 64 + (b3 - 128))%N in
                  if ((240 <=? b0) && (b0 <=? 244))%N && is_cont b1 && is_cont b2 &&
                     is_cont b3 && (65536 <=? p4)%N && (p4 <=? 1114111)%N
                  then p4 :: utf8_decode r3 else bad
              end
          end
      end
  end.

(** The UTF-16 code units of a code point: itself below 10000, a surrogate
    pair (D800-DBFF, DC00-DFFF) otherwise. *)
Definition utf16_of_point (p : N) : list N :=
  if (p <? 65536)%N then [p]
  else [(55296 + (p - 65536) / 1024)%N; (56320 + (p - 65536) mod 1024)%N].

(** The code units of the JavaScript string a name is. *)
Definition utf16 (s : string) : list N := utf8_decode (bytes s) ≫= utf16_of_point.

(** The comparison of [sort()] without a comparator: [x < y] on strings,
    which goes by code units.  Two byte strings with the same code units are
    one and the same string for JavaScript; here they are told apart by
    their bytes, so that the sorted array is a function of the set of
    names. *)
Definition js_before (a b : string) : Prop := lexico (utf16 a, bytes a) (utf16 b, bytes b).
Definition js_le (a b : string) : Prop := a = b ∨ js_before a b.

#[global] Instance js_le_dec a b : Decision (js_le a b).
Proof. unfold js_le, js_before. apply _. Defined.

(** [Array.prototype.sort()] without a comparator on an array of strings. *)
Definition js_sort (l : list string) : list string := merge_sort js_le l.

(** *** fs *)

Definition mkdirSync (p : string) : M unit := fun s =>
  match fs_mkdir (st_fs s) p with
  | None => (s, Ok tt)
  | Some e => (s, Throw e)
  end.

(** [fs.existsSync] is false on the empty path whatever the disk holds. *)
Definition existsSync (p : string) : M bool := fun s =>
  (s, Ok (if decide (p = "") then false else fs_exists (st_fs s) p)).

Definition readdirSync (p : string) : M (list string) := fun s => lift_try (fs_readdir (st_fs s) p) s.
Definition statSync_isDirectory (p : string) : M bool := fun s => lift_try (fs_isdir (st_fs s) p) s.
Definition readFileSync (p : string) : M string := fun s => lift_try (fs_readfile (st_fs s) p) s.

(** *** PGlite *)

(** Modelled from the spec: [createPGlite] lives in [./storage/pgliteLoader],
    which is not part of the sources at hand.  Following section 4.1 it opens
    the store kept at the location, creating it when absent; the handle it
    returns is the database of the state. *)
Definition createPGlite (dir : string) : M unit := emit (OpenStore dir).

(** The error texts of the engine put names between double quotes. *)
Definition quoted (s : string) : string :=
  String (ascii_of_nat 34) (s +:+ String (ascii_of_nat 34) EmptyString).
Definition no_relation (table : string) : string :=
  "relation " +:+ quoted table +:+ " does not exist".
Definition unique_violation (constraint : string) : string :=
  "duplicate key value violates unique constraint " +:+ quoted constraint.

(** [CREATE TABLE IF NOT EXISTS "_prisma_migrations" (...)] *)
Definition ensure_table (db : Store udb) : Store udb :=
  match tracking db with
  | Some _ => db
  | None => mkStore (Some []) (userdb db)
  end.

Definition pg_ensure_table : M unit := fun s =>
  emit EnsureTable (with_pg s (ensure_table (st_pg s))).

Definition finished (r : Row) : bool := bool_decide (is_Some (finished_at r)).

(** [SELECT "migration_name" FROM "_prisma_migrations" WHERE "finished_at" IS NOT NULL] *)
Definition select_finished (db : Store udb) : Try (list string) :=
  match tracking db with
  | Some rows => Returns (migration_name <$> filter (fun r => finished r = true) rows)
  | None => Throws (no_relation "_prisma_migrations")
  end.

Definition pg_select_finished : M (list string) := fun s =>
  (lift_try (select_finished (st_pg s))) (with_trace s (st_trace s ++ [SelectApplied])).

(** [INSERT INTO "_prisma_migrations" ("id", "migration_name", "finished_at",
    "applied_steps_count") VALUES ($1, $2, now(), 1)]: the primary key and the
    UNIQUE constraint of the table are checked; a rejected insert changes
    nothing. *)
Definition insert_finished (id name : string) (db : Store udb) : Store udb * option string :=
  match tracking db with
  | None => (db, Some (no_relation "_prisma_migrations"))
  | Some rows =>
      if bool_decide (id ∈ row_id <$> rows)
      then (db, Some (unique_violation "_prisma_migrations_pkey"))
      else if bool_decide (name ∈ migration_name <$> rows)
      then (db, Some (unique_violation "_prisma_migrations_migration_name_key"))
      else (mkStore (Some (rows ++ [mkRow id name (Some (pg_now db)) (pg_now db) 1 None])) (userdb db), None)
  end.

Definition pg_insert (id name : string) : M unit := fun s =>
  let '(db, err) := insert_finished id name (st_pg s) in
  let s' := with_trace (with_pg s db) (st_trace s ++ [InsertRecord id name err]) in
  match err with
  | None => (s', Ok tt)
  | Some e => (s', Throw e)
  end.

(** [pg.exec(sql)] on the script of migration [name]. *)
Definition pg_exec_script (name sql : string) : M unit := fun s =>
  let '(db, err) := run_script sql (st_pg s) in
  let s' := with_trace (with_pg s db) (st_trace s ++ [ExecScript name sql err]) in
  match err with
  | None => (s', Ok tt)
  | Some e => (s', Throw e)
  end.

Definition pg_close : M unit := emit CloseStore.

Definition randomUUID : M string := fun s =>
  (with_uuid s (S (st_uuid s)), Ok (random_uuid (st_uuid s))).

(** ** The program *)

(** Lines 46-56: the first candidate that exists, or the empty string. *)
Fixpoint find_candidate (candidates : list string) : M string :=
  match candidates with
  | [] => mret ""
  | candidate :: rest =>
      found ← existsSync candidate;
      if found : bool then mret candidate else find_candidate rest
  end.

(** Line 64: [.filter(d => fs.statSync(path.join(root, d)).isDirectory())]. *)
Fixpoint filter_dirs (root : string) (entries : list string) : M (list string) :=
  match entries with
  | [] => mret []
  | d :: rest =>
      isdir ← statSync_isDirectory (path_join [root; d]);
      ds ← filter_dirs root rest;
      mret (if isdir : bool then d :: ds else ds)
  end.

(** Lines 74-98: the loop over the sorted directories, with its counter. *)
Fixpoint apply_loop (root : string) (appliedSet : gset string)
    (dirs : list string) (appliedCount : nat) : M nat :=
  match dirs with
  | [] => mret appliedCount
  | dir :: rest =>
      if bool_decide (dir ∈ appliedSet) then apply_loop root appliedSet rest appliedCount
      else
        let sqlFile := path_join [root; dir; "migration.sql"] in
        present ← existsSync sqlFile;
        if negb present then apply_loop root appliedSet rest appliedCount
        else
          console_log (MsgApplying dir);;
          sql ← readFileSync sqlFile;
          appliedCount' ← try_catch
            (pg_exec_script dir sql;;
             id ← randomUUID;
             pg_insert id dir;;
             mret (S appliedCount))
            (fun message =>
               console_error (MsgFailed dir message);;
               process_exit 1);
          apply_loop root appliedSet rest appliedCount'
  end.

(** Lines 27-107. *)
Definition migrate (pgliteDir : string) : M unit :=
  console_log (MsgMigrating pgliteDir);;
  mkdirSync pgliteDir;;
  createPGlite pgliteDir;;
  pg_ensure_table;;
  cwd ← gets st_cwd;
  execPath ← gets st_execPath;
  let candidates :=
    [ path_join [cwd; "prisma"; "migrations"];
      path_join [path_dirname execPath; "prisma"; "migrations"] ] in
  migrationsDirResolved ← find_candidate candidates;
  (if decide (migrationsDirResolved = "")
   then console_error MsgNoRoot;; process_exit 1
   else mret tt);;
  entries ← readdirSync migrationsDirResolved;
  dirs ← filter_dirs migrationsDirResolved entries;
  let dirs := js_sort dirs in
  applied ← pg_select_finished;
  let appliedSet : gset string := list_to_set applied in
  appliedCount ← apply_loop migrationsDirResolved appliedSet dirs 0;
  (if decide (appliedCount = 0%nat)
   then console_log MsgNoNew
   else console_log (MsgApplied appliedCount));;
  pg_close.

(** Lines 109-117. *)
Definition serve (pgliteDir : string) : M unit :=
  env ← gets st_env;
  (if js_not (env !! "DATABASE_URL")
   then set_env "PGLITE_DIR" (js_or (env !! "PGLITE_DIR") pgliteDir)
   else mret tt);;
  import_main.

(** [p.catch(e => { console.error(e); process.exit(1); })] *)
Definition catch_exit (p : M unit) : M unit :=
  try_catch p (fun e => console_error (MsgUncaught e);; process_exit 1).

(** The module body: the two constants of lines 24-25, then the switch. *)
Definition main : M unit :=
  env ← gets st_env;
  let dataDir := js_or (env !! "DATA_DIR") "./data" in
  let pgliteDir := js_or (env !! "PGLITE_DIR") (path_join [dataDir; "pglite"]) in
  argv ← gets st_argv;
  let command := argv !! 2%nat in
  if decide (command = Some "migrate") then catch_exit (migrate pgliteDir)
  else if decide (command = Some "serve") then catch_exit (serve pgliteDir)
  else
    console_log MsgUsage;;
    process_exit (if bool_decide (command = Some "--help") || bool_decide (command = Some "-h")
                  then 0 else 1).

(** Exit status of the process: [process.exit]'s argument, 0 when the program
    runs to its end, 1 for an error nobody caught. *)
Definition exit_status {A} (r : Res A) : Z :=
  match r with
  | Ok _ => 0
  | Throw _ => 1
  | Exit code => code
  end.

(** ** The patch of [crypto.subtle.importKey] (lines 6-18) *)

(** A JavaScript value as far as the patch tells values apart: a string, or
    anything else. *)
Inductive JsVal :=
| JsString (s : string)
| JsOther (tag : nat).

#[global] Instance JsVal_eq_dec : EqDecision JsVal.
Proof. solve_decision. Defined.

(** The [keyData] argument: a plain object, given by its own enumerable
    properties, or a value that is null, undefined or not of type object. *)
Inductive KeyData :=
| KeyObject (props : gmap string JsVal)
| KeyOther (tag : nat).

(** [s.replace(/a/g, b)] for single characters [a] and [b]. *)
Fixpoint replace_all (a b : ascii) (s : string) : string :=
  match s with
  | EmptyString => EmptyString
  | String c s' => String (if Ascii.eqb c a then b else c) (replace_all a b s')
  end.

(** [s.replace(/=+$/, '')] *)
Fixpoint strip_padding (s : string) : string :=
  match s with
  | EmptyString => EmptyString
  | String c s' =>
      let rest := strip_padding s' in
      if Ascii.eqb c "="%char && bool_decide (rest = "") then EmptyString
      else String c rest
  end.

(** Line 12. *)
Definition base64url_of (s : string) : string :=
  strip_padding (replace_all "/"%char "_"%char (replace_all "+"%char "-"%char s)).

Definition jwk_fields : list string :=
  ["d"; "x"; "y"; "n"; "e"; "p"; "q"; "dp"; "dq"; "qi"; "k"].

(** Lines 11-13, for one [field]. *)
Definition fix_field (fixed : gmap string JsVal) (field : string) : gmap string JsVal :=
  match fixed !! field with
  | Some (JsString s) => <[field := JsString (base64url_of s)]> fixed
  | _ => fixed
  end.

(** Lines 9-14: the copy [fixed] after the loop. *)
Definition fix_jwk (keyData : gmap string JsVal) : gmap string JsVal :=
  foldl fix_field keyData jwk_fields.

(** Lines 7-18: the function installed as [crypto.subtle.importKey]. *)
Definition importKey {X R : Type} (origImportKey : JsVal -> KeyData -> X -> X -> X -> R)
    (format : JsVal) (keyData : KeyData) (algorithm extractable keyUsages : X) : R :=
  match keyData with
  | KeyObject props =>
      if decide (format = JsString "jwk")
      then origImportKey format (KeyObject (fix_jwk props)) algorithm extractable keyUsages
      else origImportKey format keyData algorithm extractable keyUsages
  | KeyOther _ => origImportKey format keyData algorithm extractable keyUsages
  end.

(** The characters of a string, in order. *)
Fixpoint chars (s : string) : list ascii :=
  match s with
  | EmptyString => []
  | String c s' => c :: chars s'
  end.

(** A text that needs no normalisation. *)
Definition url_safe (s : string) : Prop :=
  ("+"%char ∉ chars s) ∧ ("/"%char ∉ chars s) ∧ last (chars s) ≠ Some "="%char.

Definition alnum (c : ascii) : Prop :=
  let n := nat_of_ascii c in
  (48 ≤ n ≤ 57)%nat ∨ (65 ≤ n ≤ 90)%nat ∨ (97 ≤ n ≤ 122)%nat.
Definition base64_char (c : ascii) : Prop := alnum c ∨ c = "+"%char ∨ c = "/"%char.
Definition base64url_char (c : ascii) : Prop := alnum c ∨ c = "-"%char ∨ c = "_"%char.

Fixpoint padding (n : nat) : string :=
  match n with O => EmptyString | S n => String "="%char (padding n) end.

#[global] Instance base64_char_dec c : Decision (base64_char c).
Proof. unfold base64_char, alnum. apply _. Defined.

(** ** The container command *)

Definition with_argv (s : State udb) (argv : list string) : State udb :=
  mkState argv (st_cwd s) (st_execPath s) (st_env s) (st_fs s) (st_pg s) (st_uuid s) (st_trace s).

(** Lines 24-25 as functions of the environment. *)
Definition dataDir_of (env : gmap string string) : string :=
  js_or (env !! "DATA_DIR") "./data".
Definition pgliteDir_of (env : gmap string string) : string :=
  js_or (env !! "PGLITE_DIR") (path_join [dataDir_of env; "pglite"]).

(** Dockerfile, line 59:
    [sh -c "tsx sources/standalone.ts migrate && exec tsx sources/standalone.ts serve"].
    Two processes one after the other, over the same disk and store and each
    with the environment of the container; the second is started only when
    the first ends with status 0. *)
Definition container_cmd : M unit := fun s =>
  let argv_of command := [st_execPath s; "sources/standalone.ts"; command] in
  let '(s1, r1) := main (with_argv s (argv_of "migrate")) in
  if decide (exit_status r1 = 0)
  then main (with_argv (with_env s1 (st_env s)) (argv_of "serve"))
  else (s1, r1).

(** ** Reading a run *)

(** Migrations whose script was passed to [pg.exec], in order. *)
Definition executed (tr : list Event) : list string :=
  omap (fun e => match e with ExecScript name _ _ => Some name | _ => None end) tr.

(** Migrations whose completion record was inserted, in order. *)
Definition recorded (tr : list Event) : list string :=
  omap (fun e => match e with InsertRecord _ name None => Some name | _ => None end) tr.

(** Migrations for which an INSERT was issued, accepted or not. *)
Definition insert_attempts (tr : list Event) : list string :=
  omap (fun e => match e with InsertRecord _ name _ => Some name | _ => None end) tr.

(** Migrations announced by an [Applying] line, in order. *)
Definition announced (tr : list Event) : list string :=
  omap (fun e => match e with ConsoleLog (MsgApplying dir) => Some dir | _ => None end) tr.

(** Everything written with [console.error], in order. *)
Definition console_errors (tr : list Event) : list Msg :=
  omap (fun e => match e with ConsoleError m => Some m | _ => None end) tr.

Definition script_path (root dir : string) : string :=
  path_join [root; dir; "migration.sql"].

(** [fs.existsSync(sqlFile)] for the script of [dir]. *)
Definition has_script (fs : FileSys) (root dir : string) : bool :=
  if decide (script_path root dir = "") then false else fs_exists fs (script_path root dir).

(** The directories the loop does not skip: not in the applied set, and
    with a script. *)
Definition pending (fs : FileSys) (root : string) (applied : gset string)
    (dirs : list string) : list string :=
  filter (λ d, (d ∉ applied) ∧ has_script fs root d = true) dirs.

Definition candidates (cwd execPath : string) : list string :=
  [ path_join [cwd; "prisma"; "migrations"];
    path_join [path_dirname execPath; "prisma"; "migrations"] ].

Definition exists_path (fs : FileSys) (p : string) : bool :=
  if decide (p = "") then false else fs_exists fs p.

(** The value of [migrationsDirResolved] after the loop of lines 51-56. *)
Definition resolve_root (fs : FileSys) (cwd execPath : string) : string :=
  default "" (head (filter (fun c => exists_path fs c = true) (candidates cwd execPath))).

Definition is_directory (fs : FileSys) (root d : string) : Prop :=
  fs_isdir fs (path_join [root; d]) = Returns true.

#[global] Instance is_directory_dec fs root d : Decision (is_directory fs root d).
Proof. unfold is_directory. apply _. Defined.

(** The value of [dirs] (lines 63-65) when no [statSync] throws. *)
Definition discovered (fs : FileSys) (root : string) (entries : list string) : list string :=
  js_sort (filter (is_directory fs root) entries).

(** Names with a finished row: what the query of lines 68-71 collects. *)
Definition finished_names (db : Store udb) : list string :=
  migration_name <$> filter (fun r => finished r = true) (default [] (tracking db)).

Definition applied_set (db : Store udb) : gset string := list_to_set (finished_names db).

(** Migration scripts that leave the tracking table alone. *)
Definition scripts_keep_tracking : Prop :=
  ∀ sql db, tracking (run_script sql db).1 = tracking db.

(** Script executions and inserts that ended in an error: migration and cause. *)
Definition failures (tr : list Event) : list (string * string) :=
  omap (fun e => match e with
                 | ExecScript name _ (Some cause) => Some (name, cause)
                 | InsertRecord _ name (Some cause) => Some (name, cause)
                 | _ => None
                 end) tr.

(** The process around the database and the trace is left as it was. *)
Definition same_world (s s' : State udb) : Prop :=
  st_argv s' = st_argv s ∧ st_cwd s' = st_cwd s ∧ st_execPath s' = st_execPath s ∧
  st_env s' = st_env s ∧ st_fs s' = st_fs s.

(** What one pass of the loop of lines 74-98 leaves in the trace [tr], by the
    way it ends: with the counter, by [process.exit] in the catch block, or by
    an error thrown while reading a script. *)
Definition loop_outcome (fs : FileSys) (root : string) (applied : gset string)
    (dirs : list string) (count : nat) (tr : list Event) (r : Res nat) : Prop :=
  let todo := pending fs root applied dirs in
  match r with
  | Ok count' =>
      executed tr = todo ∧ recorded tr = todo ∧ announced tr = todo ∧
      insert_attempts tr = todo ∧ failures tr = [] ∧ console_errors tr = [] ∧
      count' = (count + length todo)%nat
  | Exit code =>
      code = 1 ∧
      ∃ done d later cause,
        todo = done ++ d :: later ∧
        executed tr = done ++ [d] ∧ recorded tr = done ∧ announced tr = done ++ [d] ∧
        failures tr = [(d, cause)] ∧
        console_errors tr = [MsgFailed d cause] ∧
        last tr = Some (ConsoleError (MsgFailed d cause)) ∧
        (insert_attempts tr = done ∨ insert_attempts tr = done ++ [d])
  | Throw e =>
      ∃ done d later,
        todo = done ++ d :: later ∧
        executed tr = done ∧ recorded tr = done ∧ announced tr = done ++ [d] ∧
        insert_attempts tr = done ∧ failures tr = [] ∧ console_errors tr = [] ∧
        fs_readfile fs (script_path root d) = Throws e
  end.

(** Lines 84-97: the rest of an iteration once both [continue]s are passed. *)
Definition apply_unit (root dir : string) (appliedCount : nat) : M nat :=
  console_log (MsgApplying dir);;
  sql ← readFileSync (script_path root dir);
  try_catch
    (pg_exec_script dir sql;;
     id ← randomUUID;
     pg_insert id dir;;
     mret (S appliedCount))
    (fun message =>
       console_error (MsgFailed dir message);;
       process_exit 1).

(** Rows appended to the tracking table between two databases. *)
Definition rows_added (db db' : Store udb) (names : list string) : Prop :=
  ∀ rows, tracking db = Some rows →
    ∃ new, tracking db' = Some (rows ++ new) ∧
           migration_name <$> new = names ∧
           Forall (fun r => finished r = true) new.

(** Line 64 as a function of the disk: the entries that are directories, or
    the error of the first [statSync] that throws. *)
Fixpoint stat_entries (fs : FileSys) (root : string) (entries : list string) : Try (list string) :=
  match entries with
  | [] => Returns []
  | d :: rest =>
      match fs_isdir fs (path_join [root; d]) with
      | Throws e => Throws e
      | Returns isdir =>
          match stat_entries fs root rest with
          | Throws e => Throws e
          | Returns ds => Returns (if isdir : bool then d :: ds else ds)
          end
      end
  end.

(** Lines 63-65 as a function of the disk. *)
Definition list_dirs (fs : FileSys) (root : string) : Try (list string) :=
  match fs_readdir fs root with
  | Throws e => Throws e
  | Returns entries =>
      match stat_entries fs root entries with
      | Throws e => Throws e
      | Returns ds => Returns (js_sort ds)
      end
  end.

(** How far [migrate] gets before its loop. *)
Inductive Startup :=
| MkdirFails (e : string)
| NoRoot
| ListingFails (root e : string)
| Ready (root : string) (dirs : list string).

Definition startup (pgliteDir : string) (s : State udb) : Startup :=
  match fs_mkdir (st_fs s) pgliteDir with
  | Some e => MkdirFails e
  | None =>
      let root := resolve_root (st_fs s) (st_cwd s) (st_execPath s) in
      if decide (root = "") then NoRoot
      else match list_dirs (st_fs s) root with
           | Throws e => ListingFails root e
           | Returns dirs => Ready root dirs
           end
  end.

(** The line printed for a count of [n] (lines 100-104). *)
Definition report (n : nat) : Msg :=
  if decide (n = 0%nat) then MsgNoNew else MsgApplied n.

(** Lines 100-106, after a loop that ended with [n]. *)
Definition closing (lr : Res nat) : list Event :=
  match lr with
  | Ok n => [ConsoleLog (report n); CloseStore]
  | _ => []
  end.

Definition forget {A} (lr : Res A) : Res unit :=
  match lr with
  | Ok _ => Ok tt
  | Throw e => Throw e
  | Exit code => Exit code
  end.

(** Events of [migrate] up to the loop. *)
Definition prologue (pgliteDir : string) : list Event :=
  [ConsoleLog (MsgMigrating pgliteDir); OpenStore pgliteDir; EnsureTable; SelectApplied].

(** What a run of [migrate] adds to the trace and how it ends. *)
Definition migrate_outcome (pgliteDir : string) (s s' : State udb)
    (tr : list Event) (r : Res unit) : Prop :=
  match startup pgliteDir s with
  | MkdirFails e =>
      r = Throw e ∧ tr = [ConsoleLog (MsgMigrating pgliteDir)] ∧ st_pg s' = st_pg s
  | NoRoot =>
      r = Exit 1 ∧
      tr = [ConsoleLog (MsgMigrating pgliteDir); OpenStore pgliteDir; EnsureTable;
            ConsoleError MsgNoRoot] ∧
      st_pg s' = ensure_table (st_pg s)
  | ListingFails _ e =>
      r = Throw e ∧
      tr = [ConsoleLog (MsgMigrating pgliteDir); OpenStore pgliteDir; EnsureTable] ∧
      st_pg s' = ensure_table (st_pg s)
  | Ready root dirs =>
      ∃ ltr lr,
        tr = prologue pgliteDir ++ ltr ++ closing lr ∧ r = forget lr ∧
        loop_outcome (st_fs s) root (applied_set (st_pg s)) dirs 0 ltr lr ∧
        (scripts_keep_tracking → rows_added (ensure_table (st_pg s)) (st_pg s') (recorded ltr))
  end.

(** The migrations a run of [migrate] from [s] has to work through, in
    order: none when it does not reach its loop. *)
Definition todo (pgliteDir : string) (s : State udb) : list string :=
  match startup pgliteDir s with
  | Ready root dirs => pending (st_fs s) root (applied_set (st_pg s)) dirs
  | _ => []
  end.

(** The same process in front of another disk. *)
Definition with_fs (s : State udb) (fs : FileSys) : State udb :=
  mkState (st_argv s) (st_cwd s) (st_execPath s) (st_env s) fs (st_pg s) (st_uuid s) (st_trace s).

(** The disk [fs] with the entry [d] of directory [root] not listed. *)
Definition hide_entry (fs : FileSys) (root d : string) : FileSys :=
  mkFileSys (fs_mkdir fs) (fs_exists fs)
    (fun p =>
       if decide (p = root)
       then match fs_readdir fs p with
            | Returns entries => Returns (filter (fun x => x ≠ d) entries)
            | Throws e => Throws e
            end
       else fs_readdir fs p)
    (fs_isdir fs) (fs_readfile fs).

(** The disk [fs] with the file at path [p] deleted. *)
Definition delete_file (fs : FileSys) (p : string) : FileSys :=
  mkFileSys (fs_mkdir fs)
    (fun q => if decide (q = p) then false else fs_exists fs q)
    (fs_readdir fs) (fs_isdir fs)
    (fun q => if decide (q = p) then Throws "ENOENT: no such file or directory" else fs_readfile fs q).

(** The run [tr] did nothing about migration [d]: no announcement, no
    execution, no INSERT, no error. *)
Definition untouched (d : string) (tr : list Event) : Prop :=
  (d ∉ executed tr) ∧ (d ∉ announced tr) ∧ (d ∉ insert_attempts tr) ∧ (d ∉ recorded tr) ∧
  ∀ cause, ((d, cause) ∉ failures tr) ∧ (MsgFailed d cause ∉ console_errors tr).

(** The disk [fs'] is the disk of [s] as far as [migrate] can tell, except
    possibly for the scripts of migrations that are in the applied set. *)
Definition same_but_applied_scripts (pgliteDir : string) (s : State udb) (fs' : FileSys) : Prop :=
  let fs := st_fs s in
  let root := resolve_root fs (st_cwd s) (st_execPath s) in
  fs_mkdir fs' pgliteDir = fs_mkdir fs pgliteDir ∧
  (∀ c, c ∈ candidates (st_cwd s) (st_execPath s) → exists_path fs' c = exists_path fs c) ∧
  (∀ p, fs_readdir fs' p = fs_readdir fs p) ∧
  (∀ p, fs_isdir fs' p = fs_isdir fs p) ∧
  ∀ d, d ∉ applied_set (st_pg s) →
       has_script fs' root d = has_script fs root d ∧
       fs_readfile fs' (script_path root d) = fs_readfile fs (script_path root d).

(** Queries for the applied names issued in a run. *)
Definition applied_queries (tr : list Event) : list Event :=
  filter (fun e => e = SelectApplied) tr.

(** Ids passed to the INSERT, accepted or not, in order. *)
Definition insert_ids (tr : list Event) : list string :=
  omap (fun e => match e with InsertRecord id _ _ => Some id | _ => None end) tr.

(** A row as the INSERT of line 90 writes it. *)
Definition engine_row (r : Row) : Prop :=
  finished_at r = Some (started_at r) ∧ applied_steps_count r = 1 ∧ logs r = None.

(** The two key constraints of the table. *)
Definition unique_keys (rows : list Row) : Prop :=
  NoDup (migration_name <$> rows) ∧ NoDup (row_id <$> rows).

(** The rows of the tracking table, none when the table does not exist. *)
Definition rows_of (db : Store udb) : list Row := default [] (tracking db).

(** The strict order of JavaScript strings, by UTF-16 code units. *)
Definition name_lt (a b : string) : Prop := lexico (utf16 a) (utf16 b).

(** The strict byte-wise order. *)
Definition byte_lt (a b : string) : Prop := lexico (bytes a) (bytes b).

(** A name made of ASCII characters only. *)
Definition ascii_name (a : string) : Prop := Forall (λ b, (b < 128)%N) (bytes a).

#[global] Instance name_lt_dec a b : Decision (name_lt a b).
Proof. unfold name_lt. apply _. Defined.
#[global] Instance byte_lt_dec a b : Decision (byte_lt a b).
Proof. unfold byte_lt. apply _. Defined.
#[global] Instance ascii_name_dec a : Decision (ascii_name a).
Proof. unfold ascii_name. apply _. Defined.

End Program.

(** ** A concrete host and disk, for examples *)

Fixpoint drop_to_slash (s : string) : string :=
  match s with
  | EmptyString => EmptyString
  | String c s' => if Ascii.eqb c "/"%char then s' else drop_to_slash s'
  end.

(** [path.join] as far as the paths of the examples need it: the parts
    joined by [/], without the [./] a relative path may start with (no
    [..], no empty part, no doubled or trailing slash occurs here). *)
Definition demo_path_join (parts : list string) : string :=
  match String.concat "/" parts with
  | String "." (String "/" rest) => rest
  | joined => joined
  end.

(** The database besides the tracking table is the list of scripts that ran
    to their end; the script [SELECT 1/0;] fails and any other succeeds. *)
#[local] Instance demo_host : Host := {|
  udb := list string;
  run_script sql db :=
    if decide (sql = "SELECT 1/0;") then (db, Some "division by zero")
    else (mkStore (tracking db) (userdb db ++ [sql]), None);
  pg_now db := length (userdb db);
  path_join := demo_path_join;
  path_dirname p := String.rev (drop_to_slash (String.rev p));
  random_uuid n := "uuid-" +:+ pretty n;
  server_main s := (s, Ok tt)
|}.

Inductive Node :=
| NFile (content : string)
| NDir (entries : list string).

Definition disk (nodes : list (string * Node)) : FileSys :=
  let m : gmap string Node := list_to_map nodes in
  {| fs_mkdir p := match m !! p with Some (NFile _) => Some "EEXIST" | _ => None end;
     fs_exists p := bool_decide (is_Some (m !! p));
     fs_readdir p :=
       match m !! p with
       | Some (NDir entries) => Returns entries
       | Some (NFile _) => Throws "ENOTDIR"
       | None => Throws "ENOENT"
       end;
     fs_isdir p :=
       match m !! p with
       | Some (NDir _) => Returns true
       | Some (NFile _) => Returns false
       | None => Throws "ENOENT"
       end;
     fs_readfile p :=
       match m !! p with
       | Some (NFile content) => Returns content
       | Some (NDir _) => Throws "EISDIR"
       | None => Throws "ENOENT"
       end |}.

Definition demo_root : string := "/srv/happy/prisma/migrations".

Definition demo_disk : FileSys := disk
  [ (demo_root, NDir ["0010_later"; "migration_lock.toml"; "0001_init"; "0002_add_index"; "drafts"]);
    (demo_root +:+ "/migration_lock.toml", NFile "provider = postgresql");
    (demo_root +:+ "/drafts", NDir []);
    (demo_root +:+ "/0001_init", NDir ["migration.sql"]);
    (demo_root +:+ "/0001_init/migration.sql", NFile "CREATE TABLE account (id TEXT);");
    (demo_root +:+ "/0002_add_index", NDir ["migration.sql"]);
    (demo_root +:+ "/0002_add_index/migration.sql", NFile "CREATE INDEX account_id ON account (id);");
    (demo_root +:+ "/0010_later", NDir ["migration.sql"]);
    (demo_root +:+ "/0010_later/migration.sql", NFile "ALTER TABLE account ADD COLUMN name TEXT;") ].

Definition demo_state (argv : list string) (fs : FileSys) (db : Store (list string)) : State (list string) :=
  mkState argv "/srv/happy" "/usr/local/bin/node"
          {[ "DATA_DIR" := "/data"; "PGLITE_DIR" := "/data/pglite" ]} fs db 0 [].

Definition fresh_db : Store (list string) := mkStore None [].


Definition demo_argv : list string := ["node"; "standalone.ts"; "migrate"].

(** A first deployment: the disk above and an empty data directory. *)
Definition demo_fresh : State (list string) := demo_state demo_argv demo_disk fresh_db.

(** The same disk with a second migration that cannot succeed. *)
Definition failing_disk : FileSys := disk
  [ (demo_root, NDir ["0010_later"; "0002_add_index"; "0001_init"]);
    (demo_root +:+ "/0001_init", NDir ["migration.sql"]);
    (demo_root +:+ "/0001_init/migration.sql", NFile "CREATE TABLE account (id TEXT);");
    (demo_root +:+ "/0002_add_index", NDir ["migration.sql"]);
    (demo_root +:+ "/0002_add_index/migration.sql", NFile "SELECT 1/0;");
    (demo_root +:+ "/0010_later", NDir ["migration.sql"]);
    (demo_root +:+ "/0010_later/migration.sql", NFile "ALTER TABLE account ADD COLUMN name TEXT;") ].

Definition demo_failing : State (list string) := demo_state demo_argv failing_disk fresh_db.

(** A disk without any [prisma/migrations] directory. *)
Definition empty_disk : FileSys := disk [].

(** A store where [0001_init] is finished and [0002_add_index] was started
    and never finished. *)
Definition half_done_db : Store (list string) :=
  mkStore (Some [ mkRow "a1" "0001_init" (Some 7%nat) 7 1 None;
                  mkRow "a2" "0002_add_index" None 8 0 None ])
          ["CREATE TABLE account (id TEXT);"].

Definition demo_half_done : State (list string) := demo_state demo_argv demo_disk half_done_db.

(** A host whose first script writes into the tracking table itself: it
    marks [0002_add_index] as finished. *)
Definition tamper_host : Host := {|
  udb := list string;
  run_script sql db :=
    if decide (sql = "CREATE TABLE account (id TEXT);")
    then (mkStore ((fun rows => rows ++ [mkRow "manual" "0002_add_index" (Some 0%nat) 0 1 None])
                     <$> tracking db)
                  (userdb db ++ [sql]), None)
    else (mkStore (tracking db) (userdb db ++ [sql]), None);
  pg_now db := length (userdb db);
  path_join := demo_path_join;
  path_dirname p := String.rev (drop_to_slash (String.rev p));
  random_uuid n := "uuid-" +:+ pretty n;
  server_main s := (s, Ok tt)
|}.

(** A host where the script [DELETE FROM _prisma_migrations;] does what it
    says, and a disk whose second migration is that script. *)
Definition wiping_host : Host := {|
  udb := list string;
  run_script sql db :=
    if decide (sql = "DELETE FROM _prisma_migrations;")
    then (mkStore ((fun _ => []) <$> tracking db) (userdb db ++ [sql]), None)
    else (mkStore (tracking db) (userdb db ++ [sql]), None);
  pg_now db := length (userdb db);
  path_join := demo_path_join;
  path_dirname p := String.rev (drop_to_slash (String.rev p));
  random_uuid n := "uuid-" +:+ pretty n;
  server_main s := (s, Ok tt)
|}.

Definition wiping_disk : FileSys := disk
  [ (demo_root, NDir ["0001_init"; "0002_reset"]);
    (demo_root +:+ "/0001_init", NDir ["migration.sql"]);
    (demo_root +:+ "/0001_init/migration.sql", NFile "CREATE TABLE account (id TEXT);");
    (demo_root +:+ "/0002_reset", NDir ["migration.sql"]);
    (demo_root +:+ "/0002_reset/migration.sql", NFile "DELETE FROM _prisma_migrations;") ].

(** A process started as [serve] with [DATABASE_URL] set to the empty string
    and nothing else in its environment. *)
Definition demo_serve : State (list string) :=
  mkState ["node"; "standalone.ts"; "serve"] "/srv/happy" "/usr/local/bin/node"
          {[ "DATABASE_URL" := "" ]} demo_disk fresh_db 0 [].

(** The disk after somebody removed the script of [0001_init]. *)
Definition pruned_disk : FileSys :=
  delete_file demo_disk (demo_root +:+ "/0001_init/migration.sql").

(** A disk where the script of the second migration is a directory. *)
Definition unreadable_disk : FileSys := disk
  [ (demo_root, NDir ["0001_init"; "0002_add_index"; "0010_later"]);
    (demo_root +:+ "/0001_init", NDir ["migration.sql"]);
    (demo_root +:+ "/0001_init/migration.sql", NFile "CREATE TABLE account (id TEXT);");
    (demo_root +:+ "/0002_add_index", NDir ["migration.sql"]);
    (demo_root +:+ "/0002_add_index/migration.sql", NDir []);
    (demo_root +:+ "/0010_later", NDir ["migration.sql"]);
    (demo_root +:+ "/0010_later/migration.sql", NFile "ALTER TABLE account ADD COLUMN name TEXT;") ].

Definition demo_unreadable : State (list string) := demo_state demo_argv unreadable_disk fresh_db.

(** A disk with a migrations root under the working directory and another
    one beside the executable, with different contents; and the disk that
    has the second only. *)
Definition exec_root : string := "/usr/local/bin/prisma/migrations".

Definition two_roots_disk : FileSys := disk
  [ (demo_root, NDir ["0001_init"]);
    (demo_root +:+ "/0001_init", NDir ["migration.sql"]);
    (demo_root +:+ "/0001_init/migration.sql", NFile "CREATE TABLE account (id TEXT);");
    (exec_root, NDir ["0001_other"]);
    (exec_root +:+ "/0001_other", NDir ["migration.sql"]);
    (exec_root +:+ "/0001_other/migration.sql", NFile "CREATE TABLE other (id TEXT);") ].

Definition demo_two_roots : State (list string) := demo_state demo_argv two_roots_disk fresh_db.

Definition beside_exec_disk : FileSys := disk
  [ (exec_root, NDir ["0001_other"]);
    (exec_root +:+ "/0001_other", NDir ["migration.sql"]);
    (exec_root +:+ "/0001_other/migration.sql", NFile "CREATE TABLE other (id TEXT);") ].

Definition demo_beside_exec : State (list string) :=
  demo_state demo_argv beside_exec_disk fresh_db.

(** Two migrations with names outside ASCII.  The first name starts with
    U+FF5E (bytes EF BD 9E, one code unit FF5E), the second with U+1F600
    (bytes F0 9F 98 80, the code units D83D DE00). *)
Definition wide_disk : FileSys := disk
  [ (demo_root, NDir ["～_b"; "😀_a"]);
    (demo_root +:+ "/～_b", NDir ["migration.sql"]);
    (demo_root +:+ "/～_b/migration.sql", NFile "CREATE TABLE b (id TEXT);");
    (demo_root +:+ "/😀_a", NDir ["migration.sql"]);
    (demo_root +:+ "/😀_a/migration.sql", NFile "CREATE TABLE a (id TEXT);") ].

Definition demo_wide : State (list string) := demo_state demo_argv wide_disk fresh_db.

(** A host where one script writes the finished row of its own migration
    into the tracking table and then fails, and a disk whose second
    migration is that script. *)
Definition self_recording_sql : string :=
  "INSERT INTO _prisma_migrations (id, migration_name, finished_at) VALUES ('m2', '0002_add_index', now()); SELECT 1/0;".

Definition self_recording_host : Host := {|
  udb := list string;
  run_script sql db :=
    if decide (sql = self_recording_sql)
    then (mkStore ((fun rows => rows ++ [mkRow "m2" "0002_add_index" (Some 0%nat) 0 0 None])
                     <$> tracking db)
                  (userdb db), Some "division by zero")
    else (mkStore (tracking db) (userdb db ++ [sql]), None);
  pg_now db := length (userdb db);
  path_join := demo_path_join;
  path_dirname p := String.rev (drop_to_slash (String.rev p));
  random_uuid n := "uuid-" +:+ pretty n;
  server_main s := (s, Ok tt)
|}.

Definition self_recording_disk : FileSys := disk
  [ (demo_root, NDir ["0001_init"; "0002_add_index"; "0010_later"]);
    (demo_root +:+ "/0001_init", NDir ["migration.sql"]);
    (demo_root +:+ "/0001_init/migration.sql", NFile "CREATE TABLE account (id TEXT);");
    (demo_root +:+ "/0002_add_index", NDir ["migration.sql"]);
    (demo_root +:+ "/0002_add_index/migration.sql", NFile self_recording_sql);
    (demo_root +:+ "/0010_later", NDir ["migration.sql"]);
    (demo_root +:+ "/0010_later/migration.sql", NFile "ALTER TABLE account ADD COLUMN name TEXT;") ].

(** A disk whose migrations root lists a link that leads nowhere. *)
Definition dangling_disk : FileSys := disk
  [ (demo_root, NDir ["0001_init"; "latest"]);
    (demo_root +:+ "/0001_init", NDir ["migration.sql"]);
    (demo_root +:+ "/0001_init/migration.sql", NFile "CREATE TABLE account (id TEXT);") ].

Definition demo_dangling : State (list string) := demo_state demo_argv dangling_disk fresh_db.


(** ** Facts about the building blocks *)

Ltac munfold :=
  unfold console_log, console_error, createPGlite, pg_close,
    mkdirSync, existsSync, readdirSync, statSync_isDirectory, readFileSync,
    pg_ensure_table, pg_select_finished, pg_insert, pg_exec_script, randomUUID,
    emit, gets, set_env, try_catch, lift_try, process_exit, throw,
    mbind, M_bind, mret, M_ret in *.

Ltac same_trace Htr Htr0 :=
  rewrite Htr0 in Htr; apply app_inv_head in Htr; subst.

Section Facts.
Context `{Host}.

Lemma executed_app tr1 tr2 : executed (tr1 ++ tr2) = executed tr1 ++ executed tr2.
Proof. apply omap_app. Qed.
Lemma recorded_app tr1 tr2 : recorded (tr1 ++ tr2) = recorded tr1 ++ recorded tr2.
Proof. apply omap_app. Qed.
Lemma insert_attempts_app tr1 tr2 :
  insert_attempts (tr1 ++ tr2) = insert_attempts tr1 ++ insert_attempts tr2.
Proof. apply omap_app. Qed.
Lemma announced_app tr1 tr2 : announced (tr1 ++ tr2) = announced tr1 ++ announced tr2.
Proof. apply omap_app. Qed.
Lemma console_errors_app tr1 tr2 :
  console_errors (tr1 ++ tr2) = console_errors tr1 ++ console_errors tr2.
Proof. apply omap_app. Qed.

(** *** Sorting *)

Lemma bytes_inj a b : bytes a = bytes b → a = b.
Proof.
  revert b. induction a as [|c a IH]; intros [|d b]; simpl; try done.
  intros [= Hc Hab]. f_equal; [|by apply IH].
  by rewrite <-(ascii_N_embedding c), <-(ascii_N_embedding d), Hc.
Qed.

#[local] Instance js_le_trans : Transitive js_le.
Proof.
  intros a b c [->|Hab] [->|Hbc]; try (by left); try (by right).
  right. unfold js_before in *. by trans (utf16 b, bytes b).
Qed.

#[local] Instance js_le_total : Total js_le.
Proof.
  intros a b. unfold js_le, js_before.
  destruct (trichotomyT lexico (utf16 a, bytes a) (utf16 b, bytes b)) as [[Hlt|Heq]|Hgt];
    [by left; right| |by right; right].
  left; left. injection Heq as _ Hb. by apply bytes_inj.
Qed.

#[local] Instance js_le_antisym : AntiSymm (=) js_le.
Proof.
  intros a b [->|Hab] [Heq|Hba]; try done. exfalso.
  apply (irreflexivity lexico (utf16 a, bytes a)). unfold js_before in *.
  by trans (utf16 b, bytes b).
Qed.

Lemma js_sort_sorted l : StronglySorted js_le (js_sort l).
Proof. apply StronglySorted_merge_sort; apply _. Qed.

Lemma js_sort_perm l : js_sort l ≡ₚ l.
Proof. apply merge_sort_Permutation. Qed.

(** Whatever algorithm the engine runs, the sorted array is this one. *)
Lemma js_sort_unique l l' :
  StronglySorted js_le l' → l' ≡ₚ l → js_sort l = l'.
Proof.
  intros Hs Hp. apply (StronglySorted_unique js_le); auto using js_sort_sorted.
  by rewrite js_sort_perm.
Qed.

Lemma js_sort_permutation l1 l2 : l1 ≡ₚ l2 → js_sort l1 = js_sort l2.
Proof.
  intros Hp. apply js_sort_unique; [apply js_sort_sorted|].
  by rewrite js_sort_perm.
Qed.

Lemma le_ne_lt a b : js_le a b → utf16 a ≠ utf16 b → name_lt a b.
Proof. by intros [->|[Hlt|[Heq _]]] Hne. Qed.

Lemma strongly_sorted_strict l :
  NoDup (utf16 <$> l) → StronglySorted js_le l → StronglySorted name_lt l.
Proof.
  intros Hnd Hs. induction Hs as [|x l Hs IH Hx]; [constructor|].
  rewrite fmap_cons in Hnd. apply NoDup_cons in Hnd as [Hx' Hnd]. constructor; [auto|].
  rewrite Forall_forall in Hx |- *. intros y Hy.
  apply le_ne_lt; [auto|]. intros Heq. apply Hx'. rewrite Heq.
  by apply list_elem_of_fmap_2.
Qed.

Lemma js_sort_strict l : NoDup (utf16 <$> l) → StronglySorted name_lt (js_sort l).
Proof.
  intros Hnd. apply strongly_sorted_strict; [|apply js_sort_sorted].
  by rewrite js_sort_perm.
Qed.

(** On ASCII names the code units are the bytes. *)
Lemma utf16_ascii a : ascii_name a → utf16 a = bytes a.
Proof.
  unfold ascii_name, utf16.
  assert (Hdec : ∀ l, Forall (λ b, (b < 128)%N) l → utf8_decode l = l).
  { induction 1 as [|b l Hb _ IH]; [done|]. simpl.
    destruct (N.ltb_spec b 128) as [_|?]; [|lia]. by rewrite IH. }
  assert (Hunits : ∀ l, Forall (λ b, (b < 128)%N) l → l ≫= utf16_of_point = l).
  { induction 1 as [|b l Hb _ IH]; [done|].
    rewrite bind_cons, IH. unfold utf16_of_point.
    destruct (N.ltb_spec b 65536) as [_|?]; [done|lia]. }
  intros Hall. by rewrite Hdec, Hunits.
Qed.

Lemma strongly_sorted_filter {A} (R : relation A) (P : A → Prop) `{∀ x, Decision (P x)} l :
  StronglySorted R l → StronglySorted R (filter P l).
Proof.
  induction 1 as [|x l Hs IH Hx]; [constructor|].
  rewrite filter_cons. destruct (decide (P x)); [|done].
  constructor; [done|]. rewrite Forall_forall in Hx |- *.
  intros y Hy. apply Hx. by apply list_elem_of_filter in Hy as [_ ?].
Qed.

Lemma js_sort_filter (P : string → Prop) `{∀ x, Decision (P x)} l :
  js_sort (filter P l) = filter P (js_sort l).
Proof.
  apply js_sort_unique.
  - apply strongly_sorted_filter, js_sort_sorted.
  - by rewrite js_sort_perm.
Qed.

(** *** The loop *)

Lemma failures_app tr1 tr2 : failures (tr1 ++ tr2) = failures tr1 ++ failures tr2.
Proof. apply omap_app. Qed.

Lemma same_world_refl s : same_world s s.
Proof. by repeat split. Qed.

Lemma same_world_trans s1 s2 s3 : same_world s1 s2 → same_world s2 s3 → same_world s1 s3.
Proof. unfold same_world. intros (?&?&?&?&?) (?&?&?&?&?). repeat split; congruence. Qed.

Lemma insert_finished_ok id name db db' :
  insert_finished id name db = (db', None) →
  ∃ rows row, tracking db = Some rows ∧ tracking db' = Some (rows ++ [row]) ∧
    migration_name row = name ∧ row_id row = id ∧ finished row = true ∧
    userdb db' = userdb db ∧ (name ∉ migration_name <$> rows) ∧ (id ∉ row_id <$> rows).
Proof.
  unfold insert_finished. destruct (tracking db) as [rows|] eqn:E; [|done].
  repeat case_bool_decide; try done. intros [= <-].
  eexists _, _. repeat split; eauto.
Qed.

Lemma insert_finished_err id name db db' e :
  insert_finished id name db = (db', Some e) → db' = db.
Proof.
  unfold insert_finished. destruct (tracking db); repeat case_bool_decide; congruence.
Qed.

Lemma apply_loop_nil root applied count s :
  apply_loop root applied [] count s = (s, Ok count).
Proof. done. Qed.

Lemma apply_loop_skip root applied dir rest count s :
  ¬ ((dir ∉ applied) ∧ has_script (st_fs s) root dir = true) →
  apply_loop root applied (dir :: rest) count s = apply_loop root applied rest count s.
Proof.
  intros Hskip. simpl. case_bool_decide as Happ; [done|].
  munfold. fold (script_path root dir). fold (has_script (st_fs s) root dir).
  destruct (has_script (st_fs s) root dir); [tauto|done].
Qed.

Lemma apply_loop_attempt root applied dir rest count s :
  dir ∉ applied → has_script (st_fs s) root dir = true →
  apply_loop root applied (dir :: rest) count s =
  (apply_unit root dir count ≫= apply_loop root applied rest) s.
Proof.
  intros Happ Hscript. simpl. rewrite bool_decide_eq_false_2 by done.
  unfold apply_unit. munfold. fold (script_path root dir).
  fold (has_script (st_fs s) root dir). rewrite Hscript. simpl.
  destruct (fs_readfile (st_fs s) (script_path root dir)); simpl; [|done].
  destruct (run_script a (st_pg s)) as [db [e|]]; simpl; [done|].
  destruct (insert_finished _ _ _) as [db' [e|]]; simpl; done.
Qed.

Lemma apply_unit_spec root applied dir count s s' r :
  dir ∉ applied → has_script (st_fs s) root dir = true →
  apply_unit root dir count s = (s', r) →
  ∃ tr, st_trace s' = st_trace s ++ tr ∧ same_world s s' ∧
        loop_outcome (st_fs s) root applied [dir] count tr r ∧
        (scripts_keep_tracking → rows_added (st_pg s) (st_pg s') (recorded tr)).
Proof.
  intros Happ Hscript. unfold apply_unit, loop_outcome, pending. munfold.
  rewrite filter_cons, decide_True, filter_nil by done. simpl.
  destruct (fs_readfile (st_fs s) (script_path root dir)) as [sql|e] eqn:Hread; simpl.
  2:{ intros [= <- <-]. eexists. split; [done|]. split; [by repeat split|].
      split; [|intros _ rows Hrows; exists []; by rewrite app_nil_r].
      exists [], dir, []. done. }
  destruct (run_script sql (st_pg s)) as [db [e|]] eqn:Hexec; simpl.
  { intros [= <- <-]. eexists. simpl. rewrite <-!app_assoc. split; [done|].
    split; [by repeat split|]. split.
    - split; [done|]. exists [], dir, [], e. repeat split; auto.
    - intros Hkeep rows Hrows. exists []. rewrite app_nil_r. simpl.
      specialize (Hkeep sql (st_pg s)). rewrite Hexec in Hkeep. simpl in Hkeep.
      split; [congruence|done]. }
  destruct (insert_finished _ _ _) as [db' [e|]] eqn:Hins; simpl.
  { intros [= <- <-]. eexists. simpl. rewrite <-!app_assoc. split; [done|].
    split; [by repeat split|]. split.
    - split; [done|]. exists [], dir, [], e. repeat split; auto.
    - intros Hkeep rows Hrows. exists []. rewrite app_nil_r. simpl.
      apply insert_finished_err in Hins as ->.
      specialize (Hkeep sql (st_pg s)). rewrite Hexec in Hkeep. simpl in Hkeep.
      split; [congruence|done]. }
  intros [= <- <-]. eexists. simpl. rewrite <-!app_assoc. split; [done|].
  split; [by repeat split|]. split.
  - repeat split; auto. lia.
  - intros Hkeep rows Hrows. simpl.
    apply insert_finished_ok in Hins as (rows' & row & Hr1 & Hr2 & Hname & _ & Hfin & _).
    specialize (Hkeep sql (st_pg s)). rewrite Hexec in Hkeep. simpl in Hkeep.
    exists [row]. rewrite Hr2. split; [congruence|]. split; [by rewrite <-Hname|].
    by constructor.
Qed.

Lemma pending_app fs root applied l1 l2 :
  pending fs root applied (l1 ++ l2) = pending fs root applied l1 ++ pending fs root applied l2.
Proof. apply filter_app. Qed.

Lemma rows_added_trans db1 db2 db3 n1 n2 :
  rows_added db1 db2 n1 → rows_added db2 db3 n2 → rows_added db1 db3 (n1 ++ n2).
Proof.
  intros H1 H2 rows Hrows.
  destruct (H1 rows Hrows) as (new1 & Ht1 & Hn1 & Hf1).
  destruct (H2 _ Ht1) as (new2 & Ht2 & Hn2 & Hf2).
  exists (new1 ++ new2). rewrite app_assoc, fmap_app, Hn1, Hn2.
  split; [done|]. split; [done|]. by apply Forall_app.
Qed.

(** A pass that stops early stops the whole loop. *)
Lemma loop_outcome_stop fs root applied l1 l2 count tr r :
  (∀ c, r ≠ Ok c) →
  loop_outcome fs root applied l1 count tr r →
  loop_outcome fs root applied (l1 ++ l2) count tr r.
Proof.
  unfold loop_outcome. rewrite pending_app. destruct r as [c|e|code]; intros Hr.
  - by destruct (Hr c).
  - intros (done & d & later & -> & Hrest).
    exists done, d, (later ++ pending fs root applied l2).
    by rewrite <-app_assoc.
  - intros (-> & done & d & later & cause & -> & Hrest). split; [done|].
    exists done, d, (later ++ pending fs root applied l2), cause.
    by rewrite <-app_assoc.
Qed.

(** A pass that ends with its counter is continued by the next one. *)
Lemma loop_outcome_seq fs root applied l1 l2 count count1 tr1 tr2 r :
  loop_outcome fs root applied l1 count tr1 (Ok count1) →
  loop_outcome fs root applied l2 count1 tr2 r →
  loop_outcome fs root applied (l1 ++ l2) count (tr1 ++ tr2) r.
Proof.
  unfold loop_outcome. rewrite pending_app.
  rewrite executed_app, recorded_app, announced_app, insert_attempts_app,
    failures_app, console_errors_app.
  intros (-> & -> & -> & -> & -> & -> & ->). destruct r as [c|e|code].
  - intros (-> & -> & -> & -> & -> & -> & ->). rewrite length_app.
    repeat split; auto. lia.
  - intros (done & d & later & -> & -> & -> & -> & -> & -> & -> & Hread).
    exists (pending fs root applied l1 ++ done), d, later.
    rewrite <-!app_assoc. done.
  - intros (-> & done & d & later & cause & -> & -> & -> & -> & -> & -> & Hlast & Hins).
    split; [done|]. exists (pending fs root applied l1 ++ done), d, later, cause.
    rewrite <-!app_assoc. repeat split; auto.
    + rewrite last_app, Hlast. done.
    + destruct Hins as [-> | ->]; auto.
Qed.

Lemma apply_loop_spec root applied dirs : ∀ count s s' r,
  apply_loop root applied dirs count s = (s', r) →
  ∃ tr, st_trace s' = st_trace s ++ tr ∧ same_world s s' ∧
        loop_outcome (st_fs s) root applied dirs count tr r ∧
        (scripts_keep_tracking → rows_added (st_pg s) (st_pg s') (recorded tr)).
Proof.
  induction dirs as [|dir rest IH]; intros count s s' r Hrun.
  { injection Hrun as <- <-. exists []. rewrite app_nil_r.
    split; [done|]. split; [apply same_world_refl|]. split.
    - red. simpl. repeat split; auto.
    - intros _ rows Hrows. exists []. by rewrite app_nil_r. }
  destruct (decide ((dir ∉ applied) ∧ has_script (st_fs s) root dir = true))
    as [[Happ Hscript]|Hskip].
  2:{ rewrite apply_loop_skip in Hrun by done.
      apply IH in Hrun as (tr & Htr & Hw & Hout & Hrows). exists tr.
      split; [done|]. split; [done|]. split; [|done].
      unfold loop_outcome, pending in *. by rewrite filter_cons, decide_False. }
  rewrite apply_loop_attempt in Hrun by done.
  unfold mbind, M_bind in Hrun.
  destruct (apply_unit root dir count s) as [s1 r1] eqn:Hunit.
  apply (apply_unit_spec _ applied) in Hunit as (tr1 & Htr1 & Hw1 & Hout1 & Hrows1); try done.
  destruct r1 as [count1|e|code].
  - apply IH in Hrun as (tr2 & Htr2 & Hw2 & Hout2 & Hrows2).
    exists (tr1 ++ tr2). split; [by rewrite Htr2, Htr1, app_assoc|].
    split; [by eapply same_world_trans|]. split.
    + replace (st_fs s1) with (st_fs s) in Hout2 by (symmetry; apply Hw1).
      apply (loop_outcome_seq _ _ _ [dir] rest _ _ _ _ _ Hout1 Hout2).
    + intros Hkeep. rewrite recorded_app. eapply rows_added_trans; eauto.
  - injection Hrun as <- <-. exists tr1. split; [done|]. split; [done|]. split; [|done].
    by apply (loop_outcome_stop _ _ _ [dir] rest).
  - injection Hrun as <- <-. exists tr1. split; [done|]. split; [done|]. split; [|done].
    by apply (loop_outcome_stop _ _ _ [dir] rest).
Qed.

(** *** The steps before the loop *)

Lemma find_candidate_pure cs s :
  find_candidate cs s =
  (s, Ok (default "" (head (filter (fun c => exists_path (st_fs s) c = true) cs)))).
Proof.
  induction cs as [|c cs IH]; [done|]. simpl. munfold.
  fold (exists_path (st_fs s) c). rewrite filter_cons.
  destruct (exists_path (st_fs s) c) eqn:E.
  - by rewrite decide_True.
  - by rewrite decide_False, IH.
Qed.

Lemma filter_dirs_pure root entries s :
  filter_dirs root entries s = lift_try (stat_entries (st_fs s) root entries) s.
Proof.
  induction entries as [|d rest IH]; [done|]. simpl. munfold.
  destruct (fs_isdir (st_fs s) (path_join [root; d])) as [b|e]; [|done].
  simpl. rewrite IH. by destruct (stat_entries (st_fs s) root rest).
Qed.

Lemma stat_entries_returns fs root entries ds :
  stat_entries fs root entries = Returns ds →
  ds = filter (is_directory fs root) entries.
Proof.
  revert ds. induction entries as [|d rest IH]; intros ds; simpl.
  - by intros [= <-].
  - rewrite filter_cons.
    destruct (fs_isdir fs (path_join [root; d])) as [b|e] eqn:E; [|done].
    destruct (stat_entries fs root rest) as [ds'|e]; [|done].
    intros [= <-]. rewrite (IH ds' eq_refl).
    destruct b.
    + by rewrite decide_True.
    + rewrite decide_False; [done|]. unfold is_directory. by rewrite E.
Qed.

Lemma list_dirs_returns fs root dirs :
  list_dirs fs root = Returns dirs →
  ∃ entries, fs_readdir fs root = Returns entries ∧ dirs = discovered fs root entries.
Proof.
  unfold list_dirs, discovered. destruct (fs_readdir fs root) as [entries|e]; [|done].
  destruct (stat_entries fs root entries) as [ds|e] eqn:E; [|done].
  intros [= <-]. exists entries. split; [done|].
  by apply stat_entries_returns in E as ->.
Qed.

Lemma applied_set_ensure_table db : applied_set (ensure_table db) = applied_set db.
Proof.
  unfold applied_set, finished_names, ensure_table.
  destruct (tracking db) eqn:E; simpl; by rewrite ?E.
Qed.

Lemma select_finished_ensure_table db :
  select_finished (ensure_table db) = Returns (finished_names db).
Proof.
  unfold select_finished, finished_names, ensure_table.
  destruct (tracking db) eqn:E; simpl; by rewrite ?E.
Qed.

#[local] Arguments find_candidate : simpl never.
#[local] Arguments filter_dirs : simpl never.
#[local] Arguments apply_loop : simpl never.
#[local] Arguments stat_entries : simpl never.

(** [migrate], stage by stage. *)
Lemma migrate_unfold pgliteDir s :
  migrate pgliteDir s =
  let s0 := with_trace s (st_trace s ++ [ConsoleLog (MsgMigrating pgliteDir)]) in
  let s1 := with_trace (with_pg s (ensure_table (st_pg s)))
              (st_trace s ++ [ConsoleLog (MsgMigrating pgliteDir); OpenStore pgliteDir; EnsureTable]) in
  match startup pgliteDir s with
  | MkdirFails e => (s0, Throw e)
  | NoRoot => (with_trace s1 (st_trace s1 ++ [ConsoleError MsgNoRoot]), Exit 1)
  | ListingFails _ e => (s1, Throw e)
  | Ready root dirs =>
      let s2 := with_trace s1 (st_trace s1 ++ [SelectApplied]) in
      let '(s3, lr) := apply_loop root (applied_set (st_pg s)) dirs 0 s2 in
      (with_trace s3 (st_trace s3 ++ closing lr), forget lr)
  end.
Proof.
  unfold migrate, startup. munfold. simpl.
  destruct (fs_mkdir (st_fs s) pgliteDir) as [e|]; [done|]. simpl.
  rewrite <-!app_assoc. simpl.
  rewrite find_candidate_pure. simpl.
  fold (candidates (st_cwd s) (st_execPath s)).
  fold (resolve_root (st_fs s) (st_cwd s) (st_execPath s)).
  destruct (decide (resolve_root (st_fs s) (st_cwd s) (st_execPath s) = "")) as [E|E].
  { simpl. by rewrite <-!app_assoc. }
  simpl. unfold list_dirs.
  destruct (fs_readdir (st_fs s) _) as [entries|e]; [|done]. simpl.
  rewrite filter_dirs_pure. simpl.
  destruct (stat_entries (st_fs s) _ entries) as [ds|e]; [|done]. simpl.
  rewrite select_finished_ensure_table. simpl. rewrite <-!app_assoc. simpl.
  fold (applied_set (st_pg s)).
  destruct (apply_loop _ _ _ _ _) as [s3 [n|e|code]]; simpl.
  - unfold report. destruct (decide (n = 0%nat)); simpl; by rewrite <-?app_assoc.
  - destruct s3; unfold with_trace; simpl. by rewrite app_nil_r.
  - destruct s3; unfold with_trace; simpl. by rewrite app_nil_r.
Qed.

Lemma migrate_run pgliteDir s s' r :
  migrate pgliteDir s = (s', r) →
  ∃ tr, st_trace s' = st_trace s ++ tr ∧ same_world s s' ∧
        migrate_outcome pgliteDir s s' tr r.
Proof.
  rewrite migrate_unfold. unfold migrate_outcome. simpl.
  destruct (startup pgliteDir s) as [e| |root e|root dirs].
  - intros [= <- <-]. eexists. split; [done|]. by repeat split.
  - intros [= <- <-]. eexists. simpl. rewrite <-app_assoc. split; [done|]. by repeat split.
  - intros [= <- <-]. eexists. split; [done|]. by repeat split.
  - destruct (apply_loop _ _ _ _ _) as [s3 lr] eqn:Hloop. intros [= <- <-].
    apply apply_loop_spec in Hloop as (ltr & Htr & Hw & Hout & Hrows).
    exists (prologue pgliteDir ++ ltr ++ closing lr). simpl in *. split.
    { rewrite Htr, <-!app_assoc. done. }
    split; [apply Hw|]. exists ltr, lr. done.
Qed.

(** The events around the loop touch no migration. *)
Lemma executed_around p ltr lr : executed (prologue p ++ ltr ++ closing lr) = executed ltr.
Proof. rewrite !executed_app. destruct lr; simpl; by rewrite ?app_nil_r. Qed.
Lemma recorded_around p ltr lr : recorded (prologue p ++ ltr ++ closing lr) = recorded ltr.
Proof. rewrite !recorded_app. destruct lr; simpl; by rewrite ?app_nil_r. Qed.
Lemma announced_around p ltr lr : announced (prologue p ++ ltr ++ closing lr) = announced ltr.
Proof.
  rewrite !announced_app. destruct lr as [n| |]; simpl; rewrite ?app_nil_r; try done.
  unfold report. by destruct (decide (n = 0%nat)); simpl; rewrite app_nil_r.
Qed.
Lemma insert_attempts_around p ltr lr :
  insert_attempts (prologue p ++ ltr ++ closing lr) = insert_attempts ltr.
Proof. rewrite !insert_attempts_app. destruct lr; simpl; by rewrite ?app_nil_r. Qed.
Lemma failures_around p ltr lr : failures (prologue p ++ ltr ++ closing lr) = failures ltr.
Proof. rewrite !failures_app. destruct lr; simpl; by rewrite ?app_nil_r. Qed.
Lemma console_errors_around p ltr lr :
  console_errors (prologue p ++ ltr ++ closing lr) = console_errors ltr.
Proof. rewrite !console_errors_app. destruct lr; simpl; by rewrite ?app_nil_r. Qed.

(** Whatever happens, a run only touches migrations of its to-do list, in
    the order of that list. *)
Lemma run_within_todo pgliteDir s s' r tr :
  migrate pgliteDir s = (s', r) → st_trace s' = st_trace s ++ tr →
  executed tr `prefix_of` todo pgliteDir s ∧
  announced tr `prefix_of` todo pgliteDir s ∧
  recorded tr `prefix_of` todo pgliteDir s ∧
  insert_attempts tr `prefix_of` todo pgliteDir s ∧
  (∀ d cause, (d, cause) ∈ failures tr → d ∈ todo pgliteDir s) ∧
  (∀ d cause, MsgFailed d cause ∈ console_errors tr → d ∈ todo pgliteDir s).
Proof.
  intros Hrun Htr. apply migrate_run in Hrun as (tr0 & Htr0 & Hw & Hout).
  same_trace Htr Htr0. unfold migrate_outcome, todo in *.
  destruct (startup pgliteDir s) as [e| |root e|root dirs].
  - destruct Hout as (-> & -> & _). simpl. repeat split; try apply prefix_nil; by intros ?? ?%elem_of_nil.
  - destruct Hout as (-> & -> & _). simpl. repeat split; try apply prefix_nil.
    + by intros ?? ?%elem_of_nil.
    + by intros ?? ?%list_elem_of_singleton.
  - destruct Hout as (-> & -> & _). simpl. repeat split; try apply prefix_nil; by intros ?? ?%elem_of_nil.
  - destruct Hout as (ltr & lr & -> & -> & Hout & _).
    rewrite executed_around, announced_around, recorded_around, insert_attempts_around,
      failures_around, console_errors_around.
    unfold loop_outcome in Hout. destruct lr as [n|e|code].
    + destruct Hout as (-> & -> & -> & -> & -> & -> & _).
      repeat split; try done; by intros ?? ?%elem_of_nil.
    + destruct Hout as (done & d & later & -> & -> & -> & -> & -> & -> & -> & _).
      repeat split; try (by intros ?? ?%elem_of_nil).
      * by eexists.
      * exists later. by rewrite <-app_assoc.
      * by eexists.
      * by eexists.
    + destruct Hout as (_ & done & d & later & cause & -> & -> & -> & -> & -> & -> & _ & Hins).
      repeat split.
      * exists later. by rewrite <-app_assoc.
      * exists later. by rewrite <-app_assoc.
      * by eexists.
      * destruct Hins as [-> | ->]; [by eexists|]. exists later. by rewrite <-app_assoc.
      * intros d' c' [= -> ->]%list_elem_of_singleton.
        rewrite elem_of_app, elem_of_cons. auto.
      * intros d' c' [= -> ->]%list_elem_of_singleton.
        rewrite elem_of_app, elem_of_cons. auto.
Qed.

Lemma todo_not_applied pgliteDir s d : d ∈ todo pgliteDir s → d ∉ applied_set (st_pg s).
Proof.
  unfold todo. destruct (startup pgliteDir s); try by intros ?%elem_of_nil.
  unfold pending. by intros [[? _] _]%list_elem_of_filter.
Qed.

(** *** Runs in front of two disks *)

Lemma apply_unit_with_fs root dir count s fs' :
  fs_readfile fs' (script_path root dir) = fs_readfile (st_fs s) (script_path root dir) →
  apply_unit root dir count (with_fs s fs') =
  let '(s1, r) := apply_unit root dir count s in (with_fs s1 fs', r).
Proof.
  intros Hread. unfold apply_unit. munfold. simpl. rewrite Hread.
  destruct (fs_readfile (st_fs s) (script_path root dir)) as [sql|e]; simpl; [|done].
  destruct (run_script sql (st_pg s)) as [db [e|]]; simpl; [done|].
  destruct (insert_finished _ _ _) as [db' [e|]]; simpl; done.
Qed.

Lemma apply_unit_same_world root dir count s s' r :
  apply_unit root dir count s = (s', r) → same_world s s'.
Proof.
  unfold apply_unit. munfold. simpl.
  destruct (fs_readfile (st_fs s) (script_path root dir)) as [sql|e]; simpl.
  2:{ by intros [= <- <-]. }
  destruct (run_script sql (st_pg s)) as [db [e|]]; simpl.
  { by intros [= <- <-]. }
  destruct (insert_finished _ _ _) as [db' [e|]]; simpl; by intros [= <- <-].
Qed.

(** The loop only asks the disk for the scripts of migrations that are not
    in the applied set. *)
Lemma apply_loop_with_fs root applied fs' dirs : ∀ count s,
  (∀ d, d ∈ dirs → d ∉ applied →
     has_script fs' root d = has_script (st_fs s) root d ∧
     (has_script (st_fs s) root d = true →
      fs_readfile fs' (script_path root d) = fs_readfile (st_fs s) (script_path root d))) →
  apply_loop root applied dirs count (with_fs s fs') =
  let '(s1, r) := apply_loop root applied dirs count s in (with_fs s1 fs', r).
Proof.
  induction dirs as [|dir rest IH]; intros count s Hagree; [done|].
  assert (Hrest : ∀ s1 : State udb, st_fs s1 = st_fs s →
    ∀ d, d ∈ rest → d ∉ applied →
     has_script fs' root d = has_script (st_fs s1) root d ∧
     (has_script (st_fs s1) root d = true →
      fs_readfile fs' (script_path root d) = fs_readfile (st_fs s1) (script_path root d))).
  { intros s1 -> d Hd. apply Hagree. by right. }
  destruct (decide ((dir ∉ applied) ∧ has_script (st_fs s) root dir = true))
    as [[Happ Hscript]|Hskip].
  - destruct (Hagree dir) as [Hs Hr]; [by left|done|].
    rewrite (apply_loop_attempt _ _ _ _ _ s) by done.
    rewrite apply_loop_attempt by (simpl; congruence).
    unfold mbind, M_bind. rewrite apply_unit_with_fs by auto.
    destruct (apply_unit root dir count s) as [s1 [c1|e|code]] eqn:Hunit; try done.
    apply IH, Hrest. by apply apply_unit_same_world in Hunit as (_&_&_&_&?).
  - rewrite (apply_loop_skip _ _ _ _ _ s) by done.
    rewrite apply_loop_skip; [by apply IH, Hrest|]. simpl.
    intros [Happ Hscript]. apply Hskip. split; [done|].
    destruct (Hagree dir) as [Hs _]; [by left|done|]. congruence.
Qed.

(** Entries the loop would skip may as well be absent. *)
Lemma apply_loop_drop_skipped root applied d dirs : ∀ count s,
  ¬ ((d ∉ applied) ∧ has_script (st_fs s) root d = true) →
  apply_loop root applied (filter (fun x => x ≠ d) dirs) count s =
  apply_loop root applied dirs count s.
Proof.
  induction dirs as [|dir rest IH]; intros count s Hskip; [done|].
  rewrite filter_cons. destruct (decide (dir ≠ d)) as [Hne|Heq].
  - destruct (decide ((dir ∉ applied) ∧ has_script (st_fs s) root dir = true))
      as [[Happ Hscript]|Hskip'].
    + rewrite !apply_loop_attempt by done. unfold mbind, M_bind.
      destruct (apply_unit root dir count s) as [s1 [c1|e|code]] eqn:Hunit; try done.
      apply IH. apply apply_unit_same_world in Hunit as (_&_&_&_&->). done.
    + rewrite !apply_loop_skip by done. by apply IH.
  - apply dec_stable in Heq as ->. rewrite (apply_loop_skip _ _ d) by done. by apply IH.
Qed.

Lemma migrate_with_fs pgliteDir s fs' :
  let fs := st_fs s in
  let root := resolve_root fs (st_cwd s) (st_execPath s) in
  let applied := applied_set (st_pg s) in
  fs_mkdir fs' pgliteDir = fs_mkdir fs pgliteDir →
  resolve_root fs' (st_cwd s) (st_execPath s) = root →
  match list_dirs fs root with
  | Throws e => list_dirs fs' root = Throws e
  | Returns dirs =>
      ∃ dirs', list_dirs fs' root = Returns dirs' ∧
        (∀ count (s0 : State udb), st_fs s0 = fs →
           apply_loop root applied dirs' count s0 = apply_loop root applied dirs count s0) ∧
        (∀ d, d ∈ dirs' → d ∉ applied →
           has_script fs' root d = has_script fs root d ∧
           (has_script fs root d = true →
            fs_readfile fs' (script_path root d) = fs_readfile fs (script_path root d)))
  end →
  migrate pgliteDir (with_fs s fs') =
  let '(s1, r) := migrate pgliteDir s in (with_fs s1 fs', r).
Proof.
  intros fs root applied Hmk Hroot Hdirs. rewrite !migrate_unfold. unfold startup. simpl.
  rewrite Hmk. fold fs. destruct (fs_mkdir fs pgliteDir) as [e|]; [done|].
  rewrite Hroot. fold root. destruct (decide (root = "")); [done|].
  destruct (list_dirs fs root) as [dirs|e].
  2:{ by rewrite Hdirs. }
  destruct Hdirs as (dirs' & -> & Hloop & Hagree). fold applied.
  pose (s1 := with_trace (with_pg s (ensure_table (st_pg s)))
    (st_trace s ++ [ConsoleLog (MsgMigrating pgliteDir); OpenStore pgliteDir; EnsureTable])).
  pose (s2 := with_trace s1 (st_trace s1 ++ [SelectApplied])).
  pose proof (apply_loop_with_fs root applied fs' dirs' 0 s2 Hagree) as Hsim.
  rewrite (Hloop 0%nat s2 eq_refl) in Hsim.
  change (apply_loop root applied dirs' 0 _) with (apply_loop root applied dirs' 0 (with_fs s2 fs')).
  change (apply_loop root applied dirs 0 _) with (apply_loop root applied dirs 0 s2).
  rewrite Hsim. by destruct (apply_loop root applied dirs 0 s2) as [s3 lr].
Qed.

Lemma stat_entries_ext fs fs' root entries :
  (∀ p, fs_isdir fs' p = fs_isdir fs p) →
  stat_entries fs' root entries = stat_entries fs root entries.
Proof.
  intros Hst. induction entries as [|d rest IH]; [done|].
  unfold stat_entries; fold stat_entries. by rewrite Hst, IH.
Qed.

Lemma list_dirs_ext fs fs' root :
  (∀ p, fs_readdir fs' p = fs_readdir fs p) →
  (∀ p, fs_isdir fs' p = fs_isdir fs p) →
  list_dirs fs' root = list_dirs fs root.
Proof.
  intros Hrd Hst. unfold list_dirs. rewrite Hrd.
  destruct (fs_readdir fs root); [|done]. by rewrite (stat_entries_ext fs fs').
Qed.

Lemma stat_entries_hide fs root d b entries :
  fs_isdir fs (path_join [root; d]) = Returns b →
  stat_entries fs root (filter (fun x => x ≠ d) entries) =
  match stat_entries fs root entries with
  | Returns ds => Returns (filter (fun x => x ≠ d) ds)
  | Throws e => Throws e
  end.
Proof.
  intros Hd. induction entries as [|x rest IH]; [done|].
  rewrite filter_cons. unfold stat_entries; fold stat_entries.
  destruct (decide (x ≠ d)) as [Hne|Heq].
  - unfold stat_entries; fold stat_entries. rewrite IH.
    destruct (fs_isdir fs (path_join [root; x])) as [isdir|e]; [|done].
    destruct (stat_entries fs root rest) as [ds|e]; [|done].
    destruct isdir; [|done]. by rewrite filter_cons, decide_True.
  - apply dec_stable in Heq as ->. rewrite IH, Hd.
    destruct (stat_entries fs root rest) as [ds|e]; [|done].
    destruct b; [|done]. by rewrite filter_cons, decide_False by (intros ?; done).
Qed.

Lemma list_dirs_hide fs root d b :
  fs_isdir fs (path_join [root; d]) = Returns b →
  list_dirs (hide_entry fs root d) root =
  match list_dirs fs root with
  | Returns dirs => Returns (filter (fun x => x ≠ d) dirs)
  | Throws e => Throws e
  end.
Proof.
  intros Hd. unfold list_dirs. simpl. rewrite decide_True by done.
  destruct (fs_readdir fs root) as [entries|e]; [|done].
  rewrite (stat_entries_ext fs (hide_entry fs root d)) by done.
  rewrite (stat_entries_hide _ _ _ b) by done.
  destruct (stat_entries fs root entries) as [ds|e]; [|done].
  by rewrite js_sort_filter.
Qed.

Lemma has_script_delete_file fs p root d :
  script_path root d ≠ p →
  has_script (delete_file fs p) root d = has_script fs root d.
Proof. intros Hne. unfold has_script. simpl. by rewrite (decide_False (P := _ = p)). Qed.

Lemma readfile_delete_file fs p q :
  q ≠ p → fs_readfile (delete_file fs p) q = fs_readfile fs q.
Proof. intros Hne. simpl. by rewrite decide_False. Qed.

Lemma filter_ne_absent (d : string) (l : list string) : d ∉ l → filter (fun x => x ≠ d) l = l.
Proof.
  induction l as [|x l IH]; [done|]. rewrite not_elem_of_cons. intros [Hne Hl].
  rewrite filter_cons, decide_True by done. by rewrite IH.
Qed.

Lemma list_dirs_are_directories fs root dirs d :
  list_dirs fs root = Returns dirs → d ∈ dirs → is_directory fs root d.
Proof.
  intros (entries & _ & ->)%list_dirs_returns. unfold discovered.
  rewrite js_sort_perm. by intros [? _]%list_elem_of_filter.
Qed.

Lemma resolve_root_ext fs fs' cwd execPath :
  (∀ c, c ∈ candidates cwd execPath → exists_path fs' c = exists_path fs c) →
  resolve_root fs' cwd execPath = resolve_root fs cwd execPath.
Proof.
  intros Hex. unfold resolve_root. f_equal. f_equal.
  induction (candidates cwd execPath) as [|c cs IH]; [done|].
  rewrite !filter_cons, Hex by left.
  rewrite IH; [done|]. intros c' Hc'. apply Hex. by right.
Qed.

Lemma startup_same_world pgliteDir s s' :
  same_world s s' → startup pgliteDir s' = startup pgliteDir s.
Proof. intros (_ & Hcwd & Hexec & _ & Hfs). unfold startup. by rewrite Hfs, Hcwd, Hexec. Qed.

(** With nothing to do the loop leaves the state as it is. *)
Lemma apply_loop_nothing root applied dirs : ∀ count s,
  pending (st_fs s) root applied dirs = [] →
  apply_loop root applied dirs count s = (s, Ok count).
Proof.
  induction dirs as [|dir rest IH]; intros count s; [done|].
  unfold pending. rewrite filter_cons. case_decide as Hp; [done|].
  intros Hrest. rewrite apply_loop_skip by done. by apply IH.
Qed.

Lemma filter_all_finished (new : list Row) :
  Forall (fun r => finished r = true) new →
  filter (fun r => finished r = true) new = new.
Proof.
  induction 1 as [|r new Hr _ IH]; [done|].
  by rewrite filter_cons, decide_True, IH.
Qed.

Lemma applied_set_rows (db : Store udb) rows :
  tracking db = Some rows →
  applied_set db = list_to_set (migration_name <$> filter (fun r => finished r = true) rows).
Proof. intros Hrows. unfold applied_set, finished_names. by rewrite Hrows. Qed.

(** Rows that are only added can only enlarge the applied set, by the names of
    the added rows. *)
Lemma applied_set_rows_added db db' names :
  is_Some (tracking db) → rows_added db db' names →
  applied_set db' = applied_set db ∪ list_to_set names.
Proof.
  intros [rows Hrows] Hadd. destruct (Hadd rows Hrows) as (new & Hrows' & <- & Hfin).
  rewrite (applied_set_rows db rows), (applied_set_rows db' (rows ++ new)) by done.
  by rewrite filter_app, fmap_app, list_to_set_app_L, (filter_all_finished new).
Qed.

Lemma ensure_table_is_Some db : is_Some (tracking (ensure_table db)).
Proof. unfold ensure_table. destruct (tracking db) eqn:E; simpl; rewrite ?E; eauto. Qed.

Lemma ensure_table_id db : is_Some (tracking db) → ensure_table db = db.
Proof. intros [rows Hrows]. unfold ensure_table. by rewrite Hrows. Qed.

Lemma applied_queries_app tr1 tr2 :
  applied_queries (tr1 ++ tr2) = applied_queries tr1 ++ applied_queries tr2.
Proof. apply filter_app. Qed.

Lemma apply_unit_no_query root dir count s s' r tr :
  apply_unit root dir count s = (s', r) → st_trace s' = st_trace s ++ tr →
  applied_queries tr = [].
Proof.
  unfold apply_unit. munfold. simpl.
  destruct (fs_readfile (st_fs s) (script_path root dir)) as [sql|e]; simpl.
  2:{ intros [= <- <-] Htr. simpl in Htr. by apply app_inv_head in Htr as <-. }
  destruct (run_script sql (st_pg s)) as [db [e|]]; simpl.
  { intros [= <- <-] Htr. simpl in Htr. rewrite <-!app_assoc in Htr.
    by apply app_inv_head in Htr as <-. }
  destruct (insert_finished _ _ _) as [db' [e|]]; simpl;
    intros [= <- <-] Htr; simpl in Htr; rewrite <-!app_assoc in Htr;
    by apply app_inv_head in Htr as <-.
Qed.

(** The loop never asks the store which migrations are applied. *)
Lemma apply_loop_no_query root applied dirs : ∀ count s s' r tr,
  apply_loop root applied dirs count s = (s', r) → st_trace s' = st_trace s ++ tr →
  applied_queries tr = [].
Proof.
  induction dirs as [|dir rest IH]; intros count s s' r tr Hrun Htr.
  { injection Hrun as <- <-. rewrite <-(app_nil_r (st_trace s)) in Htr at 1.
    by apply app_inv_head in Htr as <-. }
  destruct (decide ((dir ∉ applied) ∧ has_script (st_fs s) root dir = true))
    as [[Happ Hscript]|Hskip].
  2:{ rewrite apply_loop_skip in Hrun by done. by eapply IH. }
  rewrite apply_loop_attempt in Hrun by done. unfold mbind, M_bind in Hrun.
  destruct (apply_unit root dir count s) as [s1 r1] eqn:Hunit.
  destruct (apply_unit_spec _ applied _ _ _ _ _ Happ Hscript Hunit) as (tr1 & Htr1 & _).
  pose proof (apply_unit_no_query _ _ _ _ _ _ _ Hunit Htr1) as Hq1.
  destruct r1 as [count1|e|code].
  - destruct (apply_loop_spec _ _ _ _ _ _ _ Hrun) as (tr2 & Htr2 & _).
    pose proof (IH _ _ _ _ _ Hrun Htr2) as Hq2.
    rewrite Htr2, Htr1, <-app_assoc in Htr. apply app_inv_head in Htr as <-.
    by rewrite applied_queries_app, Hq1, Hq2.
  - injection Hrun as <- <-. rewrite Htr1 in Htr. by apply app_inv_head in Htr as <-.
  - injection Hrun as <- <-. rewrite Htr1 in Htr. by apply app_inv_head in Htr as <-.
Qed.

(** The applied names are asked for at most once in a run, and once exactly
    when the run reaches its loop. *)
Lemma run_queries_once pgliteDir s s' r tr :
  migrate pgliteDir s = (s', r) → st_trace s' = st_trace s ++ tr →
  applied_queries tr =
  match startup pgliteDir s with Ready _ _ => [SelectApplied] | _ => [] end.
Proof.
  rewrite migrate_unfold. simpl.
  destruct (startup pgliteDir s) as [e| |root e|root dirs].
  - intros [= <- <-] Htr. simpl in Htr. by apply app_inv_head in Htr as <-.
  - intros [= <- <-] Htr. simpl in Htr. rewrite <-app_assoc in Htr.
    by apply app_inv_head in Htr as <-.
  - intros [= <- <-] Htr. simpl in Htr. by apply app_inv_head in Htr as <-.
  - destruct (apply_loop _ _ _ _ _) as [s3 lr] eqn:Hloop. intros [= <- <-] Htr.
    destruct (apply_loop_spec _ _ _ _ _ _ _ Hloop) as (ltr & Hltr & _).
    pose proof (apply_loop_no_query _ _ _ _ _ _ _ _ Hloop Hltr) as Hq.
    simpl in Htr, Hltr. rewrite Hltr, <-!app_assoc in Htr. apply app_inv_head in Htr as <-.
    rewrite !applied_queries_app, Hq. by destruct lr.
Qed.

Lemma catch_exit_result p s :
  catch_exit p s =
  match p s with
  | (s', Throw e) => (with_trace s' (st_trace s' ++ [ConsoleError (MsgUncaught e)]), Exit 1)
  | other => other
  end.
Proof. unfold catch_exit. munfold. by destruct (p s) as [s' [?|e|code]]. Qed.

Lemma catch_exit_status p s :
  exit_status (catch_exit p s).2 = exit_status (p s).2.
Proof. rewrite catch_exit_result. by destruct (p s) as [s' [?|e|code]]. Qed.

(** A migration of the to-do list is announced, unless the run stopped at an
    earlier one. *)
Lemma run_progress pgliteDir s s' r tr d :
  migrate pgliteDir s = (s', r) → st_trace s' = st_trace s ++ tr →
  d ∈ todo pgliteDir s →
  d ∈ announced tr ∨
  ∃ done d' later,
    todo pgliteDir s = done ++ d' :: later ∧ announced tr = done ++ [d'] ∧
    d ∈ later ∧ r ≠ Ok tt.
Proof.
  intros Hrun Htr. apply migrate_run in Hrun as (tr0 & Htr0 & Hw & Hout).
  same_trace Htr Htr0. unfold migrate_outcome, todo in *.
  destruct (startup pgliteDir s) as [e| |root e|root dirs];
    try by intros ?%elem_of_nil.
  destruct Hout as (ltr & lr & -> & -> & Hout & _). rewrite announced_around.
  unfold loop_outcome in Hout. destruct lr as [n|e|code].
  - destruct Hout as (_ & _ & -> & _). by left.
  - destruct Hout as (done & d' & later & -> & _ & _ & -> & _).
    rewrite !elem_of_app, elem_of_cons, list_elem_of_singleton.
    intros [?|[?|?]]; [by left; left|by left; right|]. right. by exists done, d', later.
  - destruct Hout as (_ & done & d' & later & cause & -> & _ & _ & -> & _).
    rewrite !elem_of_app, elem_of_cons, list_elem_of_singleton.
    intros [?|[?|?]]; [by left; left|by left; right|]. right. by exists done, d', later.
Qed.

(** The to-do list of a run over a listing without repeated names is in
    strictly ascending order. *)
Lemma todo_discovered pgliteDir s entries :
  fs_readdir (st_fs s) (resolve_root (st_fs s) (st_cwd s) (st_execPath s)) = Returns entries →
  todo pgliteDir s `prefix_of`
    pending (st_fs s) (resolve_root (st_fs s) (st_cwd s) (st_execPath s))
      (applied_set (st_pg s))
      (discovered (st_fs s) (resolve_root (st_fs s) (st_cwd s) (st_execPath s)) entries) ∧
  (∀ root dirs, startup pgliteDir s = Ready root dirs →
     root = resolve_root (st_fs s) (st_cwd s) (st_execPath s) ∧
     dirs = discovered (st_fs s) root entries).
Proof.
  intros Hentries. unfold todo, startup.
  destruct (fs_mkdir (st_fs s) pgliteDir); [split; [apply prefix_nil|done]|].
  destruct (decide (_ = "")); [split; [apply prefix_nil|done]|].
  destruct (list_dirs (st_fs s) _) as [dirs|e] eqn:Hdirs; [|split; [apply prefix_nil|done]].
  apply list_dirs_returns in Hdirs as (entries' & Hrd & ->).
  rewrite Hentries in Hrd. injection Hrd as <-. split; [done|].
  by intros root dirs [= <- <-].
Qed.

Lemma pending_strictly_sorted fs root applied entries :
  NoDup (utf16 <$> entries) →
  StronglySorted name_lt (pending fs root applied (discovered fs root entries)).
Proof.
  intros Hnd. unfold pending, discovered.
  apply strongly_sorted_filter, js_sort_strict.
  eapply sublist_NoDup; [done|]. apply fmap_sublist, sublist_filter.
Qed.

Lemma name_lt_irrefl a : ¬ name_lt a a.
Proof. unfold name_lt. apply (irreflexivity lexico). Qed.

Lemma name_lt_asym a b : name_lt a b → name_lt b a → False.
Proof.
  unfold name_lt. intros Hab Hba. apply (irreflexivity lexico (utf16 a)).
  by trans (utf16 b).
Qed.

Lemma strongly_sorted_prefix {A} (R : relation A) (l1 l2 : list A) :
  l1 `prefix_of` l2 → StronglySorted R l2 → StronglySorted R l1.
Proof. intros [k ->]. apply StronglySorted_app_1_l. Qed.

(** With scripts that leave the tracking table alone, the applied set only
    grows in a run, by the migrations whose row the run inserted. *)
Lemma run_applied_set pgliteDir s s' r tr :
  scripts_keep_tracking →
  migrate pgliteDir s = (s', r) → st_trace s' = st_trace s ++ tr →
  applied_set (st_pg s') = applied_set (st_pg s) ∪ list_to_set (recorded tr).
Proof.
  intros Hkeep Hrun Htr. apply migrate_run in Hrun as (tr0 & Htr0 & Hw & Hout).
  same_trace Htr Htr0. unfold migrate_outcome in Hout.
  destruct (startup pgliteDir s) as [e| |root e|root dirs].
  - destruct Hout as (_ & -> & ->). simpl. by rewrite (right_id_L ∅ (∪)).
  - destruct Hout as (_ & -> & ->). simpl.
    by rewrite applied_set_ensure_table, (right_id_L ∅ (∪)).
  - destruct Hout as (_ & -> & ->). simpl.
    by rewrite applied_set_ensure_table, (right_id_L ∅ (∪)).
  - destruct Hout as (ltr & lr & -> & _ & _ & Hrows). rewrite recorded_around.
    rewrite <-(applied_set_ensure_table (st_pg s)) at 1.
    apply applied_set_rows_added; [apply ensure_table_is_Some|auto].
Qed.

(** A run that ends normally ends with its report and the closing of the
    store, and the count reported is the number of rows it inserted. *)
Lemma run_report pgliteDir s s' tr :
  migrate pgliteDir s = (s', Ok tt) → st_trace s' = st_trace s ++ tr →
  ∃ tr0, tr = tr0 ++ [ConsoleLog (report (length (recorded tr))); CloseStore] ∧
         recorded tr0 = recorded tr ∧ executed tr0 = executed tr ∧
         executed tr = todo pgliteDir s ∧ recorded tr = todo pgliteDir s ∧
         announced tr = todo pgliteDir s ∧ insert_attempts tr = todo pgliteDir s ∧
         failures tr = [] ∧ console_errors tr = [].
Proof.
  intros Hrun Htr. apply migrate_run in Hrun as (tr0 & Htr0 & Hw & Hout).
  same_trace Htr Htr0. unfold migrate_outcome, todo in *.
  destruct (startup pgliteDir s) as [e| |root e|root dirs];
    try (by destruct Hout as (? & _)).
  destruct Hout as (ltr & lr & -> & Hr & Hout & _).
  destruct lr as [n|e|code]; try done.
  rewrite executed_around, recorded_around, announced_around, insert_attempts_around,
    failures_around, console_errors_around.
  destruct Hout as (Hex & Hrec & Hann & Hins & Hfail & Herr & ->).
  exists (prologue pgliteDir ++ ltr). simpl closing.
  rewrite recorded_app, executed_app, Hrec, Hex. simpl.
  repeat split; auto.
Qed.

(** *** What is passed to [pg.exec] *)

Lemma executed_event d tr : d ∈ executed tr ↔ ∃ sql err, ExecScript d sql err ∈ tr.
Proof.
  unfold executed. rewrite list_elem_of_omap. split.
  - intros ([] & Hin & Heq); try done. injection Heq as ->. eauto.
  - intros (sql & err & Hin). by eexists.
Qed.

Lemma apply_unit_events root dir count s s' r tr :
  apply_unit root dir count s = (s', r) → st_trace s' = st_trace s ++ tr →
  ∀ name sql err, ExecScript name sql err ∈ tr →
    name = dir ∧ fs_readfile (st_fs s) (script_path root dir) = Returns sql.
Proof.
  unfold apply_unit. munfold. simpl.
  destruct (fs_readfile (st_fs s) (script_path root dir)) as [sql0|e]; simpl.
  2:{ intros [= <- <-] Htr. simpl in Htr. apply app_inv_head in Htr as <-.
      by intros name sql err [=]%list_elem_of_singleton. }
  destruct (run_script sql0 (st_pg s)) as [db [e|]]; simpl.
  { intros [= <- <-] Htr. simpl in Htr. rewrite <-!app_assoc in Htr.
    apply app_inv_head in Htr as <-. intros name sql err. simpl.
    rewrite !elem_of_cons. intros [[=]|[[= -> -> ->]|[[=]|[]%elem_of_nil]]]. done. }
  destruct (insert_finished _ _ _) as [db' [e|]]; simpl;
    intros [= <- <-] Htr; simpl in Htr; rewrite <-!app_assoc in Htr;
    apply app_inv_head in Htr as <-; intros name sql err; simpl; rewrite !elem_of_cons.
  - intros [[=]|[[= -> -> ->]|[[=]|[[=]|[]%elem_of_nil]]]]. done.
  - intros [[=]|[[= -> -> ->]|[[=]|[]%elem_of_nil]]]. done.
Qed.

Lemma apply_loop_events root applied dirs : ∀ count s s' r tr,
  apply_loop root applied dirs count s = (s', r) → st_trace s' = st_trace s ++ tr →
  ∀ name sql err, ExecScript name sql err ∈ tr →
    name ∈ dirs ∧ fs_readfile (st_fs s) (script_path root name) = Returns sql.
Proof.
  induction dirs as [|dir rest IH]; intros count s s' r tr Hrun Htr name sql err.
  { injection Hrun as <- <-. rewrite <-(app_nil_r (st_trace s)) in Htr at 1.
    apply app_inv_head in Htr as <-. by intros ?%elem_of_nil. }
  destruct (decide ((dir ∉ applied) ∧ has_script (st_fs s) root dir = true))
    as [[Happ Hscript]|Hskip].
  2:{ rewrite apply_loop_skip in Hrun by done. intros Hin.
      destruct (IH _ _ _ _ _ Hrun Htr _ _ _ Hin). split; [by right|done]. }
  rewrite apply_loop_attempt in Hrun by done. unfold mbind, M_bind in Hrun.
  destruct (apply_unit root dir count s) as [s1 r1] eqn:Hunit.
  destruct (apply_unit_spec _ applied _ _ _ _ _ Happ Hscript Hunit) as (tr1 & Htr1 & Hw1 & _).
  pose proof (apply_unit_events _ _ _ _ _ _ _ Hunit Htr1 name sql err) as Hev1.
  destruct r1 as [count1|e|code].
  - destruct (apply_loop_spec _ _ _ _ _ _ _ Hrun) as (tr2 & Htr2 & _).
    pose proof (IH _ _ _ _ _ Hrun Htr2 name sql err) as Hev2.
    rewrite Htr2, Htr1, <-app_assoc in Htr. apply app_inv_head in Htr as <-.
    rewrite elem_of_app. intros [Hin|Hin].
    + destruct (Hev1 Hin) as [-> ?]. split; [by left|done].
    + destruct (Hev2 Hin) as [? Hread]. split; [by right|].
      by replace (st_fs s) with (st_fs s1) by apply Hw1.
  - injection Hrun as <- <-. rewrite Htr1 in Htr. apply app_inv_head in Htr as <-.
    intros Hin. destruct (Hev1 Hin) as [-> ?]. split; [by left|done].
  - injection Hrun as <- <-. rewrite Htr1 in Htr. apply app_inv_head in Htr as <-.
    intros Hin. destruct (Hev1 Hin) as [-> ?]. split; [by left|done].
Qed.

(** Every text passed to [pg.exec] in the loop is what [readFileSync]
    returned for the script of that migration under the root the run
    listed. *)
Lemma migrate_events pgliteDir s s' r tr name sql err :
  migrate pgliteDir s = (s', r) → st_trace s' = st_trace s ++ tr →
  ExecScript name sql err ∈ tr →
  ∃ root dirs, startup pgliteDir s = Ready root dirs ∧ name ∈ dirs ∧
               fs_readfile (st_fs s) (script_path root name) = Returns sql.
Proof.
  rewrite migrate_unfold. simpl.
  destruct (startup pgliteDir s) as [e| |root e|root dirs].
  - intros [= <- <-] Htr. simpl in Htr. apply app_inv_head in Htr as <-.
    by intros [=]%list_elem_of_singleton.
  - intros [= <- <-] Htr. simpl in Htr. rewrite <-app_assoc in Htr.
    apply app_inv_head in Htr as <-. simpl. rewrite !elem_of_cons.
    by intros [[=]|[[=]|[[=]|[[=]|[]%elem_of_nil]]]].
  - intros [= <- <-] Htr. simpl in Htr. apply app_inv_head in Htr as <-.
    rewrite !elem_of_cons. by intros [[=]|[[=]|[[=]|[]%elem_of_nil]]].
  - destruct (apply_loop _ _ _ _ _) as [s3 lr] eqn:Hloop. intros [= <- <-] Htr.
    destruct (apply_loop_spec _ _ _ _ _ _ _ Hloop) as (ltr & Hltr & _).
    pose proof (apply_loop_events _ _ _ _ _ _ _ _ Hloop Hltr name sql err) as Hev.
    simpl in Htr, Hltr, Hev. rewrite Hltr, <-!app_assoc in Htr.
    apply app_inv_head in Htr as <-. simpl.
    rewrite !elem_of_cons, elem_of_app.
    intros [[=]|[[=]|[[=]|[[=]|[Hin|Hin]]]]].
    + exists root, dirs. split; [done|]. by apply Hev.
    + exfalso. destruct lr as [n| |]; simpl in Hin; try (by apply elem_of_nil in Hin).
      revert Hin. rewrite !elem_of_cons. unfold report.
      by destruct (decide (n = 0%nat)); intros [[=]|[[=]|[]%elem_of_nil]].
Qed.

(** The first iteration that is not skipped. *)
Lemma apply_loop_first root applied dirs d later : ∀ count s,
  pending (st_fs s) root applied dirs = d :: later →
  ∃ dirs', apply_loop root applied dirs count s =
             (apply_unit root d count ≫= apply_loop root applied dirs') s ∧
           pending (st_fs s) root applied dirs' = later.
Proof.
  induction dirs as [|dir rest IH]; intros count s; [done|].
  unfold pending. rewrite filter_cons. case_decide as Hp.
  - intros [= -> <-]. exists rest. destruct Hp. by rewrite apply_loop_attempt.
  - intros Hrest. rewrite apply_loop_skip by done. by apply IH.
Qed.

Lemma apply_unit_first root dir count s s1 r1 sql :
  apply_unit root dir count s = (s1, r1) →
  fs_readfile (st_fs s) (script_path root dir) = Returns sql →
  let run := run_script sql (st_pg s) in
  let id := random_uuid (st_uuid s) in
  let ins := insert_finished id dir run.1 in
  ∃ rest,
    st_trace s1 = st_trace s ++
      ConsoleLog (MsgApplying dir) :: ExecScript dir sql run.2 :: rest ∧
    match run.2 with
    | Some e => rest = [ConsoleError (MsgFailed dir e)] ∧ st_pg s1 = run.1 ∧ r1 = Exit 1
    | None =>
        st_pg s1 = ins.1 ∧
        match ins.2 with
        | Some e => rest = [InsertRecord id dir (Some e); ConsoleError (MsgFailed dir e)] ∧
                    r1 = Exit 1
        | None => rest = [InsertRecord id dir None] ∧ r1 = Ok (S count)
        end
    end.
Proof.
  intros Hrun Hread. revert Hrun. unfold apply_unit. munfold. simpl. rewrite Hread. simpl.
  destruct (run_script sql (st_pg s)) as [db [e|]]; simpl.
  { intros [= <- <-]. eexists. simpl. rewrite <-!app_assoc. split; [reflexivity|done]. }
  destruct (insert_finished _ _ _) as [db' [e|]]; simpl;
    intros [= <- <-]; eexists; simpl; rewrite <-!app_assoc; (split; [reflexivity|done]).
Qed.

(** What a run does first when its to-do list starts with [d] and the
    script of [d] can be read: the text of the file goes to [pg.exec] on the
    store as the prologue left it, and the INSERT follows on the store the
    script left, with the next identifier drawn. *)
Lemma migrate_first_unit pgliteDir s s' r tr root dirs d later sql :
  migrate pgliteDir s = (s', r) → st_trace s' = st_trace s ++ tr →
  startup pgliteDir s = Ready root dirs →
  todo pgliteDir s = d :: later →
  fs_readfile (st_fs s) (script_path root d) = Returns sql →
  let run := run_script sql (ensure_table (st_pg s)) in
  let id := random_uuid (st_uuid s) in
  let ins := insert_finished id d run.1 in
  ∃ rest,
    tr = prologue pgliteDir ++ ConsoleLog (MsgApplying d) :: ExecScript d sql run.2 :: rest ∧
    (∀ e, run.2 = Some e →
       rest = [ConsoleError (MsgFailed d e)] ∧ st_pg s' = run.1 ∧ r = Exit 1) ∧
    (run.2 = None →
       ∃ rest', rest = InsertRecord id d ins.2 :: rest' ∧
         (∀ e, ins.2 = Some e →
            rest' = [ConsoleError (MsgFailed d e)] ∧ st_pg s' = ins.1 ∧ r = Exit 1)).
Proof.
  intros Hrun Htr Hs Htodo Hread. cbv zeta. revert Hrun Htr.
  rewrite migrate_unfold. simpl. unfold todo in Htodo. rewrite Hs in *.
  set (s2 := with_trace (with_trace _ _) _).
  destruct (apply_loop_first root (applied_set (st_pg s)) dirs d later 0%nat s2 Htodo)
    as (dirs' & -> & _).
  unfold mbind, M_bind.
  destruct (apply_unit root d 0 s2) as [s1 r1] eqn:Hunit.
  destruct (apply_unit_first _ _ _ _ _ _ _ Hunit Hread) as (rest & Htr1 & Hcase).
  change (st_pg s2) with (ensure_table (st_pg s)) in Hcase, Htr1.
  change (st_uuid s2) with (st_uuid s) in Hcase.
  assert (Hs2 : st_trace s2 = st_trace s ++ prologue pgliteDir)
    by (unfold s2; simpl; by rewrite <-app_assoc).
  rewrite Hs2 in Htr1.
  destruct (run_script sql (ensure_table (st_pg s))) as [db1 err1]. simpl in *.
  destruct (insert_finished (random_uuid (st_uuid s)) d db1) as [db2 err2]. simpl in *.
  destruct r1 as [count1|e|code].
  - destruct (apply_loop root (applied_set (st_pg s)) dirs' count1 s1) as [s3 lr] eqn:Hloop.
    destruct (apply_loop_spec _ _ _ _ _ _ _ Hloop) as (tr2 & Htr2 & _).
    intros [= <- <-] Htr. simpl in Htr. rewrite Htr2, Htr1, <-!app_assoc in Htr.
    apply app_inv_head in Htr as <-.
    destruct err1 as [e|]; [by destruct Hcase as (_ & _ & ?)|].
    destruct Hcase as [Hpg Hins]. destruct err2 as [e|]; [by destruct Hins|].
    destruct Hins as [-> _]. eexists. simpl. split; [reflexivity|].
    split; [done|]. intros _. eexists. split; [reflexivity|done].
  - intros [= <- <-] Htr. exfalso.
    destruct err1; [by destruct Hcase as (_ & _ & ?)|].
    destruct Hcase as [_ Hins]. by destruct err2; destruct Hins.
  - intros [= <- <-] Htr. simpl in Htr. rewrite app_nil_r, Htr1, <-!app_assoc in Htr.
    apply app_inv_head in Htr as <-. exists rest. split; [done|].
    destruct err1 as [e|].
    + destruct Hcase as (-> & Hpg & [= ->]). split; [|done]. by intros ? [= <-].
    + destruct Hcase as [Hpg Hins]. split; [done|]. intros _.
      destruct err2 as [e|]; [|by destruct Hins].
      destruct Hins as [-> [= ->]]. eexists. split; [reflexivity|]. by intros ? [= <-].
Qed.

(** A migration that was announced had its script executed, unless the
    script could not be read; then the error is thrown on and the run ends
    there. *)
Lemma run_announced pgliteDir s s' r tr root dirs d :
  migrate pgliteDir s = (s', r) → st_trace s' = st_trace s ++ tr →
  startup pgliteDir s = Ready root dirs →
  d ∈ announced tr →
  d ∈ executed tr ∨
  ∃ e done later,
    r = Throw e ∧ fs_readfile (st_fs s) (script_path root d) = Throws e ∧
    todo pgliteDir s = done ++ d :: later ∧
    executed tr = done ∧ recorded tr = done ∧ insert_attempts tr = done ∧
    announced tr = done ++ [d] ∧ failures tr = [] ∧ console_errors tr = [].
Proof.
  intros Hrun Htr Hs. apply migrate_run in Hrun as (tr0 & Htr0 & Hw & Hout).
  same_trace Htr Htr0. unfold migrate_outcome, todo in *. rewrite Hs in *.
  destruct Hout as (ltr & lr & -> & -> & Hout & _).
  rewrite executed_around, recorded_around, insert_attempts_around, announced_around,
    failures_around, console_errors_around.
  unfold loop_outcome in Hout. destruct lr as [n|e|code].
  - destruct Hout as (Hex & _ & Hann & _). intros Hd. left. by rewrite Hex, <-Hann.
  - destruct Hout as (done & d' & later & Htodo & Hex & Hrec & Hann & Hins & Hfail & Herr & Hread).
    rewrite Hann, elem_of_app, list_elem_of_singleton. intros [Hd| ->].
    + left. by rewrite Hex.
    + right. exists e, done, later. by repeat split.
  - destruct Hout as (_ & done & d' & later & cause & _ & Hex & _ & Hann & _).
    intros Hd. left. by rewrite Hex, <-Hann.
Qed.

End Facts.

(** ** The properties of the design document *)

Section Claims.
Context `{Host}.

Lemma not_in_prefix (d : string) (l1 l2 : list string) :
  d ∉ l2 → l1 `prefix_of` l2 → d ∉ l1.
Proof. intros Hd Hp Hin. apply Hd. by eapply elem_of_prefix. Qed.

Lemma untouched_outside_todo pgliteDir s s' r tr d :
  migrate pgliteDir s = (s', r) → st_trace s' = st_trace s ++ tr →
  d ∉ todo pgliteDir s → untouched d tr.
Proof.
  intros Hrun Htr Hnot.
  destruct (run_within_todo _ _ _ _ _ Hrun Htr) as (Hex & Hann & Hrec & Hins & Hfail & Herr).
  split; [by eapply not_in_prefix|]. split; [by eapply not_in_prefix|].
  split; [by eapply not_in_prefix|]. split; [by eapply not_in_prefix|].
  intros cause; split; intros Hin; apply Hnot; eauto.
Qed.

(** C5. A subdirectory without [migration.sql], and likewise an entry of the
    root that is not a directory, is passed over in silence: its script is
    never executed, no INSERT is issued for it, no error names it, the count
    reported at the end is the number of rows inserted (none of them for it),
    its name is in the applied set afterwards only if it was before (for
    scripts that leave the tracking table alone), and the run is, event for
    event, the run that a root without that entry gives. *)
Theorem scriptless_entry_is_skipped pgliteDir s s' r tr d :
  migrate pgliteDir s = (s', r) →
  st_trace s' = st_trace s ++ tr →
  (is_directory (st_fs s) (resolve_root (st_fs s) (st_cwd s) (st_execPath s)) d ∧
   has_script (st_fs s) (resolve_root (st_fs s) (st_cwd s) (st_execPath s)) d = false) ∨
  fs_isdir (st_fs s)
    (path_join [resolve_root (st_fs s) (st_cwd s) (st_execPath s); d]) = Returns false →
  untouched d tr ∧
  (r = Ok tt →
   ∃ tr0, tr = tr0 ++ [ConsoleLog (report (length (recorded tr))); CloseStore]) ∧
  (scripts_keep_tracking →
   (d ∈ applied_set (st_pg s') ↔ d ∈ applied_set (st_pg s))) ∧
  migrate pgliteDir
    (with_fs s (hide_entry (st_fs s) (resolve_root (st_fs s) (st_cwd s) (st_execPath s)) d)) =
  (with_fs s' (hide_entry (st_fs s) (resolve_root (st_fs s) (st_cwd s) (st_execPath s)) d), r).
Proof.
  intros Hrun Htr Hd.
  pose proof (λ Hkeep, run_applied_set pgliteDir s s' r tr Hkeep Hrun Htr) as Hset.
  set (fs := st_fs s) in *. set (root := resolve_root fs (st_cwd s) (st_execPath s)) in *.
  assert (Hnot : d ∉ todo pgliteDir s).
  { unfold todo, startup. fold fs root.
    destruct (fs_mkdir fs pgliteDir); [by intros ?%elem_of_nil|].
    destruct (decide (root = "")); [by intros ?%elem_of_nil|].
    destruct (list_dirs fs root) as [dirs|e] eqn:Hdirs; [|by intros ?%elem_of_nil].
    unfold pending. intros [[_ Hs] Hin]%list_elem_of_filter.
    destruct Hd as [[_ Hno]|Hfile]; [congruence|].
    apply (list_dirs_are_directories _ _ _ _ Hdirs) in Hin.
    unfold is_directory in Hin. congruence. }
  assert (Huntouched : untouched d tr) by (by eapply untouched_outside_todo).
  split; [done|].
  split.
  { intros ->. destruct (run_report _ _ _ _ Hrun Htr) as (tr0 & ? & _). by exists tr0. }
  split.
  { intros Hkeep. rewrite (Hset Hkeep), elem_of_union, elem_of_list_to_set.
    destruct Huntouched as (_ & _ & _ & Hrec & _). tauto. }
  assert (∃ b, fs_isdir fs (path_join [root; d]) = Returns b) as [b Hb].
  { destruct Hd as [[Hdir _]|Hfile]; eauto. }
  pose proof (migrate_with_fs pgliteDir s (hide_entry fs root d)) as Hsim.
  simpl in Hsim. fold fs root in Hsim. rewrite Hrun in Hsim. apply Hsim; [done|done|].
  rewrite (list_dirs_hide _ _ _ b Hb).
  destruct (list_dirs fs root) as [dirs|e] eqn:Hdirs; [|done].
  eexists. split; [done|]. split; [|done].
  intros count s0 Hs0. destruct Hd as [[_ Hno]|Hfile].
  - apply apply_loop_drop_skipped. rewrite Hs0. intros [_ ?]. congruence.
  - rewrite filter_ne_absent; [done|]. intros Hin.
    apply (list_dirs_are_directories _ _ _ _ Hdirs) in Hin.
    unfold is_directory in Hin. congruence.
Qed.

Lemma untouched_when_applied pgliteDir s s' r tr d :
  migrate pgliteDir s = (s', r) → st_trace s' = st_trace s ++ tr →
  d ∈ applied_set (st_pg s) → untouched d tr.
Proof.
  intros Hrun Htr Hd. eapply untouched_outside_todo; eauto.
  intros Hin. by apply todo_not_applied in Hin.
Qed.

(** C1, as the code has it.  When a run of [migrate] has completed and the
    migration scripts leave the tracking table alone, a second run over the
    same disk and the store left by the first executes no script, inserts no
    row, reports that there is nothing new and leaves the database as it
    found it.  In every run, whatever came before, a migration whose name has
    a finished row is passed over: its script is not executed again. *)
Theorem second_run_applies_nothing pgliteDir s s1 s2 r2 :
  scripts_keep_tracking →
  migrate pgliteDir s = (s1, Ok tt) →
  migrate pgliteDir s1 = (s2, r2) →
  r2 = Ok tt ∧
  st_trace s2 = st_trace s1 ++ prologue pgliteDir ++ [ConsoleLog MsgNoNew; CloseStore] ∧
  st_pg s2 = st_pg s1 ∧
  ∀ s0 s0' r0 tr d,
    migrate pgliteDir s0 = (s0', r0) → st_trace s0' = st_trace s0 ++ tr →
    d ∈ applied_set (st_pg s0) → untouched d tr.
Proof.
  intros Hkeep Hrun1 Hrun2.
  assert (Hskip : ∀ s0 s0' r0 tr d,
    migrate pgliteDir s0 = (s0', r0) → st_trace s0' = st_trace s0 ++ tr →
    d ∈ applied_set (st_pg s0) → untouched d tr).
  { intros. by eapply untouched_when_applied. }
  apply migrate_run in Hrun1 as (tr1 & Htr1 & Hw1 & Hout1).
  unfold migrate_outcome in Hout1.
  destruct (startup pgliteDir s) as [e| |root e|root dirs] eqn:Hstart;
    try (by destruct Hout1 as (? & _)).
  destruct Hout1 as (ltr & lr & -> & Hr & Hout & Hrows).
  destruct lr as [n|e|code]; try done.
  destruct Hout as (_ & Hrec & _). specialize (Hrows Hkeep).
  assert (HA : applied_set (st_pg s1) =
               applied_set (st_pg s) ∪
               list_to_set (pending (st_fs s) root (applied_set (st_pg s)) dirs)).
  { rewrite <-(applied_set_ensure_table (st_pg s)) at 1. rewrite <-Hrec.
    apply applied_set_rows_added; [apply ensure_table_is_Some|done]. }
  assert (Htodo : pending (st_fs s1) root (applied_set (st_pg s1)) dirs = []).
  { replace (st_fs s1) with (st_fs s) by (symmetry; apply Hw1).
    destruct (pending (st_fs s) root (applied_set (st_pg s1)) dirs) as [|d l] eqn:E; [done|].
    assert (Hd : d ∈ pending (st_fs s) root (applied_set (st_pg s1)) dirs) by (rewrite E; left).
    apply list_elem_of_filter in Hd as [[Hn Hs] Hin]. exfalso. apply Hn.
    rewrite HA, elem_of_union, elem_of_list_to_set.
    destruct (decide (d ∈ applied_set (st_pg s))); [by left|right].
    by apply list_elem_of_filter. }
  assert (Htable : is_Some (tracking (st_pg s1))).
  { destruct (ensure_table_is_Some (st_pg s)) as [rows Hrows0].
    destruct (Hrows rows Hrows0) as (new & -> & _). eauto. }
  rewrite migrate_unfold in Hrun2. rewrite (startup_same_world _ _ _ Hw1), Hstart in Hrun2.
  simpl in Hrun2. rewrite apply_loop_nothing in Hrun2 by (simpl; exact Htodo).
  injection Hrun2 as <- <-. simpl. rewrite <-!app_assoc. simpl.
  by rewrite (ensure_table_id _ Htable).
Qed.

(** C9. A migration whose name is in the applied set is dropped by the first
    test of the loop, before the loop looks for its script: the iteration is
    a no-op whatever the state, nothing in the run concerns the migration, and
    the run is the same, event for event, on any disk that differs from the
    present one only by what it holds at the scripts of applied migrations
    (for one, a disk where those scripts are gone). *)
Theorem applied_check_precedes_script_check pgliteDir s s' r tr d :
  migrate pgliteDir s = (s', r) →
  st_trace s' = st_trace s ++ tr →
  d ∈ applied_set (st_pg s) →
  (∀ root rest count s0,
     apply_loop root (applied_set (st_pg s)) (d :: rest) count s0 =
     apply_loop root (applied_set (st_pg s)) rest count s0) ∧
  untouched d tr ∧
  ∀ fs', same_but_applied_scripts pgliteDir s fs' →
         migrate pgliteDir (with_fs s fs') = (with_fs s' fs', r).
Proof.
  intros Hrun Htr Hd. split; [|split].
  - intros root rest count s0. apply apply_loop_skip. by intros [? _].
  - by eapply untouched_when_applied.
  - intros fs' (Hmk & Hcand & Hrd & Hst & Hscripts).
    pose proof (migrate_with_fs pgliteDir s fs') as Hsim. simpl in Hsim.
    rewrite Hrun in Hsim. apply Hsim; [done|by apply resolve_root_ext|].
    rewrite (list_dirs_ext _ fs') by done.
    destruct (list_dirs (st_fs s) _) as [dirs|e]; [|done].
    exists dirs. split; [done|]. split; [done|].
    intros d' _ Hd'. destruct (Hscripts d' Hd') as [-> ->]. done.
Qed.

Lemma todo_when_ready pgliteDir s root dirs :
  startup pgliteDir s = Ready root dirs →
  todo pgliteDir s = pending (st_fs s) root (applied_set (st_pg s)) dirs.
Proof. intros Hs. unfold todo. by rewrite Hs. Qed.

Lemma run_ok_ready pgliteDir s s' :
  migrate pgliteDir s = (s', Ok tt) → ∃ root dirs, startup pgliteDir s = Ready root dirs.
Proof.
  intros (tr & _ & _ & Hout)%migrate_run. unfold migrate_outcome in Hout.
  destruct (startup pgliteDir s); try (by destruct Hout as (? & _)). eauto.
Qed.

(** Past the prologue nothing asks for the applied names again. *)
Lemma run_after_prologue pgliteDir s s' r tr :
  migrate pgliteDir s = (s', r) → st_trace s' = st_trace s ++ tr →
  executed tr ≠ [] →
  ∃ rest, tr = prologue pgliteDir ++ rest ∧ applied_queries rest = [].
Proof.
  intros Hrun Htr Hex. pose proof (run_queries_once _ _ _ _ _ Hrun Htr) as Hq.
  apply migrate_run in Hrun as (tr0 & Htr0 & Hw & Hout).
  same_trace Htr Htr0. unfold migrate_outcome in Hout.
  destruct (startup pgliteDir s) as [e| |root e|root dirs];
    try (by destruct Hout as (_ & -> & _)).
  destruct Hout as (ltr & lr & -> & _). eexists. split; [done|].
  rewrite applied_queries_app in Hq. simpl in Hq. by injection Hq.
Qed.

(** C2, as the code has it.  Whatever order the directory listing comes in,
    the scripts a run executes are those of the migrations that are not yet
    applied, taken in strictly ascending order of their names as JavaScript
    compares strings, by UTF-16 code units; when the names are ASCII that is
    the strictly ascending byte-wise order.  The executed names are an
    initial segment (all of it when the run completes) of the pending names
    of the sorted listing, a list that does not change when the listing is
    permuted.  The applied set that decides what is pending is the one of the
    store as the run found it: it is queried in the prologue and never again,
    whatever the scripts do to the tracking table. *)
Theorem migrations_run_in_lexical_order pgliteDir s s' r tr entries :
  migrate pgliteDir s = (s', r) →
  st_trace s' = st_trace s ++ tr →
  fs_readdir (st_fs s) (resolve_root (st_fs s) (st_cwd s) (st_execPath s)) = Returns entries →
  NoDup (utf16 <$> entries) →
  let fs := st_fs s in
  let root := resolve_root fs (st_cwd s) (st_execPath s) in
  let units := pending fs root (applied_set (st_pg s)) (discovered fs root entries) in
  StronglySorted name_lt (executed tr) ∧
  (Forall ascii_name entries → StronglySorted byte_lt (executed tr)) ∧
  executed tr `prefix_of` units ∧
  (r = Ok tt → executed tr = units) ∧
  (∀ d, d ∈ units ↔
        d ∈ entries ∧ is_directory fs root d ∧
        (d ∉ applied_set (st_pg s)) ∧ has_script fs root d = true) ∧
  (∀ entries', entries' ≡ₚ entries →
     discovered fs root entries' = discovered fs root entries) ∧
  (applied_queries tr = [] ∨ applied_queries tr = [SelectApplied]) ∧
  (executed tr ≠ [] →
   ∃ rest, tr = prologue pgliteDir ++ rest ∧ applied_queries rest = []).
Proof.
  intros Hrun Htr Hentries Hnd fs root units.
  destruct (todo_discovered pgliteDir s entries Hentries) as [Hpre Hready].
  destruct (run_within_todo _ _ _ _ _ Hrun Htr) as (Hex & _).
  assert (Hprefix : executed tr `prefix_of` units) by (by etrans).
  assert (Hunits : ∀ d, d ∈ units ↔
        d ∈ entries ∧ is_directory fs root d ∧
        (d ∉ applied_set (st_pg s)) ∧ has_script fs root d = true).
  { intros d. unfold units, pending, discovered.
    rewrite list_elem_of_filter, js_sort_perm, list_elem_of_filter. tauto. }
  assert (Hsorted : StronglySorted name_lt (executed tr)).
  { eapply strongly_sorted_prefix; [done|]. by apply pending_strictly_sorted. }
  split; [done|]. split; [|split; [done|split; [|split; [done|split; [|split]]]]].
  - intros Hascii. rewrite Forall_forall in Hascii.
    assert (Hin : ∀ d, d ∈ executed tr → ascii_name d).
    { intros d Hd. apply Hascii. destruct Hprefix as [k Hk].
      apply (Hunits d). rewrite Hk, elem_of_app. by left. }
    clear -Hsorted Hin. induction Hsorted as [|x l Hs IH Hx]; [constructor|].
    constructor; [apply IH; intros d Hd; apply Hin; by right|].
    rewrite Forall_forall in Hx |- *. intros y Hy. specialize (Hx y Hy).
    unfold name_lt, byte_lt in *.
    rewrite <-(utf16_ascii x) by (apply Hin; by left).
    by rewrite <-(utf16_ascii y) by (apply Hin; by right).
  - intros ->. destruct (run_ok_ready _ _ _ Hrun) as (root' & dirs & Hs).
    destruct (run_report _ _ _ _ Hrun Htr) as (_ & _ & _ & _ & -> & _).
    rewrite (todo_when_ready _ _ _ _ Hs). by destruct (Hready _ _ Hs) as [-> ->].
  - intros entries' Hperm. unfold discovered. apply js_sort_permutation.
    by rewrite Hperm.
  - rewrite (run_queries_once _ _ _ _ _ Hrun Htr).
    destruct (startup pgliteDir s); auto.
  - by eapply run_after_prologue.
Qed.

(** C6. A run that completes ends by reporting its count, and that count is
    the number of completion rows it inserted, which are the rows of exactly
    the migrations whose script it executed; no error was met on the way and
    the process ends with status 0.  A run that reaches its loop with nothing
    pending (an empty root, or every directory applied or without script)
    completes, reporting that there is nothing new. *)
Theorem applied_count_is_exact pgliteDir s s' r tr :
  migrate pgliteDir s = (s', r) →
  st_trace s' = st_trace s ++ tr →
  (r = Ok tt →
   (∃ tr0, tr = tr0 ++ [ConsoleLog (report (length (recorded tr))); CloseStore] ∧
           recorded tr0 = recorded tr ∧ executed tr0 = executed tr) ∧
   recorded tr = executed tr ∧ failures tr = [] ∧ console_errors tr = [] ∧
   exit_status (catch_exit (migrate pgliteDir) s).2 = 0) ∧
  (∀ root dirs,
     startup pgliteDir s = Ready root dirs →
     pending (st_fs s) root (applied_set (st_pg s)) dirs = [] →
     r = Ok tt ∧ tr = prologue pgliteDir ++ [ConsoleLog MsgNoNew; CloseStore] ∧
     report (length (recorded tr)) = MsgNoNew).
Proof.
  intros Hrun Htr. split.
  - intros ->.
    destruct (run_report _ _ _ _ Hrun Htr)
      as (tr0 & Heq & Hr0 & He0 & Hex & Hrec & _ & _ & Hfail & Herr).
    split; [by exists tr0|]. split; [congruence|]. split; [done|]. split; [done|].
    by rewrite catch_exit_status, Hrun.
  - intros root dirs Hs Hnone. rewrite migrate_unfold, Hs in Hrun. simpl in Hrun.
    rewrite apply_loop_nothing in Hrun by (simpl; exact Hnone).
    injection Hrun as <- <-. simpl in Htr. rewrite <-!app_assoc in Htr.
    apply app_inv_head in Htr as <-. done.
Qed.

Lemma todo_strictly_sorted pgliteDir s entries :
  fs_readdir (st_fs s) (resolve_root (st_fs s) (st_cwd s) (st_execPath s)) = Returns entries →
  NoDup (utf16 <$> entries) → StronglySorted name_lt (todo pgliteDir s).
Proof.
  intros Hentries Hnd. destruct (todo_discovered pgliteDir s entries Hentries) as [Hpre _].
  eapply strongly_sorted_prefix; [done|]. by apply pending_strictly_sorted.
Qed.

Lemma todo_NoDup pgliteDir s entries :
  fs_readdir (st_fs s) (resolve_root (st_fs s) (st_cwd s) (st_execPath s)) = Returns entries →
  NoDup entries → NoDup (todo pgliteDir s).
Proof.
  intros Hentries Hnd. destruct (todo_discovered pgliteDir s entries Hentries) as [[k Hk] _].
  assert (Hall : NoDup (todo pgliteDir s ++ k)).
  { rewrite <-Hk. unfold pending, discovered. apply NoDup_filter.
    rewrite js_sort_perm. by apply NoDup_filter. }
  by apply NoDup_app in Hall as [? _].
Qed.

(** C3, as the code has it.  When the execution of a script, or the INSERT
    of its completion row, fails for migration [d], [migrate] ends there by
    [process.exit(1)]: the last thing it does is to print the failure line
    naming [d] and the cause; the migrations executed are those before [d] in
    the to-do list and [d] itself, and the engine inserted rows for the
    former only.  With scripts that
    leave the tracking table alone the applied set afterwards is the one found
    plus the migrations before [d]; on a listing without repeated names [d] is
    not in it, and nothing at all was done about the migrations after [d] on
    the list, nor about any name that comes after [d] in the order of the
    sort, the order of UTF-16 code units. *)
Theorem first_failure_stops_the_run pgliteDir s s' r tr d cause :
  migrate pgliteDir s = (s', r) →
  st_trace s' = st_trace s ++ tr →
  (d, cause) ∈ failures tr →
  r = Exit 1 ∧
  catch_exit (migrate pgliteDir) s = (s', Exit 1) ∧
  last tr = Some (ConsoleError (MsgFailed d cause)) ∧
  console_errors tr = [MsgFailed d cause] ∧
  failures tr = [(d, cause)] ∧
  ∃ done later,
    todo pgliteDir s = done ++ d :: later ∧
    executed tr = done ++ [d] ∧ announced tr = done ++ [d] ∧ recorded tr = done ∧
    (scripts_keep_tracking →
     applied_set (st_pg s') = applied_set (st_pg s) ∪ list_to_set done) ∧
    (∀ entries,
       fs_readdir (st_fs s) (resolve_root (st_fs s) (st_cwd s) (st_execPath s)) = Returns entries →
       NoDup (utf16 <$> entries) →
       (d ∉ done) ∧ (∀ u, u ∈ later → untouched u tr) ∧
       (∀ u, name_lt d u → untouched u tr) ∧
       (scripts_keep_tracking → d ∉ applied_set (st_pg s'))).
Proof.
  intros Hrun Htr Hfail.
  pose proof (λ entries, todo_NoDup pgliteDir s entries) as Hnodup.
  pose proof (λ entries, todo_strictly_sorted pgliteDir s entries) as Hsorted.
  pose proof (λ u, untouched_outside_todo pgliteDir s s' r tr u Hrun Htr) as Houtside.
  pose proof (todo_not_applied pgliteDir s d) as Hfresh.
  assert (Hcatch : ∀ s'', migrate pgliteDir s = (s'', Exit 1) →
                          catch_exit (migrate pgliteDir) s = (s'', Exit 1)).
  { intros s'' Hm. by rewrite catch_exit_result, Hm. }
  pose proof Hrun as Hrun'.
  apply migrate_run in Hrun as (tr0 & Htr0 & Hw & Hout).
  same_trace Htr Htr0. unfold migrate_outcome, todo in *.
  destruct (startup pgliteDir s) as [e| |root e|root dirs];
    try (destruct Hout as (_ & -> & _); by apply elem_of_nil in Hfail).
  destruct Hout as (ltr & lr & -> & -> & Hout & Hrows).
  rewrite failures_around in Hfail. unfold loop_outcome in Hout.
  destruct lr as [n|e|code].
  { destruct Hout as (_ & _ & _ & _ & Hnil & _). rewrite Hnil in Hfail.
    by apply elem_of_nil in Hfail. }
  { destruct Hout as (done & d' & later & _ & _ & _ & _ & _ & Hnil & _).
    rewrite Hnil in Hfail. by apply elem_of_nil in Hfail. }
  destruct Hout as (-> & done & d' & later & cause' & Htodo & Hex & Hrec & Hann & Hf & Herr & Hlast & Hins).
  rewrite Hf in Hfail. apply list_elem_of_singleton in Hfail. injection Hfail as -> ->.
  rewrite executed_around, announced_around, recorded_around, console_errors_around,
    failures_around.
  split; [done|]. split; [by apply Hcatch|]. split.
  { simpl closing. rewrite app_nil_r, last_app, Hlast. done. }
  split; [done|]. split; [done|]. exists done, later.
  split; [done|]. split; [done|]. split; [done|]. split; [done|].
  assert (Hset : scripts_keep_tracking →
    applied_set (st_pg s') = applied_set (st_pg s) ∪ list_to_set done).
  { intros Hkeep. rewrite <-(applied_set_ensure_table (st_pg s)) at 1. rewrite <-Hrec.
    apply applied_set_rows_added; [apply ensure_table_is_Some|auto]. }
  split; [done|]. intros entries Hentries Hnd.
  specialize (Hnodup entries Hentries (NoDup_fmap_1 _ _ Hnd)). rewrite Htodo in Hnodup.
  specialize (Hsorted entries Hentries Hnd). rewrite Htodo in Hsorted.
  apply NoDup_app in Hnodup as (_ & Hdisj & Hrest).
  apply NoDup_cons in Hrest as [Hd Hlater].
  assert (Hdone : d' ∉ done). { intros Hin. apply (Hdisj _ Hin). by left. }
  assert (Hafter : ∀ u, u ∈ later → untouched u (prologue pgliteDir ++ ltr ++ closing (Exit 1))).
  2:{ split; [done|]. split; [done|]. split; [|].
      - intros u Hu. destruct (decide (u ∈ done ++ d' :: later)) as [Hin|Hout].
        + apply elem_of_app in Hin as [Hin|Hin].
          * exfalso. apply (name_lt_asym d' u); [done|].
            apply (StronglySorted_app_1_elem_of name_lt done (d' :: later)); [done|done|by left].
          * apply elem_of_cons in Hin as [->|Hin]; [by apply name_lt_irrefl in Hu|auto].
        + apply Houtside. by rewrite Htodo.
      - intros Hkeep. rewrite (Hset Hkeep), elem_of_union, elem_of_list_to_set.
        intros [Hin|Hin]; [|done]. apply Hfresh; [|done].
        rewrite Htodo, elem_of_app, elem_of_cons. auto. }
  - intros u Hu.
    assert (Hu1 : u ∉ done). { intros Hin. apply (Hdisj _ Hin). by right. }
    assert (Hu2 : u ≠ d') by (by intros ->).
    assert (Hu3 : u ∉ done ++ [d']).
    { rewrite elem_of_app, list_elem_of_singleton. tauto. }
    unfold untouched.
    rewrite executed_around, announced_around, insert_attempts_around, recorded_around,
      Hex, Hann, Hrec.
    split; [done|]. split; [done|]. split; [by destruct Hins as [-> | ->]|].
    split; [done|]. intros c. rewrite failures_around, console_errors_around, Hf, Herr.
    rewrite !list_elem_of_singleton. split; congruence.
Qed.

(** C4. The applied set that [migrate] works with holds the names of the
    rows whose [finished_at] is set, and no other name: it is what the SELECT
    of the source returns on the store as found.  A migration in it is passed
    over.  A migration whose rows, if any, all have [finished_at] unset is
    not in it: when its directory has a script it is on the to-do list, and
    the run attempts it again unless it stopped at an earlier migration: it
    announces it and passes the text of its script to [pg.exec] (or throws
    the error of reading the script on), and a run that completes has
    executed it.  When it is the first on the list its script is executed on
    the store as the run found it, tracking table made sure of, and the
    INSERT of its row follows on the store the script left. *)
Theorem unfinished_row_does_not_count pgliteDir s s' r tr :
  migrate pgliteDir s = (s', r) →
  st_trace s' = st_trace s ++ tr →
  select_finished (ensure_table (st_pg s)) = Returns (finished_names (st_pg s)) ∧
  (∀ name, name ∈ applied_set (st_pg s) ↔
           ∃ rows row, tracking (st_pg s) = Some rows ∧ row ∈ rows ∧
                       migration_name row = name ∧ is_Some (finished_at row)) ∧
  (∀ d, d ∈ applied_set (st_pg s) → untouched d tr) ∧
  (∀ root dirs rows d,
     startup pgliteDir s = Ready root dirs →
     d ∈ dirs → has_script (st_fs s) root d = true →
     tracking (st_pg s) = Some rows →
     (∀ row, row ∈ rows → migration_name row = d → finished_at row = None) →
     (d ∉ applied_set (st_pg s)) ∧ d ∈ todo pgliteDir s ∧
     (d ∈ announced tr ∨
      ∃ done d' later,
        todo pgliteDir s = done ++ d' :: later ∧ announced tr = done ++ [d'] ∧
        d ∈ later ∧ r ≠ Ok tt) ∧
     (d ∈ announced tr →
      d ∈ executed tr ∨
      ∃ e, fs_readfile (st_fs s) (script_path root d) = Throws e ∧ r = Throw e) ∧
     (r = Ok tt → d ∈ executed tr) ∧
     (∀ sql err, ExecScript d sql err ∈ tr →
                 fs_readfile (st_fs s) (script_path root d) = Returns sql) ∧
     (∀ later sql,
        todo pgliteDir s = d :: later →
        fs_readfile (st_fs s) (script_path root d) = Returns sql →
        let run := run_script sql (ensure_table (st_pg s)) in
        let id := random_uuid (st_uuid s) in
        let ins := insert_finished id d run.1 in
        ∃ rest,
          tr = prologue pgliteDir ++
               ConsoleLog (MsgApplying d) :: ExecScript d sql run.2 :: rest ∧
          (∀ e, run.2 = Some e →
             rest = [ConsoleError (MsgFailed d e)] ∧ st_pg s' = run.1 ∧ r = Exit 1) ∧
          (run.2 = None →
             ∃ rest', rest = InsertRecord id d ins.2 :: rest' ∧
               (∀ e, ins.2 = Some e →
                  rest' = [ConsoleError (MsgFailed d e)] ∧ st_pg s' = ins.1 ∧
                  r = Exit 1)))).
Proof.
  intros Hrun Htr.
  assert (Hchar : ∀ name, name ∈ applied_set (st_pg s) ↔
           ∃ rows row, tracking (st_pg s) = Some rows ∧ row ∈ rows ∧
                       migration_name row = name ∧ is_Some (finished_at row)).
  { intros name. unfold applied_set, finished_names.
    rewrite elem_of_list_to_set, list_elem_of_fmap. split.
    - intros (row & -> & [Hfin Hin]%list_elem_of_filter).
      destruct (tracking (st_pg s)) as [rows|] eqn:E; [|by apply elem_of_nil in Hin].
      exists rows, row. repeat split; auto.
      unfold finished in Hfin. by apply bool_decide_eq_true in Hfin.
    - intros (rows & row & -> & Hin & <- & Hfin). exists row. split; [done|].
      apply list_elem_of_filter. split; [|done].
      unfold finished. by apply bool_decide_eq_true. }
  split; [apply select_finished_ensure_table|]. split; [done|].
  split; [intros d Hd; by eapply untouched_when_applied|].
  intros root dirs rows d Hs Hd Hscript Hrows Hunfinished.
  assert (Hnot : d ∉ applied_set (st_pg s)).
  { rewrite Hchar. intros (rows' & row & Hrows' & Hin & Hname & Hfin).
    rewrite Hrows in Hrows'. injection Hrows' as <-.
    rewrite (Hunfinished row Hin Hname) in Hfin. by destruct Hfin. }
  assert (Htodo : d ∈ todo pgliteDir s).
  { rewrite (todo_when_ready _ _ _ _ Hs). by apply list_elem_of_filter. }
  split; [done|]. split; [done|]. split; [by eapply run_progress|].
  split; [|split; [|split]].
  - intros Hann.
    destruct (run_announced _ _ _ _ _ _ _ _ Hrun Htr Hs Hann)
      as [?|(e & done & later & -> & Hread & _)]; [by left|right; eauto].
  - intros ->. destruct (run_report _ _ _ _ Hrun Htr) as (_ & _ & _ & _ & -> & _). done.
  - intros sql err Hin.
    destruct (migrate_events _ _ _ _ _ _ _ _ Hrun Htr Hin) as (root' & dirs' & Hs' & _ & Hread).
    rewrite Hs in Hs'. by injection Hs' as <- <-.
  - intros later sql Hhead Hread. by eapply migrate_first_unit.
Qed.

(** C7. The root is looked for first under the working directory, then
    beside the executable, and the first of the two that exists is the
    directory [migrate] works on: once the data directory is there and the
    root is listed, the run is the prologue followed by the loop over the
    sorted directories of that root; the migration it announces first is the
    first pending one of that root, and every text it passes to [pg.exec] is
    the content of a script below that root.  When neither exists no
    migration is announced, executed or recorded and the process ends with
    status 1: once the data directory is there, by the error line about the
    missing directory followed by [process.exit(1)]. *)
Theorem root_resolution_order pgliteDir s s' r tr :
  migrate pgliteDir s = (s', r) →
  st_trace s' = st_trace s ++ tr →
  let fs := st_fs s in
  let c1 := path_join [st_cwd s; "prisma"; "migrations"] in
  let c2 := path_join [path_dirname (st_execPath s); "prisma"; "migrations"] in
  let root := resolve_root fs (st_cwd s) (st_execPath s) in
  find_candidate [c1; c2] s = (s, Ok root) ∧
  root = (if exists_path fs c1 then c1 else if exists_path fs c2 then c2 else "") ∧
  (∀ root' dirs, startup pgliteDir s = Ready root' dirs →
     root' = root ∧ exists_path fs root' = true ∧ list_dirs fs root' = Returns dirs) ∧
  (∀ root' e, startup pgliteDir s = ListingFails root' e →
     root' = root ∧ exists_path fs root' = true ∧ list_dirs fs root' = Throws e) ∧
  (∀ dirs, fs_mkdir fs pgliteDir = None → root ≠ "" → list_dirs fs root = Returns dirs →
     let s2 := with_trace (with_pg s (ensure_table (st_pg s)))
                 (st_trace s ++ prologue pgliteDir) in
     let loop := apply_loop root (applied_set (st_pg s)) dirs 0 s2 in
     (s', r) = (with_trace loop.1 (st_trace loop.1 ++ closing loop.2), forget loop.2) ∧
     executed tr `prefix_of` pending fs root (applied_set (st_pg s)) dirs ∧
     head (announced tr) = head (pending fs root (applied_set (st_pg s)) dirs)) ∧
  (∀ d sql err, ExecScript d sql err ∈ tr →
     root ≠ "" ∧ fs_readfile fs (path_join [root; d; "migration.sql"]) = Returns sql ∧
     ∃ entries, fs_readdir fs root = Returns entries ∧ d ∈ entries) ∧
  (exists_path fs c1 = false → exists_path fs c2 = false →
   executed tr = [] ∧ announced tr = [] ∧ recorded tr = [] ∧
   exit_status (catch_exit (migrate pgliteDir) s).2 = 1 ∧
   (fs_mkdir fs pgliteDir = None →
    r = Exit 1 ∧ console_errors tr = [MsgNoRoot] ∧
    last tr = Some (ConsoleError MsgNoRoot))).
Proof.
  intros Hrun Htr fs c1 c2 root.
  assert (Hroot : root = (if exists_path fs c1 then c1 else if exists_path fs c2 then c2 else "")).
  { unfold root, resolve_root, candidates. fold c1 c2. rewrite !filter_cons, filter_nil.
    destruct (exists_path fs c1), (exists_path fs c2); by simpl. }
  assert (Hexists : root ≠ "" → exists_path fs root = true).
  { rewrite Hroot. destruct (exists_path fs c1) eqn:E1; [done|].
    destruct (exists_path fs c2) eqn:E2; done. }
  assert (Hready : ∀ root' dirs, startup pgliteDir s = Ready root' dirs →
     root' = root ∧ exists_path fs root' = true ∧ list_dirs fs root' = Returns dirs).
  { intros root' dirs. unfold startup. fold fs root.
    destruct (fs_mkdir fs pgliteDir); [done|]. destruct (decide (root = "")); [done|].
    destruct (list_dirs fs root) eqn:E; [|done]. intros [= <- <-]. auto. }
  split; [apply find_candidate_pure|]. split; [done|].
  split; [done|]. split; [|split; [|split]].
  - intros root' e. unfold startup. fold fs root.
    destruct (fs_mkdir fs pgliteDir); [done|]. destruct (decide (root = "")); [done|].
    destruct (list_dirs fs root) eqn:E; [done|]. intros [= <- <-]. auto.
  - intros dirs Hmk Hne Hdirs s2 loop.
    assert (Hs : startup pgliteDir s = Ready root dirs).
    { unfold startup. fold fs root. by rewrite Hmk, decide_False, Hdirs. }
    split; [|split].
    + rewrite <-Hrun, migrate_unfold, Hs. cbv zeta.
      assert (Hs2 : with_trace
                (with_trace (with_pg s (ensure_table (st_pg s)))
                   (st_trace s ++ [ConsoleLog (MsgMigrating pgliteDir);
                                   OpenStore pgliteDir; EnsureTable]))
                (st_trace
                   (with_trace (with_pg s (ensure_table (st_pg s)))
                      (st_trace s ++ [ConsoleLog (MsgMigrating pgliteDir);
                                      OpenStore pgliteDir; EnsureTable])) ++
                 [SelectApplied]) = s2).
      { unfold s2, with_trace, prologue. simpl. by rewrite <-app_assoc. }
      rewrite Hs2. fold loop. by destruct loop.
    + destruct (run_within_todo _ _ _ _ _ Hrun Htr) as (Hex & _).
      by rewrite (todo_when_ready _ _ _ _ Hs) in Hex.
    + destruct (migrate_run _ _ _ _ Hrun) as (tr0 & Htr0 & _ & Hout).
      same_trace Htr Htr0. unfold migrate_outcome in Hout. rewrite Hs in Hout.
      destruct Hout as (ltr & lr & -> & _ & Hout & _). rewrite announced_around.
      unfold loop_outcome in Hout. unfold fs. destruct lr as [n|e|code].
      * by destruct Hout as (_ & _ & -> & _).
      * destruct Hout as (done & d' & later & -> & _ & _ & -> & _). by destruct done.
      * destruct Hout as (_ & done & d' & later & cause & -> & _ & _ & -> & _).
        by destruct done.
  - intros d sql err Hin.
    destruct (migrate_events _ _ _ _ _ _ _ _ Hrun Htr Hin) as (root' & dirs & Hs & Hd & Hread).
    destruct (Hready _ _ Hs) as (-> & Hex & Hdirs).
    split; [intros Hnil; rewrite Hnil in Hex; by unfold exists_path in Hex|].
    split; [done|]. apply list_dirs_returns in Hdirs as (entries & Hrd & ->).
    exists entries. split; [done|]. unfold discovered in Hd.
    rewrite js_sort_perm in Hd. by apply list_elem_of_filter in Hd as [_ ?].
  - intros E1 E2. rewrite E1, E2 in Hroot. rewrite catch_exit_status, Hrun. simpl.
    apply migrate_run in Hrun as (tr0 & Htr0 & Hw & Hout).
    same_trace Htr Htr0. unfold migrate_outcome, startup in Hout. fold fs root in Hout.
    destruct (fs_mkdir fs pgliteDir) as [e|].
    { by destruct Hout as (-> & -> & _). }
    rewrite decide_True in Hout by done. by destruct Hout as (-> & -> & _).
Qed.

(** C8. The dispatcher looks at [process.argv[2]] and at nothing else of the
    command line: [migrate] and [serve] start their phase (with the rejection
    handler that ends the process with status 1); anything else, and no token
    at all, prints the usage text and ends the process, with status 0 for
    [--help] and [-h] and with status 1 otherwise. *)
Theorem dispatch_on_one_token s :
  let command := st_argv s !! 2%nat in
  let pgliteDir :=
    js_or (st_env s !! "PGLITE_DIR")
          (path_join [js_or (st_env s !! "DATA_DIR") "./data"; "pglite"]) in
  let status := if decide (command = Some "--help" ∨ command = Some "-h") then 0 else 1 in
  (command = Some "migrate" → main s = catch_exit (migrate pgliteDir) s) ∧
  (command = Some "serve" → main s = catch_exit (serve pgliteDir) s) ∧
  (command ≠ Some "migrate" → command ≠ Some "serve" →
   main s = (with_trace s (st_trace s ++ [ConsoleLog MsgUsage]), Exit status) ∧
   exit_status (main s).2 = status) ∧
  render MsgUsage = usage_text.
Proof.
  intros command pgliteDir status. unfold main. munfold. fold command pgliteDir.
  split; [|split; [|split; [|done]]].
  - intros E. by rewrite decide_True.
  - intros E. rewrite decide_False, decide_True; [done..|]. by rewrite E.
  - intros E1 E2. rewrite !decide_False by done.
    assert (Hst : (if bool_decide (command = Some "--help") || bool_decide (command = Some "-h")
                   then 0 else 1) = status).
    { unfold status. destruct (decide (command = Some "--help" ∨ command = Some "-h")) as [[E|E]|E].
      - by rewrite (bool_decide_eq_true_2 _ E).
      - rewrite (bool_decide_eq_true_2 (command = Some "-h") E). by rewrite orb_true_r.
      - rewrite !bool_decide_eq_false_2; [done|tauto..]. }
    rewrite Hst. done.
Qed.

(** C10, as the code has it.  Before it hands over to the server module
    [serve] writes at most one thing, the variable [PGLITE_DIR], and it does
    so exactly when [DATABASE_URL] is unset or empty; the value written is
    the one [PGLITE_DIR] has when that is not empty, and the default
    directory otherwise.  Every other variable, the store, the disk and the
    trace (so no store is opened) reach the server module as they were. *)
Theorem serve_touches_only_pglite_dir pgliteDir s :
  ∃ s0,
    serve pgliteDir s = import_main s0 ∧
    st_trace s0 = st_trace s ∧ st_pg s0 = st_pg s ∧ st_fs s0 = st_fs s ∧
    st_argv s0 = st_argv s ∧ st_cwd s0 = st_cwd s ∧ st_execPath s0 = st_execPath s ∧
    st_uuid s0 = st_uuid s ∧
    (∀ k, k ≠ "PGLITE_DIR" → st_env s0 !! k = st_env s !! k) ∧
    (js_not (st_env s !! "DATABASE_URL") = true ↔
     st_env s !! "DATABASE_URL" = None ∨ st_env s !! "DATABASE_URL" = Some "") ∧
    (js_not (st_env s !! "DATABASE_URL") = false → s0 = s) ∧
    (js_not (st_env s !! "DATABASE_URL") = true →
     st_env s0 = <["PGLITE_DIR" := js_or (st_env s !! "PGLITE_DIR") pgliteDir]> (st_env s)) ∧
    (∀ v, st_env s !! "PGLITE_DIR" = Some v → v ≠ "" → st_env s0 = st_env s).
Proof.
  assert (Hnot : js_not (st_env s !! "DATABASE_URL") = true ↔
     st_env s !! "DATABASE_URL" = None ∨ st_env s !! "DATABASE_URL" = Some "").
  { unfold js_not. destruct (st_env s !! "DATABASE_URL") as [x|]; [|by split; auto].
    rewrite bool_decide_eq_true. split; [intros ->; by right|].
    intros [?|[= ?]]; done. }
  unfold serve. munfold. simpl.
  destruct (js_not (st_env s !! "DATABASE_URL")) eqn:E; simpl.
  - eexists. split; [done|]. simpl. do 7 (split; [done|]).
    split; [intros k Hk; by rewrite lookup_insert_ne|].
    split; [done|]. split; [done|]. split; [done|].
    intros v Hv Hne. unfold js_or. rewrite Hv, decide_False by done.
    by apply insert_id.
  - exists s. split; [done|]. do 7 (split; [done|]). split; [done|].
    split; [done|]. split; [done|]. split; done.
Qed.

End Claims.

(** ** Further properties of the program *)

Section Extras.
Context `{Host}.

#[local] Arguments apply_loop : simpl never.

Lemma main_migrate s :
  st_argv s !! 2%nat = Some "migrate" →
  main s = catch_exit (migrate (pgliteDir_of (st_env s))) s.
Proof.
  intros E. unfold main, pgliteDir_of, dataDir_of. munfold. by rewrite decide_True.
Qed.

Lemma main_serve s :
  st_argv s !! 2%nat = Some "serve" →
  main s = catch_exit (serve (pgliteDir_of (st_env s))) s.
Proof.
  intros E. unfold main, pgliteDir_of, dataDir_of. munfold.
  rewrite decide_False, decide_True; [done..|]. by rewrite E.
Qed.

Lemma migrate_exit_code pgliteDir s s' code :
  migrate pgliteDir s = (s', Exit code) → code = 1.
Proof.
  intros (tr & _ & _ & Hout)%migrate_run. unfold migrate_outcome in Hout.
  destruct (startup pgliteDir s) as [e| |root e|root dirs].
  - by destruct Hout as (? & _).
  - destruct Hout as ([= ->] & _). done.
  - by destruct Hout as (? & _).
  - destruct Hout as (ltr & lr & _ & Hr & Hout & _).
    destruct lr as [n|e|c]; try done. injection Hr as ->. by destruct Hout as (-> & _).
Qed.

Lemma insert_ids_app tr1 tr2 : insert_ids (tr1 ++ tr2) = insert_ids tr1 ++ insert_ids tr2.
Proof. apply omap_app. Qed.

Lemma apply_unit_uuid root dir count s s' r :
  apply_unit root dir count s = (s', r) →
  ∃ tr n, st_trace s' = st_trace s ++ tr ∧ st_uuid s' = (st_uuid s + n)%nat ∧
          insert_ids tr = random_uuid <$> seq (st_uuid s) n.
Proof.
  unfold apply_unit. munfold. simpl.
  destruct (fs_readfile (st_fs s) (script_path root dir)) as [sql|e]; simpl.
  2:{ intros [= <- <-]. eexists _, 0%nat. simpl. by rewrite Nat.add_0_r. }
  destruct (run_script sql (st_pg s)) as [db [e|]]; simpl.
  { intros [= <- <-]. eexists _, 0%nat. simpl. rewrite <-!app_assoc, Nat.add_0_r. done. }
  destruct (insert_finished _ _ _) as [db' [e|]]; simpl;
    intros [= <- <-]; eexists _, 1%nat; simpl; rewrite <-!app_assoc, Nat.add_1_r; done.
Qed.

Lemma apply_loop_uuid root applied dirs : ∀ count s s' r,
  apply_loop root applied dirs count s = (s', r) →
  ∃ tr n, st_trace s' = st_trace s ++ tr ∧ st_uuid s' = (st_uuid s + n)%nat ∧
          insert_ids tr = random_uuid <$> seq (st_uuid s) n.
Proof.
  induction dirs as [|dir rest IH]; intros count s s' r Hrun.
  { injection Hrun as <- <-. exists [], 0%nat. by rewrite app_nil_r, Nat.add_0_r. }
  destruct (decide ((dir ∉ applied) ∧ has_script (st_fs s) root dir = true))
    as [[Happ Hscript]|Hskip].
  2:{ rewrite apply_loop_skip in Hrun by done. by eapply IH. }
  rewrite apply_loop_attempt in Hrun by done. unfold mbind, M_bind in Hrun.
  destruct (apply_unit root dir count s) as [s1 r1] eqn:Hunit.
  apply apply_unit_uuid in Hunit as (tr1 & n1 & Htr1 & Hu1 & Hids1).
  destruct r1 as [count1|e|code]; try (injection Hrun as <- <-; by exists tr1, n1).
  apply IH in Hrun as (tr2 & n2 & Htr2 & Hu2 & Hids2).
  exists (tr1 ++ tr2), (n1 + n2)%nat.
  rewrite Htr2, Htr1, Hu2, Hu1, insert_ids_app, Hids1, Hids2, Hu1, seq_app, fmap_app.
  split; [by rewrite app_assoc|]. split; [lia|done].
Qed.

Lemma migrate_uuid pgliteDir s s' r tr :
  migrate pgliteDir s = (s', r) → st_trace s' = st_trace s ++ tr →
  ∃ n, st_uuid s' = (st_uuid s + n)%nat ∧ insert_ids tr = random_uuid <$> seq (st_uuid s) n.
Proof.
  rewrite migrate_unfold. simpl.
  destruct (startup pgliteDir s) as [e| |root e|root dirs].
  - intros [= <- <-] Htr. simpl in Htr. apply app_inv_head in Htr as <-.
    exists 0%nat. by rewrite Nat.add_0_r.
  - intros [= <- <-] Htr. simpl in Htr. rewrite <-app_assoc in Htr.
    apply app_inv_head in Htr as <-. exists 0%nat. by rewrite Nat.add_0_r.
  - intros [= <- <-] Htr. simpl in Htr. apply app_inv_head in Htr as <-.
    exists 0%nat. by rewrite Nat.add_0_r.
  - destruct (apply_loop _ _ _ _ _) as [s3 lr] eqn:Hloop. intros [= <- <-] Htr.
    apply apply_loop_uuid in Hloop as (ltr & n & Hltr & Hu & Hids).
    simpl in Htr, Hltr, Hu, Hids. rewrite Hltr, <-!app_assoc in Htr.
    apply app_inv_head in Htr as <-. exists n. split; [done|].
    rewrite !insert_ids_app, Hids. simpl. by destruct lr; simpl; rewrite ?app_nil_r.
Qed.

(** X4.  The process started with [migrate] ends with status 0 or 1 and with no
    other: 0 exactly when [migrate] runs to its end, in which case the
    rejection handler adds nothing; 1 for every thrown error and every
    [process.exit] inside [migrate]. *)
Theorem migrate_exit_status s :
  st_argv s !! 2%nat = Some "migrate" →
  (exit_status (main s).2 = 0 ∨ exit_status (main s).2 = 1) ∧
  (exit_status (main s).2 = 0 ↔ (migrate (pgliteDir_of (st_env s)) s).2 = Ok tt) ∧
  ((migrate (pgliteDir_of (st_env s)) s).2 = Ok tt →
   main s = migrate (pgliteDir_of (st_env s)) s).
Proof.
  intros Hcmd. rewrite (main_migrate s Hcmd), catch_exit_status, catch_exit_result.
  destruct (migrate (pgliteDir_of (st_env s)) s) as [s' [[]|e|code]] eqn:Hrun; simpl.
  - split; [by left|]. split; done.
  - split; [by right|]. split; [split; done|done].
  - apply migrate_exit_code in Hrun as ->. split; [by right|]. split; [split; done|done].
Qed.

(** X5.  Every INSERT of a run gets an identifier of its own draw: the ids passed
    to the INSERTs are the values of [crypto.randomUUID()] for the draws that
    follow those made before, in order, one draw for each INSERT and none for
    a migration that is skipped or whose script fails; when the generator
    never repeats itself no two INSERTs of the run share an id. *)
Theorem insert_ids_are_fresh_draws pgliteDir s s' r tr :
  migrate pgliteDir s = (s', r) →
  st_trace s' = st_trace s ++ tr →
  st_uuid s' = (st_uuid s + length (insert_ids tr))%nat ∧
  insert_ids tr = random_uuid <$> seq (st_uuid s) (length (insert_ids tr)) ∧
  length (insert_ids tr) = length (insert_attempts tr) ∧
  (Inj (=) (=) random_uuid → NoDup (insert_ids tr)).
Proof.
  intros Hrun Htr. destruct (migrate_uuid _ _ _ _ _ Hrun Htr) as (n & Hu & Hids).
  assert (Hn : length (insert_ids tr) = n) by (by rewrite Hids, length_fmap, length_seq).
  rewrite Hn. split; [done|]. split; [done|]. split.
  - rewrite <-Hn. clear. induction tr as [|[] tr IH]; simpl; auto.
  - intros Hinj. rewrite Hids. apply NoDup_fmap_2; [done|]. apply NoDup_seq.
Qed.

Lemma rows_of_ensure_table db : rows_of (ensure_table db) = rows_of db.
Proof. unfold rows_of, ensure_table. destruct (tracking db) eqn:E; simpl; by rewrite ?E. Qed.

Lemma unique_keys_snoc rows row :
  unique_keys rows →
  migration_name row ∉ migration_name <$> rows → row_id row ∉ row_id <$> rows →
  unique_keys (rows ++ [row]).
Proof.
  intros [Hn Hi] Hname Hid. unfold unique_keys. rewrite !fmap_app. simpl.
  split; apply NoDup_app; (split; [done|]); (split; [|apply NoDup_singleton]);
    intros x Hx ->%list_elem_of_singleton; done.
Qed.

Lemma insert_finished_rows id name db db' err :
  insert_finished id name db = (db', err) →
  ∃ new, rows_of db' = rows_of db ++ new ∧ Forall engine_row new ∧
         migration_name <$> new = match err with None => [name] | Some _ => [] end ∧
         (unique_keys (rows_of db) → unique_keys (rows_of db')).
Proof.
  unfold insert_finished, rows_of. destruct (tracking db) as [rows|] eqn:E.
  2:{ intros [= <- <-]. exists []. by rewrite E, app_nil_r. }
  case_bool_decide as Hid.
  { intros [= <- <-]. exists []. by rewrite E, app_nil_r. }
  case_bool_decide as Hname.
  { intros [= <- <-]. exists []. by rewrite E, app_nil_r. }
  intros [= <- <-]. simpl. eexists [_]. split; [done|].
  split; [by repeat constructor|]. split; [done|].
  intros Huniq. by apply unique_keys_snoc.
Qed.

Lemma apply_unit_rows root dir count s s' r :
  scripts_keep_tracking →
  apply_unit root dir count s = (s', r) →
  ∃ tr new, st_trace s' = st_trace s ++ tr ∧
    rows_of (st_pg s') = rows_of (st_pg s) ++ new ∧ Forall engine_row new ∧
    migration_name <$> new = recorded tr ∧
    (unique_keys (rows_of (st_pg s)) → unique_keys (rows_of (st_pg s'))).
Proof.
  intros Hkeep. unfold apply_unit. munfold. simpl.
  destruct (fs_readfile (st_fs s) (script_path root dir)) as [sql|e]; simpl.
  2:{ intros [= <- <-]. eexists _, []. split; [reflexivity|]. by rewrite app_nil_r. }
  pose proof (Hkeep sql (st_pg s)) as Hk.
  destruct (run_script sql (st_pg s)) as [db [e|]]; simpl in *.
  { intros [= <- <-]. eexists _, []. simpl. rewrite <-!app_assoc.
    split; [reflexivity|]. rewrite app_nil_r. unfold rows_of. by rewrite Hk. }
  destruct (insert_finished _ _ _) as [db' err] eqn:Hins.
  apply insert_finished_rows in Hins as (new & Hrows & Heng & Hnames & Huniq).
  assert (Hdb : rows_of db = rows_of (st_pg s)) by (unfold rows_of; by rewrite Hk).
  rewrite Hdb in Hrows, Huniq.
  destruct err as [e|]; simpl; intros [= <- <-]; eexists _, new; simpl;
    rewrite <-!app_assoc; (split; [reflexivity|]); done.
Qed.

Lemma apply_loop_rows root applied dirs : ∀ count s s' r,
  scripts_keep_tracking →
  apply_loop root applied dirs count s = (s', r) →
  ∃ tr new, st_trace s' = st_trace s ++ tr ∧
    rows_of (st_pg s') = rows_of (st_pg s) ++ new ∧ Forall engine_row new ∧
    migration_name <$> new = recorded tr ∧
    (unique_keys (rows_of (st_pg s)) → unique_keys (rows_of (st_pg s'))).
Proof.
  induction dirs as [|dir rest IH]; intros count s s' r Hkeep Hrun.
  { injection Hrun as <- <-. exists [], []. by rewrite !app_nil_r. }
  destruct (decide ((dir ∉ applied) ∧ has_script (st_fs s) root dir = true))
    as [[Happ Hscript]|Hskip].
  2:{ rewrite apply_loop_skip in Hrun by done. by eapply IH. }
  rewrite apply_loop_attempt in Hrun by done. unfold mbind, M_bind in Hrun.
  destruct (apply_unit root dir count s) as [s1 r1] eqn:Hunit.
  apply apply_unit_rows in Hunit as (tr1 & new1 & Htr1 & Hrows1 & Heng1 & Hn1 & Hu1); [|done].
  destruct r1 as [count1|e|code]; try (injection Hrun as <- <-; by exists tr1, new1).
  apply IH in Hrun as (tr2 & new2 & Htr2 & Hrows2 & Heng2 & Hn2 & Hu2); [|done].
  exists (tr1 ++ tr2), (new1 ++ new2).
  split; [by rewrite Htr2, Htr1, app_assoc|]. split; [by rewrite Hrows2, Hrows1, app_assoc|].
  split; [by apply Forall_app|]. split; [|auto].
  by rewrite fmap_app, recorded_app, Hn1, Hn2.
Qed.

Lemma migrate_rows pgliteDir s s' r tr :
  scripts_keep_tracking →
  migrate pgliteDir s = (s', r) →
  st_trace s' = st_trace s ++ tr →
  (∃ new, rows_of (st_pg s') = rows_of (st_pg s) ++ new ∧ Forall engine_row new ∧
          migration_name <$> new = recorded tr) ∧
  (unique_keys (rows_of (st_pg s)) → unique_keys (rows_of (st_pg s'))).
Proof.
  intros Hkeep. rewrite migrate_unfold. simpl.
  destruct (startup pgliteDir s) as [e| |root e|root dirs].
  - intros [= <- <-] Htr. simpl in *. apply app_inv_head in Htr as <-.
    split; [exists []; by rewrite app_nil_r|]. done.
  - intros [= <- <-] Htr. simpl in *. rewrite <-app_assoc in Htr.
    apply app_inv_head in Htr as <-. rewrite rows_of_ensure_table.
    split; [exists []; by rewrite app_nil_r|]. done.
  - intros [= <- <-] Htr. simpl in *. apply app_inv_head in Htr as <-.
    rewrite rows_of_ensure_table.
    split; [exists []; by rewrite app_nil_r|]. done.
  - destruct (apply_loop _ _ _ _ _) as [s3 lr] eqn:Hloop. intros [= <- <-] Htr.
    apply apply_loop_rows in Hloop as (ltr & new & Hltr & Hrows & Heng & Hn & Hu); [|done].
    simpl in *. rewrite rows_of_ensure_table in Hrows, Hu.
    rewrite Hltr, <-!app_assoc in Htr. apply app_inv_head in Htr as <-.
    split; [|done]. exists new. split; [done|]. split; [done|].
    rewrite !recorded_app. simpl. by destruct lr; simpl; rewrite ?app_nil_r.
Qed.

(** X6.  What a run does to the tracking table when the migration scripts leave
    that table alone: rows are only appended, never changed or removed; the
    rows appended are those of the migrations recorded, in order, each as the
    INSERT writes it (finished at the instant it started, one step applied,
    no logs); names and ids that were unique stay unique; and the table
    exists after every run that got past the creation of the directory. *)
Theorem run_only_appends_rows pgliteDir s s' r tr :
  scripts_keep_tracking →
  migrate pgliteDir s = (s', r) →
  st_trace s' = st_trace s ++ tr →
  (∃ new, rows_of (st_pg s') = rows_of (st_pg s) ++ new ∧ Forall engine_row new ∧
          migration_name <$> new = recorded tr) ∧
  (unique_keys (rows_of (st_pg s)) → unique_keys (rows_of (st_pg s'))) ∧
  (fs_mkdir (st_fs s) pgliteDir = None → is_Some (tracking (st_pg s'))).
Proof.
  intros Hkeep Hrun Htr.
  destruct (migrate_rows _ _ _ _ _ Hkeep Hrun Htr) as [Hnew Huniq].
  split; [done|]. split; [done|]. intros Hmk.
  destruct (migrate_run _ _ _ _ Hrun) as (tr0 & _ & _ & Hout).
  unfold migrate_outcome, startup in Hout. rewrite Hmk in Hout.
  destruct (decide (_ = "")); [destruct Hout as (_ & _ & ->); apply ensure_table_is_Some|].
  destruct (list_dirs _ _); [|destruct Hout as (_ & _ & ->); apply ensure_table_is_Some].
  destruct Hout as (ltr & lr & _ & _ & _ & Hrows).
  destruct (ensure_table_is_Some (st_pg s)) as [rows Hr].
  destruct (Hrows Hkeep rows Hr) as (new & -> & _). eauto.
Qed.

Lemma apply_unit_recorded_new root dir count s s' r tr :
  scripts_keep_tracking →
  apply_unit root dir count s = (s', r) → st_trace s' = st_trace s ++ tr →
  ∀ d, d ∈ recorded tr → d ∉ migration_name <$> rows_of (st_pg s).
Proof.
  intros Hkeep. unfold apply_unit. munfold. simpl.
  destruct (fs_readfile (st_fs s) (script_path root dir)) as [sql|e]; simpl.
  2:{ intros [= <- <-] Htr. simpl in Htr. apply app_inv_head in Htr as <-.
      by intros d ?%elem_of_nil. }
  pose proof (Hkeep sql (st_pg s)) as Hk.
  destruct (run_script sql (st_pg s)) as [db [e|]]; simpl in *.
  { intros [= <- <-] Htr. simpl in Htr. rewrite <-!app_assoc in Htr.
    apply app_inv_head in Htr as <-. by intros d ?%elem_of_nil. }
  destruct (insert_finished _ _ _) as [db' [e|]] eqn:Hins; simpl;
    intros [= <- <-] Htr; simpl in Htr; rewrite <-!app_assoc in Htr;
    apply app_inv_head in Htr as <-; simpl.
  - by intros d ?%elem_of_nil.
  - intros d ->%list_elem_of_singleton.
    apply insert_finished_ok in Hins as (rows & row & Hr1 & _ & _ & _ & _ & _ & Hname & _).
    unfold rows_of. by rewrite <-Hk, Hr1.
Qed.

Lemma apply_loop_recorded_new root applied dirs : ∀ count s s' r tr,
  scripts_keep_tracking →
  apply_loop root applied dirs count s = (s', r) → st_trace s' = st_trace s ++ tr →
  ∀ d, d ∈ recorded tr → d ∉ migration_name <$> rows_of (st_pg s).
Proof.
  induction dirs as [|dir rest IH]; intros count s s' r tr Hkeep Hrun Htr.
  { injection Hrun as <- <-. rewrite <-(app_nil_r (st_trace s)) in Htr at 1.
    apply app_inv_head in Htr as <-. by intros d ?%elem_of_nil. }
  destruct (decide ((dir ∉ applied) ∧ has_script (st_fs s) root dir = true))
    as [[Happ Hscript]|Hskip].
  2:{ rewrite apply_loop_skip in Hrun by done. by eapply IH. }
  rewrite apply_loop_attempt in Hrun by done. unfold mbind, M_bind in Hrun.
  destruct (apply_unit root dir count s) as [s1 r1] eqn:Hunit.
  destruct (apply_unit_rows _ _ _ _ _ _ Hkeep Hunit) as (tr1 & new1 & Htr1 & Hrows1 & _).
  pose proof (apply_unit_recorded_new _ _ _ _ _ _ _ Hkeep Hunit Htr1) as Hnew1.
  destruct r1 as [count1|e|code];
    try (injection Hrun as <- <-; rewrite Htr1 in Htr; by apply app_inv_head in Htr as <-).
  destruct (apply_loop_rows _ _ _ _ _ _ _ Hkeep Hrun) as (tr2 & new2 & Htr2 & _).
  pose proof (IH _ _ _ _ _ Hkeep Hrun Htr2) as Hnew2.
  rewrite Htr2, Htr1, <-app_assoc in Htr. apply app_inv_head in Htr as <-.
  intros d. rewrite recorded_app, elem_of_app. intros [Hd|Hd]; [by apply Hnew1|].
  apply Hnew2 in Hd. rewrite Hrows1, fmap_app, elem_of_app in Hd. tauto.
Qed.

Lemma migrate_recorded_new pgliteDir s s' r tr :
  scripts_keep_tracking →
  migrate pgliteDir s = (s', r) → st_trace s' = st_trace s ++ tr →
  ∀ d, d ∈ recorded tr → d ∉ migration_name <$> rows_of (st_pg s).
Proof.
  intros Hkeep. rewrite migrate_unfold. simpl.
  destruct (startup pgliteDir s) as [e| |root e|root dirs].
  - intros [= <- <-] Htr. simpl in Htr. apply app_inv_head in Htr as <-.
    by intros d ?%elem_of_nil.
  - intros [= <- <-] Htr. simpl in Htr. rewrite <-app_assoc in Htr.
    apply app_inv_head in Htr as <-. by intros d ?%elem_of_nil.
  - intros [= <- <-] Htr. simpl in Htr. apply app_inv_head in Htr as <-.
    by intros d ?%elem_of_nil.
  - destruct (apply_loop _ _ _ _ _) as [s3 lr] eqn:Hloop. intros [= <- <-] Htr.
    destruct (apply_loop_rows _ _ _ _ _ _ _ Hkeep Hloop) as (ltr & new & Hltr & _).
    pose proof (apply_loop_recorded_new _ _ _ _ _ _ _ _ Hkeep Hloop Hltr) as Hnew.
    simpl in Htr, Hltr, Hnew. rewrite rows_of_ensure_table in Hnew.
    rewrite Hltr, <-!app_assoc in Htr. apply app_inv_head in Htr as <-.
    intros d Hd. apply Hnew. revert Hd. rewrite !recorded_app. simpl.
    by destruct lr; simpl; rewrite ?app_nil_r.
Qed.

(** X8.  A migration that has a row without a finish time stays unapplied, run
    after run.  The table allows one row for each name, so with scripts that
    leave the tracking table alone no run records a migration whose name is
    in the table already: after the run the name is still in the table and
    still not in the applied set.  When the script of such a migration is
    executed the run ends there with status 1, the INSERT being rejected if
    the script itself went through; and no run that has it on its to-do list
    completes. *)
Theorem row_without_finish_blocks_its_migration pgliteDir s s' r tr d :
  scripts_keep_tracking →
  migrate pgliteDir s = (s', r) →
  st_trace s' = st_trace s ++ tr →
  d ∈ migration_name <$> rows_of (st_pg s) →
  d ∉ applied_set (st_pg s) →
  (d ∉ recorded tr) ∧
  d ∈ migration_name <$> rows_of (st_pg s') ∧
  (d ∉ applied_set (st_pg s')) ∧
  (d ∈ executed tr →
   r = Exit 1 ∧ ∃ cause, failures tr = [(d, cause)] ∧
                         last tr = Some (ConsoleError (MsgFailed d cause))) ∧
  (d ∈ todo pgliteDir s → r ≠ Ok tt).
Proof.
  intros Hkeep Hrun Htr Hrow Hunf.
  assert (Hrec : d ∉ recorded tr).
  { intros Hd. by apply (migrate_recorded_new _ _ _ _ _ Hkeep Hrun Htr d Hd). }
  split; [done|]. split; [|split; [|split]].
  - destruct (migrate_rows _ _ _ _ _ Hkeep Hrun Htr) as ((new & -> & _) & _).
    rewrite fmap_app, elem_of_app. by left.
  - rewrite (run_applied_set _ _ _ _ _ Hkeep Hrun Htr), not_elem_of_union, elem_of_list_to_set.
    done.
  - destruct (migrate_run _ _ _ _ Hrun) as (tr0 & Htr0 & Hw & Hout). same_trace Htr Htr0.
    unfold migrate_outcome in Hout.
    destruct (startup pgliteDir s) as [e| |root e|root dirs];
      try (destruct Hout as (_ & -> & _); by intros ?%elem_of_nil).
    destruct Hout as (ltr & lr & -> & -> & Hout & _).
    rewrite recorded_around in Hrec. rewrite executed_around, failures_around.
    destruct lr as [n|e|code].
    + destruct Hout as (Hex & Hre & _). rewrite Hex, <-Hre. done.
    + destruct Hout as (done & d' & later & _ & Hex & Hre & _). rewrite Hex, <-Hre. done.
    + destruct Hout as (-> & done & d' & later & cause & _ & Hex & Hre & _ & Hfail & _ & Hlast & _).
      rewrite Hex, elem_of_app, list_elem_of_singleton. rewrite Hre in Hrec.
      intros [?| ->]; [done|]. split; [done|]. exists cause. split; [done|].
      simpl closing. by rewrite app_nil_r, last_app, Hlast.
  - intros Hd ->. destruct (run_report _ _ _ _ Hrun Htr) as (_ & _ & _ & _ & _ & Hre & _).
    by rewrite Hre in Hrec.
Qed.

Lemma filter_Forall_id {A} (P : A → Prop) `{!∀ x, Decision (P x)} (l : list A) :
  Forall P l → filter P l = l.
Proof. induction 1 as [|x l Hx _ IH]; [done|]. by rewrite filter_cons, decide_True, IH. Qed.

Lemma filter_not_in_prefix (done rest : list string) :
  NoDup (done ++ rest) → filter (λ x, x ∉ done) (done ++ rest) = rest.
Proof.
  intros (_ & Hdisj & _)%NoDup_app. rewrite filter_app.
  assert (Hnil : filter (λ x, x ∉ done) done = []).
  { destruct (filter _ done) as [|x l] eqn:E; [done|].
    assert (Hx : x ∈ filter (λ x, x ∉ done) done) by (rewrite E; left).
    apply list_elem_of_filter in Hx as [? ?]. done. }
  rewrite Hnil. simpl. apply filter_Forall_id. apply Forall_forall.
  intros x Hx Hin. by apply (Hdisj x).
Qed.

Lemma pending_union fs root applied (done dirs : list string) :
  pending fs root (applied ∪ list_to_set done) dirs =
  filter (λ x, x ∉ done) (pending fs root applied dirs).
Proof.
  unfold pending. rewrite list_filter_filter. apply list_filter_iff. intros x.
  rewrite not_elem_of_union, elem_of_list_to_set. tauto.
Qed.

Lemma has_script_ext fs fs' root d :
  (∀ q, fs_exists fs' q = fs_exists fs q) → has_script fs' root d = has_script fs root d.
Proof. intros Hex. unfold has_script. by rewrite Hex. Qed.

(** X7.  The next run takes up where this one stopped.  With scripts that leave
    the tracking table alone, on a listing without repeated names, the to-do
    list of a run is made of the migrations it recorded followed by the to-do
    list of the run that comes next on the same disk, however the first run
    ended; the answer is the same on a disk that differs only in what the
    files hold, so a script corrected after a failure is the first one the
    next run takes.  After a completed run nothing is left to do; after a
    run that stopped, the next one starts with the migration announced
    last. *)
Theorem next_run_takes_up_the_rest pgliteDir s s' r tr entries :
  scripts_keep_tracking →
  migrate pgliteDir s = (s', r) →
  st_trace s' = st_trace s ++ tr →
  fs_readdir (st_fs s) (resolve_root (st_fs s) (st_cwd s) (st_execPath s)) = Returns entries →
  NoDup entries →
  todo pgliteDir s = recorded tr ++ todo pgliteDir s' ∧
  (∀ fs2, fs_mkdir fs2 pgliteDir = fs_mkdir (st_fs s) pgliteDir →
          (∀ q, fs_exists fs2 q = fs_exists (st_fs s) q) →
          (∀ q, fs_readdir fs2 q = fs_readdir (st_fs s) q) →
          (∀ q, fs_isdir fs2 q = fs_isdir (st_fs s) q) →
          todo pgliteDir (with_fs s' fs2) = todo pgliteDir s') ∧
  (r = Ok tt → todo pgliteDir s' = []) ∧
  (∀ d, r ≠ Ok tt → last (announced tr) = Some d → head (todo pgliteDir s') = Some d).
Proof.
  intros Hkeep Hrun Htr Hentries Hnd.
  pose proof (todo_NoDup pgliteDir s entries Hentries Hnd) as Hnodup.
  pose proof (run_applied_set _ _ _ _ _ Hkeep Hrun Htr) as Hset.
  destruct (run_within_todo _ _ _ _ _ Hrun Htr) as (_ & _ & [rest Hrest] & _).
  destruct (migrate_run _ _ _ _ Hrun) as (tr0 & Htr0 & Hw & Hout).
  same_trace Htr Htr0.
  assert (Hnext : todo pgliteDir s' = rest).
  { unfold todo in *. rewrite (startup_same_world _ _ _ Hw).
    destruct (startup pgliteDir s) as [e| |root e|root dirs];
      try (by destruct (recorded tr), rest).
    replace (st_fs s') with (st_fs s) by (symmetry; apply Hw).
    rewrite Hset, pending_union, Hrest. apply filter_not_in_prefix. by rewrite <-Hrest. }
  split; [by rewrite Hnext|]. split; [|split].
  - intros fs2 Hmk Hex Hrd Hdir. destruct Hw as (_ & Hcwd & Hexec & _ & Hfs).
    unfold todo, startup. simpl. rewrite Hfs, Hcwd, Hexec, Hmk.
    rewrite (resolve_root_ext fs2 (st_fs s)) by (intros c _; unfold exists_path; by rewrite Hex).
    rewrite (list_dirs_ext (st_fs s) fs2) by done.
    destruct (fs_mkdir (st_fs s) pgliteDir); [done|]. destruct (decide (_ = "")); [done|].
    destruct (list_dirs _ _); [|done]. unfold pending. apply list_filter_iff. intros x.
    by rewrite (has_script_ext (st_fs s) fs2).
  - intros ->. rewrite Hnext.
    destruct (run_report _ _ _ _ Hrun Htr0) as (_ & _ & _ & _ & _ & Hrec & _).
    rewrite <-Hrec in Hrest at 1. rewrite <-(app_nil_r (recorded tr)) in Hrest at 1.
    by apply app_inv_head in Hrest.
  - intros d Hr Hlast. rewrite Hnext. unfold migrate_outcome, todo in *.
    destruct (startup pgliteDir s) as [e| |root e|root dirs];
      try (by destruct Hout as (_ & -> & _)).
    destruct Hout as (ltr & lr & -> & -> & Hout & _).
    rewrite announced_around in Hlast. rewrite recorded_around in Hrest.
    destruct lr as [n|e|code]; [done| |].
    + destruct Hout as (done & d' & later & Htodo & _ & Hrec & Hann & _).
      rewrite Hann, last_snoc in Hlast. injection Hlast as ->.
      rewrite Htodo, Hrec in Hrest. by apply app_inv_head in Hrest as <-.
    + destruct Hout as (_ & done & d' & later & cause & Htodo & _ & Hrec & Hann & _).
      rewrite Hann, last_snoc in Hlast. injection Hlast as ->.
      rewrite Htodo, Hrec in Hrest. by apply app_inv_head in Hrest as <-.
Qed.

Lemma stat_entries_throws fs root entries d e :
  d ∈ entries → fs_isdir fs (path_join [root; d]) = Throws e →
  ∃ e', stat_entries fs root entries = Throws e'.
Proof.
  induction entries as [|x l IH]; [by intros ?%elem_of_nil|].
  intros [->|Hin]%elem_of_cons Hd; simpl.
  - rewrite Hd. eauto.
  - destruct (fs_isdir fs (path_join [root; x])); [|eauto].
    destruct (IH Hin Hd) as [e' ->]. eauto.
Qed.

(** X9.  A script that is there and cannot be read (line 85 is outside the
    [try]).  A migration of the to-do list whose script [readFileSync]
    throws on is never executed and no run with it on the list completes.
    When the run gets to it (as it does when the migration is the first on
    the list) it announces it and ends with the error of [readFileSync]
    thrown on: no INSERT for it, no [Failed to apply] line, nothing written
    by [migrate] to the error stream; the migrations before it on the list
    are executed and recorded; the rejection handler of the command line
    prints the error and ends the process with status 1.  Otherwise the run
    stopped at an earlier migration. *)
Theorem unreadable_script_is_not_caught pgliteDir s s' r tr root dirs d e :
  migrate pgliteDir s = (s', r) →
  st_trace s' = st_trace s ++ tr →
  startup pgliteDir s = Ready root dirs →
  d ∈ todo pgliteDir s →
  fs_readfile (st_fs s) (script_path root d) = Throws e →
  (d ∉ executed tr) ∧ r ≠ Ok tt ∧
  (∀ later, todo pgliteDir s = d :: later → d ∈ announced tr) ∧
  (d ∈ announced tr →
   r = Throw e ∧
   (∃ done later,
      todo pgliteDir s = done ++ d :: later ∧
      executed tr = done ∧ recorded tr = done ∧ insert_attempts tr = done ∧
      announced tr = done ++ [d]) ∧
   failures tr = [] ∧ console_errors tr = [] ∧
   catch_exit (migrate pgliteDir) s =
     (with_trace s' (st_trace s' ++ [ConsoleError (MsgUncaught e)]), Exit 1)) ∧
  ((d ∉ announced tr) →
   ∃ done d' later,
     todo pgliteDir s = done ++ d' :: later ∧ announced tr = done ++ [d'] ∧ d ∈ later).
Proof.
  intros Hrun Htr Hs Hd Hread.
  assert (Hnex : d ∉ executed tr).
  { intros (sql & err & Hin)%executed_event.
    destruct (migrate_events _ _ _ _ _ _ _ _ Hrun Htr Hin) as (root' & dirs' & Hs' & _ & Hr).
    rewrite Hs in Hs'. injection Hs' as <- <-. by rewrite Hread in Hr. }
  pose proof (run_progress _ _ _ _ _ _ Hrun Htr Hd) as Hprog.
  split; [done|]. split; [|split; [|split]].
  - intros ->. destruct (run_report _ _ _ _ Hrun Htr) as (_ & _ & _ & _ & Hex & _).
    by rewrite Hex in Hnex.
  - intros later Hhead. destruct Hprog as [?|(pre & d' & later' & Htodo & Hann & _)]; [done|].
    rewrite Hann. rewrite Hhead in Htodo.
    destruct pre as [|x pre]; injection Htodo as -> _; [by left|by left].
  - intros Hann.
    destruct (run_announced _ _ _ _ _ _ _ _ Hrun Htr Hs Hann)
      as [?|(e' & pre & later & -> & Hread' & Htodo & Hrest)]; [done|].
    rewrite Hread in Hread'. injection Hread' as <-.
    split; [done|]. split; [exists pre, later; tauto|].
    split; [tauto|]. split; [tauto|]. by rewrite catch_exit_result, Hrun.
  - intros Hann. destruct Hprog as [?|(pre & d' & later & Htodo & Hann' & Hin & _)]; [done|].
    by exists pre, d', later.
Qed.

(** X10.  One entry of the migrations root that cannot be examined stops the run
    before anything is applied.  [statSync] is called on every entry of the
    listing, whatever it is; when it throws for one of them (a link that
    leads nowhere, say) the run ends with a thrown error right after the
    tracking table was made sure of: no query for the applied names, no
    script, no row, the database otherwise as it was, and status 1 from the
    rejection handler, even when every migration is applied already. *)
Theorem unexaminable_entry_stops_the_run pgliteDir s s' r tr entries d e :
  migrate pgliteDir s = (s', r) →
  st_trace s' = st_trace s ++ tr →
  fs_mkdir (st_fs s) pgliteDir = None →
  resolve_root (st_fs s) (st_cwd s) (st_execPath s) ≠ "" →
  fs_readdir (st_fs s) (resolve_root (st_fs s) (st_cwd s) (st_execPath s)) = Returns entries →
  d ∈ entries →
  fs_isdir (st_fs s) (path_join [resolve_root (st_fs s) (st_cwd s) (st_execPath s); d]) = Throws e →
  (∃ e', r = Throw e' ∧
         list_dirs (st_fs s) (resolve_root (st_fs s) (st_cwd s) (st_execPath s)) = Throws e' ∧
         catch_exit (migrate pgliteDir) s =
           (with_trace s' (st_trace s' ++ [ConsoleError (MsgUncaught e')]), Exit 1)) ∧
  tr = [ConsoleLog (MsgMigrating pgliteDir); OpenStore pgliteDir; EnsureTable] ∧
  st_pg s' = ensure_table (st_pg s) ∧
  userdb (st_pg s') = userdb (st_pg s) ∧ rows_of (st_pg s') = rows_of (st_pg s) ∧
  todo pgliteDir s = [].
Proof.
  intros Hrun Htr Hmk Hroot Hrd Hin Hstat.
  destruct (stat_entries_throws _ _ _ _ _ Hin Hstat) as [e' He'].
  assert (Hld : list_dirs (st_fs s) (resolve_root (st_fs s) (st_cwd s) (st_execPath s)) = Throws e')
    by (unfold list_dirs; by rewrite Hrd, He').
  assert (Hst : startup pgliteDir s =
                ListingFails (resolve_root (st_fs s) (st_cwd s) (st_execPath s)) e')
    by (unfold startup; by rewrite Hmk, decide_False, Hld).
  destruct (migrate_run _ _ _ _ Hrun) as (tr0 & Htr0 & Hw & Hout). same_trace Htr Htr0.
  unfold migrate_outcome in Hout. rewrite Hst in Hout. destruct Hout as (-> & -> & Hpg).
  split; [exists e'; by rewrite catch_exit_result, Hrun|].
  split; [done|]. split; [done|]. rewrite Hpg, rows_of_ensure_table.
  split; [unfold ensure_table; by destruct (tracking (st_pg s))|]. split; [done|].
  unfold todo. by rewrite Hst.
Qed.

Lemma js_or_idem a b : js_or a (js_or a b) = js_or a b.
Proof. unfold js_or. destruct a as [x|]; [|done]. by destruct (decide (x = "")). Qed.

Lemma serve_run pgliteDir s :
  serve pgliteDir s =
  import_main (if js_not (st_env s !! "DATABASE_URL")
               then with_env s (<["PGLITE_DIR" := js_or (st_env s !! "PGLITE_DIR") pgliteDir]>
                                  (st_env s))
               else s).
Proof. unfold serve. munfold. simpl. by destruct (js_not _). Qed.

Lemma catch_exit_ext p q s s0 : p s = q s0 → catch_exit p s = catch_exit q s0.
Proof. intros E. by rewrite !catch_exit_result, E. Qed.

Lemma filter_not_in_self (l : list string) : filter (λ x, x ∉ l) l = [].
Proof.
  destruct (filter _ l) as [|x k] eqn:E; [done|].
  assert (Hx : x ∈ filter (λ x, x ∉ l) l) by (rewrite E; left).
  by apply list_elem_of_filter in Hx as [? ?].
Qed.

Lemma todo_after_complete_run pgliteDir s s' :
  scripts_keep_tracking → migrate pgliteDir s = (s', Ok tt) →
  todo pgliteDir s' = [] ∧
  applied_set (st_pg s') = applied_set (st_pg s) ∪ list_to_set (todo pgliteDir s).
Proof.
  intros Hkeep Hrun. destruct (migrate_run _ _ _ _ Hrun) as (tr & Htr & Hw & _).
  pose proof (run_applied_set _ _ _ _ _ Hkeep Hrun Htr) as Hset.
  destruct (run_report _ _ _ _ Hrun Htr) as (_ & _ & _ & _ & _ & Hrec & _).
  rewrite Hrec in Hset. split; [|done].
  unfold todo in *. rewrite (startup_same_world _ _ _ Hw).
  destruct (startup pgliteDir s); try done.
  replace (st_fs s') with (st_fs s) by (symmetry; apply Hw).
  rewrite Hset, pending_union. apply filter_not_in_self.
Qed.

Lemma todo_ext pgliteDir s1 s2 :
  st_fs s2 = st_fs s1 → st_cwd s2 = st_cwd s1 → st_execPath s2 = st_execPath s1 →
  st_pg s2 = st_pg s1 → todo pgliteDir s2 = todo pgliteDir s1.
Proof. intros Hfs Hcwd Hexec Hpg. unfold todo, startup. by rewrite Hfs, Hcwd, Hexec, Hpg. Qed.

Lemma container_cmd_eq s :
  container_cmd s =
  let '(s1, r1) := main (with_argv s [st_execPath s; "sources/standalone.ts"; "migrate"]) in
  if decide (exit_status r1 = 0)
  then main (with_argv (with_env s1 (st_env s)) [st_execPath s; "sources/standalone.ts"; "serve"])
  else (s1, r1).
Proof. done. Qed.

(** X11.  The command of the container image (Dockerfile, line 59), in
    whatever environment the container has; with the [PGLITE_DIR] of line 48
    the store is at that place.  The server is started only after a run of
    [migrate] that went to its end: when [migrate] stops, the container ends
    with status 1 and the server module is never loaded.  Otherwise the
    server module starts on the store [migrate] left, in the environment of
    the container, in which [PGLITE_DIR] holds the very directory [migrate]
    opened when no [DATABASE_URL] is given; with scripts that leave the
    tracking table alone, no migration of the image is pending when the
    server starts. *)
Theorem container_serves_after_migrate s :
  let pgliteDir := pgliteDir_of (st_env s) in
  let sm := with_argv s [st_execPath s; "sources/standalone.ts"; "migrate"] in
  (∀ v, st_env s !! "PGLITE_DIR" = Some v → v ≠ "" → pgliteDir = v) ∧
  ((migrate pgliteDir sm).2 ≠ Ok tt →
   container_cmd s = catch_exit (migrate pgliteDir) sm ∧
   exit_status (container_cmd s).2 = 1) ∧
  ((migrate pgliteDir sm).2 = Ok tt →
   ∃ s0, container_cmd s = catch_exit import_main s0 ∧
     st_pg s0 = st_pg (migrate pgliteDir sm).1 ∧
     st_trace s0 = st_trace (migrate pgliteDir sm).1 ∧
     (∀ k, k ≠ "PGLITE_DIR" → st_env s0 !! k = st_env s !! k) ∧
     (js_not (st_env s !! "DATABASE_URL") = true → st_env s0 !! "PGLITE_DIR" = Some pgliteDir) ∧
     (js_not (st_env s !! "DATABASE_URL") = false → st_env s0 = st_env s) ∧
     (scripts_keep_tracking →
      todo pgliteDir s0 = [] ∧ ∀ d, d ∈ todo pgliteDir sm → d ∈ applied_set (st_pg s0))).
Proof.
  intros pgliteDir sm.
  split.
  { intros v Hv Hne. unfold pgliteDir, pgliteDir_of, js_or. by rewrite Hv, decide_False. }
  assert (Hm : main sm = catch_exit (migrate pgliteDir) sm) by exact (main_migrate sm eq_refl).
  rewrite container_cmd_eq. fold sm. rewrite Hm, catch_exit_result.
  destruct (migrate pgliteDir sm) as [s1 r1] eqn:Hrun. simpl fst. simpl snd.
  destruct r1 as [[]|e|code].
  - split; [done|]. intros _. rewrite decide_True by done.
    set (sv := with_argv (with_env s1 (st_env s)) [st_execPath s; "sources/standalone.ts"; "serve"]).
    rewrite (main_serve sv eq_refl). change (pgliteDir_of (st_env sv)) with pgliteDir.
    eexists. split; [apply catch_exit_ext, serve_run|].
    change (st_env sv) with (st_env s).
    destruct (migrate_run _ _ _ _ Hrun) as (tr & _ & (_ & Hcwd & Hexec & _ & Hfs) & _).
    assert (Htodo : ∀ s0, st_fs s0 = st_fs s1 → st_cwd s0 = st_cwd s1 →
              st_execPath s0 = st_execPath s1 → st_pg s0 = st_pg s1 →
              scripts_keep_tracking →
              todo pgliteDir s0 = [] ∧ ∀ d, d ∈ todo pgliteDir sm → d ∈ applied_set (st_pg s0)).
    { intros s0 E1 E2 E3 E4 Hkeep. rewrite (todo_ext _ s1 s0), E4 by done.
      destruct (todo_after_complete_run _ _ _ Hkeep Hrun) as [Hnil Hset].
      split; [done|]. intros d Hd. rewrite Hset, elem_of_union, elem_of_list_to_set. by right. }
    destruct (js_not (st_env s !! "DATABASE_URL")) eqn:E.
    + split; [done|]. split; [done|].
      split; [intros k Hk; simpl; by rewrite lookup_insert_ne|].
      split; [intros _; simpl; unfold pgliteDir, pgliteDir_of; by rewrite js_or_idem, lookup_insert_eq|].
      split; [done|]. by apply Htodo.
    + split; [done|]. split; [done|].
      split; [done|]. split; [done|]. split; [done|]. by apply Htodo.
  - split; [|done]. intros _. by rewrite decide_False.
  - apply migrate_exit_code in Hrun as ->. split; [|done]. intros _. by rewrite decide_False.
Qed.

End Extras.

(** ** The key normalisation *)


Lemma chars_replace_all a b s :
  chars (replace_all a b s) = (fun c => if Ascii.eqb c a then b else c) <$> chars s.
Proof. induction s as [|c s IH]; simpl; [done|]. by rewrite IH. Qed.

Lemma replace_all_absent a b s : a ∉ chars s → replace_all a b s = s.
Proof.
  induction s as [|c s IH]; simpl; [done|]. rewrite not_elem_of_cons. intros [Hne Hs].
  rewrite IH by done. destruct (Ascii.eqb_spec c a); [congruence|done].
Qed.

Lemma replace_all_gone a b s : a ≠ b → a ∉ chars (replace_all a b s).
Proof.
  intros Hab. induction s as [|c s IH]; simpl; [by intros ?%elem_of_nil|].
  rewrite not_elem_of_cons. split; [|done].
  destruct (Ascii.eqb_spec c a); congruence.
Qed.

Lemma replace_all_keeps_absent a b x s :
  x ≠ b → x ∉ chars s → x ∉ chars (replace_all a b s).
Proof.
  intros Hxb. induction s as [|c s IH]; simpl; [done|].
  rewrite !not_elem_of_cons. intros [Hx Hs]. split; [|auto].
  destruct (Ascii.eqb c a); congruence.
Qed.

Lemma strip_padding_last s : last (chars (strip_padding s)) ≠ Some "="%char.
Proof.
  induction s as [|c s IH]; simpl; [done|].
  destruct (Ascii.eqb_spec c "="%char) as [->|Hc]; simpl.
  - case_bool_decide as Hr; simpl; [done|].
    destruct (strip_padding s) as [|c' r]; [done|]. exact IH.
  - destruct (strip_padding s) as [|c' r]; simpl; [congruence|]. exact IH.
Qed.

Lemma strip_padding_id s : last (chars s) ≠ Some "="%char → strip_padding s = s.
Proof.
  induction s as [|c s IH]; simpl; [done|]. intros Hlast.
  destruct s as [|c' s].
  - simpl in *. destruct (Ascii.eqb_spec c "="%char) as [->|Hc]; simpl; congruence.
  - rewrite IH by exact Hlast. rewrite bool_decide_eq_false_2 by done.
    by rewrite andb_false_r.
Qed.

Lemma strip_padding_sub x s : x ∈ chars (strip_padding s) → x ∈ chars s.
Proof.
  induction s as [|c s IH]; simpl; [done|].
  destruct (Ascii.eqb c "="%char && bool_decide (strip_padding s = "")); simpl.
  - by intros ?%elem_of_nil.
  - rewrite !elem_of_cons. intros [->|?]; auto.
Qed.

Lemma strip_padding_app s n :
  last (chars s) ≠ Some "="%char → strip_padding (s +:+ padding n) = s.
Proof.
  intros Hlast. assert (Hpad : strip_padding (padding n) = "").
  { induction n as [|n IH]; simpl; [done|]. by rewrite IH. }
  induction s as [|c s IH]; simpl; [done|].
  destruct s as [|c' s].
  - clear IH. change ("" +:+ padding n) with (padding n). rewrite Hpad.
    rewrite bool_decide_eq_true_2, andb_true_r by done. simpl in Hlast.
    destruct (Ascii.eqb_spec c "="%char); congruence.
  - rewrite IH by exact Hlast. rewrite bool_decide_eq_false_2 by done.
    by rewrite andb_false_r.
Qed.

Lemma base64url_of_url_safe s : url_safe (base64url_of s).
Proof.
  unfold base64url_of. split; [|split].
  - intros Hin%strip_padding_sub. revert Hin.
    apply replace_all_keeps_absent; [done|]. by apply replace_all_gone.
  - intros Hin%strip_padding_sub. revert Hin. by apply replace_all_gone.
  - apply strip_padding_last.
Qed.

Lemma base64url_of_fixed s : base64url_of s = s ↔ url_safe s.
Proof.
  split.
  - intros <-. apply base64url_of_url_safe.
  - intros (Hplus & Hslash & Hlast). unfold base64url_of.
    by rewrite (replace_all_absent "+"), (replace_all_absent "/"), strip_padding_id.
Qed.

Lemma chars_app s t : chars (s +:+ t) = chars s ++ chars t.
Proof. induction s as [|c s IH]; simpl; [done|]. by rewrite IH. Qed.

Lemma replace_all_app a b s t :
  replace_all a b (s +:+ t) = replace_all a b s +:+ replace_all a b t.
Proof. induction s as [|c s IH]; simpl; [done|]. by rewrite IH. Qed.

Lemma replace_all_padding a b n : a ≠ "="%char → replace_all a b (padding n) = padding n.
Proof.
  intros Ha. induction n as [|n IH]; [done|]. cbn [padding replace_all]. rewrite IH.
  destruct (Ascii.eqb_spec "="%char a) as [E|E]; [by destruct Ha|done].
Qed.

Lemma base64url_of_idem s : base64url_of (base64url_of s) = base64url_of s.
Proof. apply base64url_of_fixed, base64url_of_url_safe. Qed.

Lemma base64url_char_replaced c :
  base64_char c →
  base64url_char (if Ascii.eqb (if Ascii.eqb c "+"%char then "-"%char else c) "/"%char
                  then "_"%char
                  else if Ascii.eqb c "+"%char then "-"%char else c).
Proof.
  intros [Hc|[->| ->]]; [|right; by left|right; by right].
  destruct (Ascii.eqb_spec c "+"%char) as [->|H1]; [right; by left|].
  destruct (Ascii.eqb_spec c "/"%char) as [->|H2]; [right; by right|]. by left.
Qed.

Lemma padding_is_not_base64url : ¬ base64url_char "="%char.
Proof.
  unfold base64url_char, alnum. change (nat_of_ascii "="%char) with 61%nat.
  intros [[H|[H|H]]|[H|H]]; try lia; done.
Qed.

Lemma lookup_fix_field m a k :
  fix_field m a !! k =
  match m !! k with
  | Some (JsString s) => Some (JsString (if decide (k = a) then base64url_of s else s))
  | o => o
  end.
Proof.
  unfold fix_field. destruct (decide (k = a)) as [->|Hne].
  - destruct (m !! a) as [[s|t]|] eqn:E; rewrite ?lookup_insert_eq, ?E; done.
  - destruct (m !! a) as [[s|t]|] eqn:E; rewrite ?lookup_insert_ne by done;
      by destruct (m !! k) as [[?|?]|].
Qed.

Lemma lookup_foldl_fix_field l : ∀ m k,
  foldl fix_field m l !! k =
  match m !! k with
  | Some (JsString s) => Some (JsString (if decide (k ∈ l) then base64url_of s else s))
  | o => o
  end.
Proof.
  induction l as [|a l IH]; intros m k; simpl.
  - by destruct (m !! k) as [[s|t]|].
  - rewrite IH, lookup_fix_field. destruct (m !! k) as [[s|t]|]; try done.
    do 2 f_equal. destruct (decide (k = a)) as [->|Hne].
    + rewrite (decide_True (P := a ∈ a :: l)) by left.
      destruct (decide (a ∈ l)); [apply base64url_of_idem|done].
    + destruct (decide (k ∈ l)) as [Hin|Hout].
      * by rewrite decide_True by (by right).
      * rewrite decide_False; [done|]. rewrite elem_of_cons. tauto.
Qed.

Section ImportKey.
Context {X R : Type} (origImportKey : JsVal → KeyData → X → X → X → R).

(** X2.  The text the patch puts in a field (line 12) has no [+], no [/] and
    does not end in [=], whatever the field held; a text is left as it is
    exactly when it had that form already, so normalising twice changes
    nothing more; and the text never gets longer. *)
Theorem base64url_of_is_url_safe s :
  url_safe (base64url_of s) ∧
  (base64url_of s = s ↔ url_safe s) ∧
  base64url_of (base64url_of s) = base64url_of s ∧
  (String.length (base64url_of s) ≤ String.length s)%nat.
Proof.
  split; [apply base64url_of_url_safe|]. split; [apply base64url_of_fixed|].
  split; [apply base64url_of_idem|].
  unfold base64url_of.
  assert (Hs : ∀ t, (String.length (strip_padding t) ≤ String.length t)%nat).
  { induction t as [|c t IH]; simpl; [done|].
    destruct (Ascii.eqb c "="%char && bool_decide (strip_padding t = "")); simpl; lia. }
  assert (Hr : ∀ a b t, String.length (replace_all a b t) = String.length t).
  { intros a b. induction t as [|c t IH]; simpl; [done|]. by rewrite IH. }
  etrans; [apply Hs|]. by rewrite !Hr.
Qed.

(** X3.  On standard base64, that is a body over [A-Z a-z 0-9 + /] followed by
    any number of [=], line 12 gives the base64url text of the same bytes:
    the body with [-] for [+] and [_] for [/], all of the padding removed
    and nothing else, every character in the base64url alphabet. *)
Theorem base64_becomes_base64url body n :
  Forall base64_char (chars body) →
  base64url_of (body +:+ padding n) =
    replace_all "/"%char "_"%char (replace_all "+"%char "-"%char body) ∧
  Forall base64url_char (chars (base64url_of (body +:+ padding n))) ∧
  String.length (base64url_of (body +:+ padding n)) = String.length body.
Proof.
  intros Hbody.
  assert (Hurl : Forall base64url_char
            (chars (replace_all "/"%char "_"%char (replace_all "+"%char "-"%char body)))).
  { rewrite !chars_replace_all, <-list_fmap_compose.
    apply Forall_fmap. eapply Forall_impl; [exact Hbody|].
    intros c Hc. simpl. by apply base64url_char_replaced. }
  assert (Heq : base64url_of (body +:+ padding n) =
    replace_all "/"%char "_"%char (replace_all "+"%char "-"%char body)).
  { unfold base64url_of. rewrite !replace_all_app, !replace_all_padding by done.
    apply strip_padding_app. intros Hlast.
    apply last_Some_elem_of in Hlast. rewrite Forall_forall in Hurl.
    by apply padding_is_not_base64url, Hurl. }
  rewrite Heq. split; [done|]. split; [done|].
  assert (Hr : ∀ a b t, String.length (replace_all a b t) = String.length t).
  { intros a b. induction t as [|c t IH]; simpl; [done|]. by rewrite IH. }
  by rewrite !Hr.
Qed.

(** X1.  The function installed as [crypto.subtle.importKey] (lines 7-18) calls
    the original exactly once, with the format, algorithm, extractable flag
    and usages it was given.  The key data is passed on as it is unless the
    format is ['jwk'] and the key data is an object; then the original
    receives an object with the same properties in which the string values
    of the eleven JWK fields are normalised and every other value is
    untouched: other properties, and values of those fields that are not
    strings.  A key that is in base64url form already reaches the original
    unchanged. *)
Theorem importKey_normalises_jwk format keyData algorithm extractable keyUsages :
  ∃ keyData',
    importKey origImportKey format keyData algorithm extractable keyUsages =
      origImportKey format keyData' algorithm extractable keyUsages ∧
    (format ≠ JsString "jwk" → keyData' = keyData) ∧
    (∀ tag, keyData = KeyOther tag → keyData' = keyData) ∧
    (∀ props, format = JsString "jwk" → keyData = KeyObject props →
       ∃ props', keyData' = KeyObject props' ∧
         dom props' = dom props ∧
         (∀ k, props' !! k =
               match props !! k with
               | Some (JsString s) =>
                   Some (JsString (if decide (k ∈ jwk_fields) then base64url_of s else s))
               | o => o
               end) ∧
         ((∀ k s, k ∈ jwk_fields → props !! k = Some (JsString s) → url_safe s) →
          props' = props)).
Proof.
  unfold importKey. destruct keyData as [props|tag].
  2:{ exists (KeyOther tag). by repeat split. }
  destruct (decide (format = JsString "jwk")) as [Hf|Hf].
  2:{ exists (KeyObject props). repeat split; try done. }
  exists (KeyObject (fix_jwk props)). split; [done|]. split; [done|]. split; [done|].
  intros props0 _ [= <-]. exists (fix_jwk props). split; [done|].
  assert (Hlookup : ∀ k, fix_jwk props !! k =
               match props !! k with
               | Some (JsString s) =>
                   Some (JsString (if decide (k ∈ jwk_fields) then base64url_of s else s))
               | o => o
               end) by (intros k; apply lookup_foldl_fix_field).
  split; [|split; [done|]].
  - apply set_eq. intros k. rewrite !elem_of_dom, Hlookup.
    destruct (props !! k) as [[s|t]|]; by rewrite ?is_Some_alt.
  - intros Hsafe. apply map_eq. intros k. rewrite Hlookup.
    destruct (props !! k) as [[s|t]|] eqn:E; try done.
    destruct (decide (k ∈ jwk_fields)) as [Hk|Hk]; [|done].
    do 2 f_equal. apply base64url_of_fixed. by eapply Hsafe.
Qed.

End ImportKey.

(** ** Concrete runs *)

Lemma scriptless_entry_is_skipped_witness :
  let s := demo_fresh in
  let res := migrate "/data/pglite" s in
  untouched "drafts" (st_trace res.1) ∧
  (res.2 = Ok tt →
   ∃ tr0, st_trace res.1 =
          tr0 ++ [ConsoleLog (report (length (recorded (st_trace res.1)))); CloseStore]) ∧
  (scripts_keep_tracking →
   ("drafts" ∈ applied_set (st_pg res.1) ↔ "drafts" ∈ applied_set (st_pg s))) ∧
  migrate "/data/pglite" (with_fs s (hide_entry demo_disk demo_root "drafts")) =
  (with_fs res.1 (hide_entry demo_disk demo_root "drafts"), res.2).
Proof.
  intros s res.
  apply (scriptless_entry_is_skipped (H := demo_host) "/data/pglite" s res.1 res.2 (st_trace res.1) "drafts").
  - apply surjective_pairing.
  - reflexivity.
  - left. split; vm_compute; reflexivity.
Defined.

(** The lock file of the root, which is not a directory, is passed over as
    well. *)
Example lock_file_is_ignored :
  let res := migrate "/data/pglite" demo_fresh in
  fs_isdir demo_disk (demo_root +:+ "/migration_lock.toml") = Returns false ∧
  announced (st_trace res.1) = ["0001_init"; "0002_add_index"; "0010_later"] ∧
  console_errors (st_trace res.1) = [] ∧ res.2 = Ok tt.
Proof. vm_compute. repeat split; reflexivity. Qed.

Lemma run_with_result {A B} (p : A * B) (b : B) : p.2 = b → p = (p.1, b).
Proof. destruct p. simpl. by intros ->. Qed.

Lemma demo_scripts_keep_tracking : scripts_keep_tracking (H := demo_host).
Proof. intros sql db. simpl. by destruct (decide (sql = "SELECT 1/0;")). Qed.

Lemma second_run_applies_nothing_witness :
  let run1 := migrate "/data/pglite" demo_fresh in
  let run2 := migrate "/data/pglite" run1.1 in
  run2.2 = Ok tt ∧
  st_trace run2.1 =
    st_trace run1.1 ++ prologue "/data/pglite" ++ [ConsoleLog MsgNoNew; CloseStore] ∧
  st_pg run2.1 = st_pg run1.1.
Proof.
  intros run1 run2.
  destruct (second_run_applies_nothing (H := demo_host) "/data/pglite"
              demo_fresh run1.1 run2.1 run2.2) as (H1 & H2 & H3 & _).
  - exact demo_scripts_keep_tracking.
  - apply run_with_result. vm_compute. reflexivity.
  - apply surjective_pairing.
  - auto.
Defined.

Lemma migrations_run_in_lexical_order_witness :
  let res := migrate "/data/pglite" demo_fresh in
  StronglySorted name_lt (executed (st_trace res.1)) ∧
  StronglySorted byte_lt (executed (st_trace res.1)) ∧
  executed (st_trace res.1) = ["0001_init"; "0002_add_index"; "0010_later"].
Proof.
  intros res.
  destruct (migrations_run_in_lexical_order (H := demo_host) "/data/pglite"
              demo_fresh res.1 res.2 (st_trace res.1)
              ["0010_later"; "migration_lock.toml"; "0001_init"; "0002_add_index"; "drafts"])
    as (Hsorted & Hbytes & _).
  - apply surjective_pairing.
  - reflexivity.
  - vm_compute. reflexivity.
  - apply (bool_decide_unpack _). vm_compute. exact I.
  - split; [exact Hsorted|]. split; [|vm_compute; reflexivity].
    apply Hbytes. apply (bool_decide_unpack _). vm_compute. exact I.
Defined.

Lemma first_failure_stops_the_run_witness :
  let res := migrate "/data/pglite" demo_failing in
  res.2 = Exit 1 ∧
  last (st_trace res.1) =
    Some (ConsoleError (MsgFailed "0002_add_index" "division by zero")) ∧
  executed (st_trace res.1) = ["0001_init"; "0002_add_index"] ∧
  recorded (st_trace res.1) = ["0001_init"].
Proof.
  intros res.
  destruct (first_failure_stops_the_run (H := demo_host) "/data/pglite"
              demo_failing res.1 res.2 (st_trace res.1)
              "0002_add_index" "division by zero")
    as (Hexit & _ & Hlast & _).
  - apply surjective_pairing.
  - reflexivity.
  - apply (bool_decide_unpack _). vm_compute. exact I.
  - split; [exact Hexit|]. split; [exact Hlast|]. split; vm_compute; reflexivity.
Defined.

Lemma unfinished_row_does_not_count_witness :
  let res := migrate "/data/pglite" demo_half_done in
  ("0002_add_index" ∉ applied_set half_done_db) ∧
  "0002_add_index" ∈ todo "/data/pglite" demo_half_done ∧
  "0002_add_index" ∈ executed (st_trace res.1) ∧
  untouched "0001_init" (st_trace res.1).
Proof.
  intros res.
  destruct (unfinished_row_does_not_count (H := demo_host) "/data/pglite"
              demo_half_done res.1 res.2 (st_trace res.1))
    as (_ & _ & Hskip & Hretry).
  - apply surjective_pairing.
  - reflexivity.
  - destruct (Hretry demo_root ["0001_init"; "0002_add_index"; "0010_later"; "drafts"]
                [ mkRow "a1" "0001_init" (Some 7%nat) 7 1 None;
                  mkRow "a2" "0002_add_index" None 8 0 None ]
                "0002_add_index") as (Hnot & Htodo & _ & Hexec & _).
    + vm_compute. reflexivity.
    + apply (bool_decide_unpack _). vm_compute. exact I.
    + vm_compute. reflexivity.
    + reflexivity.
    + intros row Hrow Hname. apply elem_of_cons in Hrow as [->|Hrow]; [done|].
      apply list_elem_of_singleton in Hrow as ->. reflexivity.
    + split; [exact Hnot|]. split; [exact Htodo|]. split.
      * destruct Hexec as [Hex|(e & Hread & _)]; [|exact Hex|].
        -- apply (bool_decide_unpack _). vm_compute. exact I.
        -- vm_compute in Hread. discriminate Hread.
      * apply Hskip. apply (bool_decide_unpack _). vm_compute. exact I.
Defined.

Lemma applied_count_is_exact_witness :
  let res := migrate "/data/pglite" demo_fresh in
  (∃ tr0, st_trace res.1 =
          tr0 ++ [ConsoleLog (report (length (recorded (st_trace res.1)))); CloseStore]) ∧
  report (length (recorded (st_trace res.1))) = MsgApplied 3 ∧
  recorded (st_trace res.1) = executed (st_trace res.1).
Proof.
  intros res.
  destruct (applied_count_is_exact (H := demo_host) "/data/pglite"
              demo_fresh res.1 res.2 (st_trace res.1)) as (Hok & _).
  - apply surjective_pairing.
  - reflexivity.
  - destruct Hok as ((tr0 & Heq & _) & Hsame & _); [vm_compute; reflexivity|].
    split; [by exists tr0|]. split; [|exact Hsame]. vm_compute. reflexivity.
Defined.

Lemma root_resolution_order_witness :
  let s := demo_two_roots in
  let res := migrate "/data/pglite" s in
  resolve_root (st_fs s) (st_cwd s) (st_execPath s) = demo_root ∧
  (∀ d sql err, ExecScript d sql err ∈ st_trace res.1 →
     fs_readfile (st_fs s)
       (path_join [resolve_root (st_fs s) (st_cwd s) (st_execPath s); d; "migration.sql"]) =
     Returns sql) ∧
  executed (st_trace res.1) = ["0001_init"] ∧
  userdb (st_pg res.1) = ["CREATE TABLE account (id TEXT);"].
Proof.
  intros s res.
  assert (Hroot : resolve_root (st_fs s) (st_cwd s) (st_execPath s) = demo_root)
    by (vm_compute; reflexivity).
  destruct (root_resolution_order (H := demo_host) "/data/pglite"
              s res.1 res.2 (st_trace res.1)) as (_ & _ & _ & _ & _ & Hev & _).
  - apply surjective_pairing.
  - reflexivity.
  - split; [exact Hroot|]. split; [|split; vm_compute; reflexivity].
    intros d sql err Hin. destruct (Hev d sql err Hin) as (_ & Hread & _).
    exact Hread.
Defined.

(** The root beside the executable is used when there is none under the
    working directory, and without any root nothing is run. *)
Example root_beside_the_executable :
  let res := migrate "/data/pglite" demo_beside_exec in
  executed (st_trace res.1) = ["0001_other"] ∧
  userdb (st_pg res.1) = ["CREATE TABLE other (id TEXT);"] ∧ res.2 = Ok tt.
Proof. vm_compute. repeat split; reflexivity. Qed.

Example no_root_on_an_empty_disk :
  let res := migrate "/data/pglite" (demo_state demo_argv empty_disk fresh_db) in
  res.2 = Exit 1 ∧ executed (st_trace res.1) = [] ∧
  last (st_trace res.1) = Some (ConsoleError MsgNoRoot).
Proof. vm_compute. repeat split; reflexivity. Qed.

Lemma string_length_app (s t : string) :
  String.length (s +:+ t) = (String.length s + String.length t)%nat.
Proof. induction s as [|c s IH]; simpl; auto. Qed.

Lemma string_app_inj_r (s1 s2 t : string) : s1 +:+ t = s2 +:+ t → s1 = s2.
Proof.
  revert s2. induction s1 as [|c s1 IH]; intros [|c2 s2] Heq; simpl in *.
  - done.
  - apply (f_equal String.length) in Heq. simpl in Heq.
    rewrite !string_length_app in Heq. simpl in Heq. lia.
  - apply (f_equal String.length) in Heq. simpl in Heq.
    rewrite !string_length_app in Heq. simpl in Heq. lia.
  - injection Heq as -> Heq. f_equal. by apply IH.
Qed.

(** Removing the script of [0001_init], which is applied, changes nothing
    that [migrate] looks at. *)
Lemma pruned_disk_agrees :
  same_but_applied_scripts (H := demo_host) "/data/pglite" demo_half_done pruned_disk.
Proof.
  assert (Hroot : resolve_root (H := demo_host) (st_fs (U := udb) demo_half_done)
                    (st_cwd (U := udb) demo_half_done)
                    (st_execPath (U := udb) demo_half_done) = demo_root)
    by (vm_compute; reflexivity).
  unfold same_but_applied_scripts. cbv zeta. rewrite Hroot.
  split; [reflexivity|]. split.
  { intros c Hc. unfold exists_path. simpl.
    destruct (decide (c = "")); [done|].
    rewrite decide_False; [done|]. intros ->.
    apply (bool_decide_pack _) in Hc. vm_compute in Hc. exact Hc. }
  split; [reflexivity|]. split; [reflexivity|].
  intros d Hd.
  assert (Hne : script_path (H := demo_host) demo_root d ≠
                demo_root +:+ "/0001_init/migration.sql").
  { intros Heq. apply Hd. unfold script_path in Heq. simpl in Heq.
    apply (String.app_inj demo_root) in Heq.
    change ("/" +:+ d +:+ "/migration.sql" = "/" +:+ "0001_init" +:+ "/migration.sql") in Heq.
    apply (String.app_inj "/") in Heq. apply string_app_inj_r in Heq as ->.
    apply (bool_decide_unpack _). vm_compute. exact I. }
  unfold pruned_disk.
  rewrite (has_script_delete_file _ _ _ _ Hne), (readfile_delete_file _ _ _ Hne).
  split; reflexivity.
Qed.

Lemma applied_check_precedes_script_check_witness :
  let res := migrate "/data/pglite" demo_half_done in
  untouched "0001_init" (st_trace res.1) ∧
  migrate "/data/pglite" (with_fs demo_half_done pruned_disk) =
  (with_fs res.1 pruned_disk, res.2).
Proof.
  intros res.
  destruct (applied_check_precedes_script_check (H := demo_host) "/data/pglite"
              demo_half_done res.1 res.2 (st_trace res.1) "0001_init")
    as (_ & Hskip & Hdisk).
  - apply surjective_pairing.
  - reflexivity.
  - apply (bool_decide_unpack _). vm_compute. exact I.
  - split; [exact Hskip|]. apply Hdisk. exact pruned_disk_agrees.
Defined.

(** C1 as stated, for every store and root, does not hold: after a run that
    stopped at the failing script of [0002_add_index], a second run over the
    same store and root executes that script again and ends with status 1
    instead of reporting that nothing was applied. *)
Lemma second_run_retries_after_failure :
  ¬ (∀ (s s1 s2 : State (list string)) (r1 r2 : Res unit) (tr : list Event),
       migrate "/data/pglite" s = (s1, r1) →
       migrate "/data/pglite" s1 = (s2, r2) →
       st_trace s2 = st_trace s1 ++ tr →
       executed tr = [] ∧ r2 = Ok tt).
Proof.
  intros Hclaim.
  pose (run1 := migrate "/data/pglite" demo_failing).
  pose (run2 := migrate "/data/pglite" run1.1).
  destruct (Hclaim demo_failing run1.1 run2.1 run1.2 run2.2
              (prologue "/data/pglite" ++
               [ConsoleLog (MsgApplying "0002_add_index");
                ExecScript "0002_add_index" "SELECT 1/0;" (Some "division by zero");
                ConsoleError (MsgFailed "0002_add_index" "division by zero")]))
    as [Hnone _].
  - apply surjective_pairing.
  - apply surjective_pairing.
  - vm_compute. reflexivity.
  - vm_compute in Hnone. discriminate Hnone.
Qed.

Example second_run_after_failure :
  let run1 := migrate "/data/pglite" demo_failing in
  let run2 := migrate "/data/pglite" run1.1 in
  run1.2 = Exit 1 ∧ run2.2 = Exit 1 ∧
  executed (st_trace run1.1) = ["0001_init"; "0002_add_index"] ∧
  executed (drop (length (st_trace run1.1)) (st_trace run2.1)) = ["0002_add_index"] ∧
  finished_names (st_pg run2.1) = ["0001_init"].
Proof. vm_compute. repeat split; reflexivity. Qed.

(** Why the scripts are asked to leave the tracking table alone: after a
    complete first run whose last script emptied the table, the second run
    executes the first migration again. *)
Example second_run_after_wipe :
  let run1 := migrate (H := wiping_host) "/data/pglite"
                (demo_state demo_argv wiping_disk fresh_db) in
  let run2 := migrate (H := wiping_host) "/data/pglite" run1.1 in
  run1.2 = Ok tt ∧
  finished_names (H := wiping_host) (st_pg run1.1) = ["0002_reset"] ∧
  executed (drop (length (st_trace run1.1)) (st_trace run2.1)) = ["0001_init"].
Proof. vm_compute. repeat split; reflexivity. Qed.

(** C10 as stated does not hold: with [DATABASE_URL] set, to the empty
    string, [serve] does write [PGLITE_DIR] before it hands over. *)
Lemma serve_sets_pglite_dir_beside_empty_database_url :
  ¬ (∀ (s : State (list string)) (pgliteDir : string),
       is_Some (st_env s !! "DATABASE_URL") →
       ∃ s0, serve pgliteDir s = import_main s0 ∧
             st_env s0 !! "PGLITE_DIR" = st_env s !! "PGLITE_DIR").
Proof.
  intros Hclaim.
  destruct (Hclaim demo_serve "data/pglite") as (s0 & Hserve & Henv).
  - vm_compute. eauto.
  - assert (Hs0 : (serve "data/pglite" demo_serve).1 = s0) by (by rewrite Hserve).
    rewrite <-Hs0 in Henv. vm_compute in Henv. discriminate Henv.
Qed.

Example serve_with_empty_database_url :
  st_env demo_serve !! "DATABASE_URL" = Some "" ∧
  st_env demo_serve !! "PGLITE_DIR" = None ∧
  st_env (main demo_serve).1 !! "PGLITE_DIR" = Some "data/pglite".
Proof. vm_compute. repeat split; reflexivity. Qed.

(** The applied set is the one of the start of the run: when the script of
    [0001_init] itself marks [0002_add_index] as finished, the script of
    [0002_add_index] is executed all the same, and it is the INSERT of its
    row that fails. *)
Example applied_set_is_not_refreshed :
  let res := migrate (H := tamper_host) "/data/pglite" demo_fresh in
  executed (st_trace res.1) = ["0001_init"; "0002_add_index"] ∧
  recorded (st_trace res.1) = ["0001_init"] ∧
  res.2 = Exit 1.
Proof. vm_compute. repeat split; reflexivity. Qed.

(** A run over a disk where the script of an applied migration is gone. *)
Example run_without_applied_script :
  let res := migrate "/data/pglite" (with_fs demo_half_done pruned_disk) in
  announced (st_trace res.1) = ["0002_add_index"] ∧
  console_errors (st_trace res.1) =
    [MsgFailed "0002_add_index"
       (unique_violation "_prisma_migrations_migration_name_key")].
Proof. vm_compute. repeat split; reflexivity. Qed.

(** C2 as stated does not hold: the order of [sort()] is not the byte-wise
    order.  Of the two names of [wide_disk] the one that starts with U+FF5E
    has the smaller bytes (EF < F0) and the greater code units (FF5E > D83D);
    the run executes the other one first. *)
Lemma sort_is_not_byte_wise :
  ¬ (∀ (s s' : State (list string)) (r : Res unit) (tr : list Event),
       migrate "/data/pglite" s = (s', r) →
       st_trace s' = st_trace s ++ tr →
       StronglySorted byte_lt (executed tr)).
Proof.
  intros Hclaim.
  pose (run := migrate "/data/pglite" demo_wide).
  specialize (Hclaim demo_wide run.1 run.2 (st_trace run.1) (surjective_pairing _) eq_refl).
  assert (Hex : executed (st_trace run.1) = ["😀_a"; "～_b"]) by (vm_compute; reflexivity).
  rewrite Hex in Hclaim. apply StronglySorted_inv in Hclaim as [_ Hall].
  apply Forall_cons in Hall as [Hlt _]. revert Hlt.
  apply (bool_decide_unpack _). vm_compute. exact I.
Qed.

Example wide_names_run :
  let res := migrate "/data/pglite" demo_wide in
  executed (st_trace res.1) = ["😀_a"; "～_b"] ∧
  utf16 "😀_a" = [55357; 56832; 95; 97]%N ∧ utf16 "～_b" = [65374; 95; 98]%N ∧
  bytes "😀_a" = [240; 159; 152; 128; 95; 97]%N ∧ bytes "～_b" = [239; 189; 158; 95; 98]%N ∧
  res.2 = Ok tt.
Proof. vm_compute. repeat split; reflexivity. Qed.

(** C3 as stated does not hold: what the tracking table holds for the
    failing migration is up to its script.  The second script of
    [self_recording_disk] inserts the finished row of its own migration and
    then fails; the run stops there, and the failing migration has a
    completion record. *)
Lemma failing_unit_can_have_a_finished_row :
  ¬ (∀ (s s' : State (list string)) (r : Res unit) (tr : list Event) (d cause : string),
       migrate (H := self_recording_host) "/data/pglite" s = (s', r) →
       st_trace s' = st_trace s ++ tr →
       (d, cause) ∈ failures tr →
       d ∉ applied_set (H := self_recording_host) (st_pg s')).
Proof.
  intros Hclaim.
  pose (s := demo_state demo_argv self_recording_disk fresh_db).
  pose (run := migrate (H := self_recording_host) "/data/pglite" s).
  apply (Hclaim s run.1 run.2 (st_trace run.1) "0002_add_index" "division by zero").
  - apply surjective_pairing.
  - reflexivity.
  - apply (bool_decide_unpack _). vm_compute. exact I.
  - apply (bool_decide_unpack _). vm_compute. exact I.
Qed.

Example run_of_a_self_recording_script :
  let res := migrate (H := self_recording_host) "/data/pglite"
               (demo_state demo_argv self_recording_disk fresh_db) in
  res.2 = Exit 1 ∧
  executed (st_trace res.1) = ["0001_init"; "0002_add_index"] ∧
  recorded (st_trace res.1) = ["0001_init"] ∧
  finished_names (H := self_recording_host) (st_pg res.1) = ["0001_init"; "0002_add_index"].
Proof. vm_compute. repeat split; reflexivity. Qed.

(** *** Runs for the further properties *)

Lemma base64_becomes_base64url_witness :
  base64url_of "11qYAYKxCrfVS/7TyWQHOg7hcvPapiMlrwIaaPcHURo=" =
  "11qYAYKxCrfVS_7TyWQHOg7hcvPapiMlrwIaaPcHURo".
Proof.
  destruct (base64_becomes_base64url "11qYAYKxCrfVS/7TyWQHOg7hcvPapiMlrwIaaPcHURo" 1)
    as (Heq & _).
  - apply (bool_decide_unpack _). vm_compute. exact I.
  - exact Heq.
Defined.

Lemma migrate_exit_status_witness :
  (exit_status (main demo_failing).2 = 0 ↔
   (migrate (pgliteDir_of (st_env demo_failing)) demo_failing).2 = Ok tt) ∧
  exit_status (main demo_failing).2 = 1.
Proof.
  destruct (migrate_exit_status (H := demo_host) demo_failing) as (_ & Hiff & _).
  - reflexivity.
  - split; [exact Hiff|]. vm_compute. reflexivity.
Defined.

Lemma insert_ids_are_fresh_draws_witness :
  let res := migrate "/data/pglite" demo_fresh in
  st_uuid res.1 = 3%nat ∧
  insert_ids (st_trace res.1) = ["uuid-0"; "uuid-1"; "uuid-2"].
Proof.
  intros res.
  destruct (insert_ids_are_fresh_draws (H := demo_host) "/data/pglite"
              demo_fresh res.1 res.2 (st_trace res.1)) as (Hu & Hids & _).
  - apply surjective_pairing.
  - reflexivity.
  - split; [etrans; [exact Hu|]|etrans; [exact Hids|]]; vm_compute; reflexivity.
Defined.

Lemma run_only_appends_rows_witness :
  let res := migrate "/data/pglite" demo_fresh in
  (∃ new, rows_of (st_pg res.1) = rows_of (st_pg demo_fresh) ++ new ∧
          Forall engine_row new ∧
          migration_name <$> new = ["0001_init"; "0002_add_index"; "0010_later"]) ∧
  unique_keys (rows_of (st_pg res.1)).
Proof.
  intros res.
  destruct (run_only_appends_rows (H := demo_host) "/data/pglite"
              demo_fresh res.1 res.2 (st_trace res.1))
    as ((new & Hrows & Heng & Hnames) & Huniq & _).
  - exact demo_scripts_keep_tracking.
  - apply surjective_pairing.
  - reflexivity.
  - split.
    + exists new. split; [exact Hrows|]. split; [exact Heng|].
      etrans; [exact Hnames|]. vm_compute. reflexivity.
    + apply Huniq. split; apply NoDup_nil_2.
Defined.

Lemma next_run_takes_up_the_rest_witness :
  let res := migrate "/data/pglite" demo_failing in
  todo "/data/pglite" demo_failing =
    recorded (st_trace res.1) ++ todo "/data/pglite" res.1 ∧
  head (todo "/data/pglite" res.1) = Some "0002_add_index".
Proof.
  intros res.
  destruct (next_run_takes_up_the_rest (H := demo_host) "/data/pglite"
              demo_failing res.1 res.2 (st_trace res.1)
              ["0010_later"; "0002_add_index"; "0001_init"])
    as (Hsplit & _ & _ & Hhead).
  - exact demo_scripts_keep_tracking.
  - apply surjective_pairing.
  - reflexivity.
  - vm_compute. reflexivity.
  - apply (bool_decide_unpack _). vm_compute. exact I.
  - split; [exact Hsplit|]. apply Hhead.
    + intros Hok. vm_compute in Hok. discriminate Hok.
    + vm_compute. reflexivity.
Defined.

Lemma unreadable_script_is_not_caught_witness :
  let res := migrate "/data/pglite" demo_unreadable in
  res.2 = Throw "EISDIR" ∧
  ("0002_add_index" ∉ executed (st_trace res.1)) ∧
  catch_exit (migrate "/data/pglite") demo_unreadable =
    (with_trace res.1 (st_trace res.1 ++ [ConsoleError (MsgUncaught "EISDIR")]), Exit 1).
Proof.
  intros res.
  destruct (unreadable_script_is_not_caught (H := demo_host) "/data/pglite"
              demo_unreadable res.1 res.2 (st_trace res.1) demo_root
              ["0001_init"; "0002_add_index"; "0010_later"] "0002_add_index" "EISDIR")
    as (Hnex & _ & _ & Hthrow & _).
  - apply surjective_pairing.
  - reflexivity.
  - vm_compute. reflexivity.
  - apply (bool_decide_unpack _). vm_compute. exact I.
  - vm_compute. reflexivity.
  - destruct Hthrow as (Hr & _ & _ & _ & Hcatch).
    + apply (bool_decide_unpack _). vm_compute. exact I.
    + exact (conj Hr (conj Hnex Hcatch)).
Defined.

Lemma unexaminable_entry_stops_the_run_witness :
  let res := migrate "/data/pglite" demo_dangling in
  st_trace res.1 =
    [ConsoleLog (MsgMigrating "/data/pglite"); OpenStore "/data/pglite"; EnsureTable] ∧
  todo "/data/pglite" demo_dangling = [].
Proof.
  intros res.
  destruct (unexaminable_entry_stops_the_run (H := demo_host) "/data/pglite"
              demo_dangling res.1 res.2 (st_trace res.1)
              ["0001_init"; "latest"] "latest" "ENOENT")
    as (_ & Htr & _ & _ & _ & Htodo).
  - apply surjective_pairing.
  - reflexivity.
  - vm_compute. reflexivity.
  - intros Hroot. vm_compute in Hroot. discriminate Hroot.
  - vm_compute. reflexivity.
  - apply (bool_decide_unpack _). vm_compute. exact I.
  - vm_compute. reflexivity.
  - exact (conj Htr Htodo).
Defined.

Lemma row_without_finish_blocks_its_migration_witness :
  let res := migrate "/data/pglite" demo_half_done in
  res.2 = Exit 1 ∧
  ("0002_add_index" ∉ recorded (st_trace res.1)) ∧
  ("0002_add_index" ∉ applied_set (st_pg res.1)).
Proof.
  intros res.
  destruct (row_without_finish_blocks_its_migration (H := demo_host) "/data/pglite"
              demo_half_done res.1 res.2 (st_trace res.1) "0002_add_index")
    as (Hrec & _ & Hunf & Hexec & _).
  - exact demo_scripts_keep_tracking.
  - apply surjective_pairing.
  - reflexivity.
  - apply (bool_decide_unpack _). vm_compute. exact I.
  - apply (bool_decide_unpack _). vm_compute. exact I.
  - split; [|exact (conj Hrec Hunf)]. apply Hexec.
    apply (bool_decide_unpack _). vm_compute. exact I.
Defined.
